(** * Walnut / Compyute: forward and backward functions of the [nn] package

    A shallow embedding of the differentiable functions of
    [compyute/nn/functional.py], [compyute/nn/functional/convolutions.py] and
    [compyute/nn/functional/embedding_funcs.py], and the properties the
    natural-language description of the package states about them.

    Conventions.
    - A tensor of rank [n] is a nested list ([tensor R n]); the element type
      [R] is abstract and comes with the operations of the [Num] class, so
      that no law of floating-point arithmetic is assumed silently: a law a
      theorem needs is a hypothesis of that theorem.
    - Python integers are [Z]; shapes and lengths are [nat].
    - A Python exception is a value [Err e] of the [result] type. *)

From Stdlib Require Import ZArith Lia.
From stdpp Require Import base option list gmap strings.

(** ** Exceptions and results *)

Inductive error :=
  | ShapeError | ValueError | TypeError | IndexError | ZeroDivisionError | AxisError.

Inductive result (A : Type) : Type :=
  | Ok (a : A)
  | Err (e : error).
Arguments Ok {A} a.
Arguments Err {A} e.

Definition bind {A B} (m : result A) (f : A → result B) : result B :=
  match m with Ok a => f a | Err e => Err e end.

Notation "'let*' x := m 'in' k" := (bind m (λ x, k))
  (at level 10, x pattern, m at level 100, k at level 200).

(** A function that can raise, applied to every element in order; the first
    exception ends the traversal. *)
Fixpoint traverse {A B} (f : A → result B) (l : list A) : result (list B) :=
  match l with
  | [] => Ok []
  | a :: l' => let* b := f a in let* bs := traverse f l' in Ok (b :: bs)
  end.

(** ** Scalars

    The operations the tensor primitive offers on its elements. *)

Class Num (R : Type) := {
  rzero : R;
  rone : R;
  radd : R → R → R;
  rsub : R → R → R;
  rmul : R → R → R;
  rdiv : R → R → R;
  rmax : R → R → R;
  rexp : R → R;
  reqb : R → R → bool;
  rofZ : Z → R
}.

(** Integers as an instance, for evaluating the functions on concrete
    inputs: division is floor division and [2 ^ z] stands for [exp]. *)
#[global] Instance Z_Num : Num Z := {|
  rzero := 0%Z; rone := 1%Z;
  radd := Z.add; rsub := Z.sub; rmul := Z.mul; rdiv := Z.div;
  rmax := Z.max; rexp := Z.pow 2; reqb := Z.eqb; rofZ := λ z, z
|}.

Definition of_bool {R} `{Num R} (b : bool) : R := if b then rone else rzero.

(** ** Python slices *)

Record slice := Slice { start : option Z; stop : option Z; step : option Z }.

(** [PySlice_AdjustIndices]: a bound is counted from the end when negative
    and clipped to the sequence. *)
Definition adjust_index (len stp i : Z) : Z :=
  if (i <? 0)%Z then
    (if (i + len <? 0)%Z then (if (stp <? 0)%Z then -1 else 0) else i + len)%Z
  else if (len <=? i)%Z then (if (stp <? 0)%Z then len - 1 else len)%Z
  else i.

(** The positions a slice selects in a sequence of length [len], in order. *)
Definition slice_indices (s : slice) (len : nat) : result (list Z) :=
  let n := Z.of_nat len in
  let stp := default 1%Z (step s) in
  if (stp =? 0)%Z then Err ValueError else
  let lo := match start s with
            | Some i => adjust_index n stp i
            | None => if (stp <? 0)%Z then (n - 1)%Z else 0%Z
            end in
  let hi := match stop s with
            | Some i => adjust_index n stp i
            | None => if (stp <? 0)%Z then (-1)%Z else n
            end in
  let count :=
    if (stp <? 0)%Z
    then (if (hi <? lo)%Z then (lo - hi - 1) / (- stp) + 1 else 0)%Z
    else (if (lo <? hi)%Z then (hi - lo - 1) / stp + 1 else 0)%Z in
  Ok ((λ k, (lo + k * stp)%Z) <$> seqZ 0 count).

(** [l[s]] *)
Definition getitem_slice {A} (l : list A) (s : slice) : result (list A) :=
  let* idx := slice_indices s (length l) in
  Ok (omap (λ i : Z, l !! Z.to_nat i) idx).

(** [y[s] = x]: the value has as many elements as the slice selects, or one
    element, which is then written to every selected position. *)
Definition setitem_slice {A} (y : list A) (s : slice) (x : list A) : result (list A) :=
  let* idx := slice_indices s (length y) in
  if decide (length x = length idx)
  then Ok (foldr (λ iv acc, <[Z.to_nat iv.1 := iv.2]> acc) y (zip idx x))
  else match x with
       | [v] => Ok (foldr (λ i acc, <[Z.to_nat i := v]> acc) y idx)
       | _ => Err ValueError
       end.

(** ** Tensors *)

Fixpoint tensor (R : Type) (n : nat) : Type :=
  match n with
  | O => R
  | S k => list (tensor R k)
  end.

(** [x.shape], read along the first element of every axis as the array's
    header would give it; an empty axis leaves the remaining extents 0. *)
Fixpoint shape {R} (n : nat) : tensor R n → list nat :=
  match n with
  | O => λ _, []
  | S k => λ t, length t :: match t with
                           | x :: _ => shape k x
                           | [] => replicate k 0
                           end
  end.

(** [t] is a rectangular array of shape [s]. *)
Fixpoint has_shape {R} (n : nat) (s : list nat) : tensor R n → Prop :=
  match n with
  | O => λ _, s = []
  | S k => λ t, match s with
               | [] => False
               | d :: s' => length t = d ∧ Forall (has_shape k s') t
               end
  end.

(** Elementwise application. *)
Fixpoint tmap {A B} (n : nat) (f : A → B) : tensor A n → tensor B n :=
  match n with
  | O => f
  | S k => fmap (tmap k f)
  end.

(** An operation on the trailing [j] axes of a tensor with [n] leading axes
    (the [...] of an index expression), and one that can raise. *)
Fixpoint lift {A B} (n : nat) {j k : nat} (f : tensor A j → tensor B k)
    : tensor A (n + j) → tensor B (n + k) :=
  match n with
  | O => f
  | S m => fmap (lift m f)
  end.

Fixpoint liftM {A B} (n : nat) {j k : nat} (f : tensor A j → result (tensor B k))
    : tensor A (n + j) → result (tensor B (n + k)) :=
  match n with
  | O => f
  | S m => traverse (liftM m f)
  end.

(** A binary operation on the trailing axes of two tensors with the same
    leading extents. *)
Fixpoint lift2M {A B C} (n : nat) {i j k : nat}
    (f : tensor A i → tensor B j → result (tensor C k))
    : tensor A (n + i) → tensor B (n + j) → result (tensor C (n + k)) :=
  match n with
  | O => f
  | S m => λ a b,
      if decide (length a = length b)
      then traverse (λ ab, lift2M m f ab.1 ab.2) (zip a b)
      else Err ValueError
  end.

(** The same with numpy's broadcasting of the leading axes: extents are
    equal, or one of them is 1 and that operand is repeated. *)
Fixpoint bcast2M {A B C} (n : nat) {i j k : nat}
    (f : tensor A i → tensor B j → result (tensor C k))
    : tensor A (n + i) → tensor B (n + j) → result (tensor C (n + k)) :=
  match n with
  | O => f
  | S m => λ a b,
      if decide (length a = length b)
      then traverse (λ ab, bcast2M m f ab.1 ab.2) (zip a b)
      else match a, b with
           | [a0], _ => traverse (λ b0, bcast2M m f a0 b0) b
           | _, [b0] => traverse (λ a0, bcast2M m f a0 b0) a
           | _, _ => Err ValueError
           end
  end.

(** [zeros(shape)]: a negative extent is a [ValueError], and so is a shape
    whose length is not the rank asked for. *)
Fixpoint zeros {R} `{Num R} (n : nat) (s : list Z) : result (tensor R n) :=
  match n, s with
  | O, [] => Ok (rzero : tensor R 0)
  | S k, d :: s' =>
      if (d <? 0)%Z then Err ValueError else
      let* sub := zeros k s' in
      Ok (replicate (Z.to_nat d) sub : tensor R (S k))
  | _, _ => Err ValueError
  end.

(** [x.shape[-1]], [x.shape[-2]] and the extents before them. *)
Definition dim_from_end {R} (n : nat) (x : tensor R n) (i : nat) : Z :=
  Z.of_nat (default 0 (reverse (shape n x) !! i)).

Definition shape_but_last {R} (n : nat) (x : tensor R n) (i : nat) : list Z :=
  Z.of_nat <$> take (n - i) (shape n x).

(** [y[s0, s1] = x] on matrices: the rows [s0] selects receive the rows
    of [x], each written at the columns [s1] selects. *)
Definition setitem_slice2 {A} (y : list (list A)) (s0 s1 : slice) (x : list (list A))
    : result (list (list A)) :=
  let* idx := slice_indices s0 (length y) in
  let* vals := (if decide (length x = length idx) then Ok x
                else match x with
                     | [v] => Ok (replicate (length idx) v)
                     | _ => Err ValueError
                     end) in
  foldr (λ iv acc,
           let* acc := acc in
           match acc !! Z.to_nat iv.1 with
           | Some r => let* r' := setitem_slice r s1 iv.2 in
                       Ok (<[Z.to_nat iv.1 := r']> acc)
           | None => Err IndexError
           end)
        (Ok y) (zip idx vals).

(** [m[s0, s1]] on matrices. *)
Definition getitem_slice2 {A} (m : list (list A)) (s0 s1 : slice) : result (list (list A)) :=
  let* rs := getitem_slice m s0 in
  traverse (λ r, getitem_slice r s1) rs.

(** ** Primitives of the tensor package

    The array primitive is not part of the sources; the functions below
    follow its description and numpy, which it wraps. *)

(** Modelled from the spec: [pad] of [tensor_ops/reshaping.py], not among
    the sources; "inserts widths[i] zeros before and after axis i's data".
    A negative width is refused, as numpy refuses it. *)
Fixpoint pad {R} `{Num R} (n : nat) (widths : list (Z * Z)) : tensor R n → result (tensor R n) :=
  match n, widths with
  | O, [] => λ t, Ok t
  | S k, (a, b) :: ws => λ t,
      if ((a <? 0) || (b <? 0))%Z then Err ValueError else
      let* t' := traverse (pad k ws) t in
      let* z := zeros k (Z.of_nat <$> match t' with
                                       | x :: _ => shape k x
                                       | [] => replicate k 0
                                       end) in
      Ok (replicate (Z.to_nat a) z ++ t' ++ replicate (Z.to_nat b) z : tensor R (S k))
  | _, _ => λ _, Err ValueError
  end.

(** Modelled from the spec: [pad_to_shape] of [tensor_ops/reshaping.py], not
    among the sources; "zero-pads to exactly match a target shape": zeros are
    appended along every axis up to the target extent, and a tensor longer
    than the target is refused (the width would be negative). *)
Definition pad_to_shape {R} `{Num R} (n : nat) (x : tensor R n) (target : list nat)
    : result (tensor R n) :=
  if decide (length target = n)
  then pad n (zip_with (λ t d, (0, Z.of_nat t - Z.of_nat d)%Z) target (shape n x)) x
  else Err ValueError.

(** Modelled from the spec: [repeat] of [tensor_ops/reshaping.py], not among
    the sources; "repeats each element factor times along given axes".
    [repeat_axis] repeats along the axis counted from the front. *)
Fixpoint repeat_axis {R} (n : nat) (ax : nat) (reps : nat) : tensor R n → result (tensor R n) :=
  match n with
  | O => λ _, Err AxisError
  | S k => λ t,
      match ax with
      | O => Ok (t ≫= replicate reps : tensor R (S k))
      | S a => traverse (repeat_axis k a reps) t
      end
  end.

Definition normalize_axis (n : nat) (axis : Z) : result nat :=
  let ax := if (axis <? 0)%Z then (axis + Z.of_nat n)%Z else axis in
  if ((ax <? 0) || (Z.of_nat n <=? ax))%Z then Err AxisError else Ok (Z.to_nat ax).

Definition repeat {R} (n : nat) (x : tensor R n) (n_repeats : Z) (axis : Z)
    : result (tensor R n) :=
  if (n_repeats <? 0)%Z then Err ValueError else
  let* ax := normalize_axis n axis in
  repeat_axis n ax (Z.to_nat n_repeats) x.

(** Elementwise combination of two tensors of the same shape. *)
Fixpoint tzip {R} (n : nat) (op : R → R → R) : tensor R n → tensor R n → tensor R n :=
  match n with
  | O => op
  | S k => zip_with (tzip k op)
  end.

(** Reduction over the first axis. A reduction without identity ([max])
    refuses an empty axis; one with identity ([sum]) starts from it. *)
Definition tfill {R} (n : nat) (z : R) : tensor R n :=
  match n with
  | O => z
  | S k => []
  end.

Definition reduce0 {R} (op : R → R → R) (init : option R) (n : nat)
    (t : tensor R (S n)) : result (tensor R n) :=
  match t, init with
  | a :: l, _ => Ok (foldl (tzip n op) a l)
  | [], Some z => Ok (tfill n z)
  | [], None => Err ValueError
  end.

(** Reduction over the first [n] axes, one after the other. *)
Fixpoint sum_leading {R} `{Num R} (n : nat) {k : nat} : tensor R (n + k) → result (tensor R k) :=
  match n with
  | O => λ t, Ok t
  | S m => λ t, let* r := reduce0 radd (Some rzero) (m + k) t in sum_leading m r
  end.

(** Matrices: transposition (numpy's [moveaxis(-2, -1)]) and product. *)
Fixpoint transpose {R} (m : list (list R)) : list (list R) :=
  match m with
  | [] => []
  | [r] => (λ a, [a]) <$> r
  | r :: m' => zip_with cons r (transpose m')
  end.

Definition dot {R} `{Num R} (u v : list R) : R :=
  foldl radd rzero (zip_with rmul u v).

Definition width {R} (m : list (list R)) : nat :=
  match m with r :: _ => length r | [] => 0 end.

(** [a @ b] for matrices: the inner extents agree, or it is a [ValueError]. *)
Definition matmul {R} `{Num R} (a b : list (list R)) : result (list (list R)) :=
  if decide (Forall (λ r, length r = length b) a)
  then Ok ((λ r, (λ c, dot r c) <$> transpose b) <$> a)
  else Err ValueError.

(** Row-major data of a tensor, and a tensor of a given shape from
    row-major data ([reshape] of the array primitive; a shape whose size is
    not the number of elements is a [ValueError]). *)
Fixpoint flatten {R} (n : nat) : tensor R n → list R :=
  match n with
  | O => λ r, [r]
  | S k => λ t, t ≫= flatten k
  end.

Fixpoint unflatten {R} (n : nat) (s : list nat) (data : list R) : result (tensor R n) :=
  match n, s with
  | O, [] => match data with
             | [r] => Ok (r : tensor R 0)
             | _ => Err ValueError
             end
  | S k, d :: s' =>
      let size := foldr Nat.mul 1 s' in
      if decide (length data = d * size)
      then traverse (unflatten k s') (reshape (replicate d size) data)
      else Err ValueError
  | _, _ => Err ValueError
  end.

Definition to_shape {R} (n m : nat) (x : tensor R n) (s : list Z) : result (tensor R m) :=
  if decide (Forall (λ d, 0 ≤ d)%Z s)
  then unflatten m (Z.to_nat <$> s) (flatten n x)
  else Err ValueError.

(** Elementwise binary operation with numpy's broadcasting of tensors of
    the same rank: along every axis the extents are equal, or one of them
    is 1 and that operand is repeated. *)
Fixpoint broadcast_op {A B C} (n : nat) (op : A → B → C)
    : tensor A n → tensor B n → result (tensor C n) :=
  match n with
  | O => λ a b, Ok (op a b : tensor C 0)
  | S m => λ a b,
      if decide (length a = length b)
      then traverse (λ ab, broadcast_op m op ab.1 ab.2) (zip a b)
      else match a, b with
           | [a0], _ => traverse (λ b0, broadcast_op m op a0 b0) b
           | _, [b0] => traverse (λ a0, broadcast_op m op a0 b0) a
           | _, _ => Err ValueError
           end
  end.

(** Reduction over one axis, counted from the front, that keeps the axis
    with extent 1 ([keepdims=True]). *)
Fixpoint reduce_keep {R} (op : R → R → R) (init : option R) (n : nat) (ax : nat)
    : tensor R n → result (tensor R n) :=
  match n with
  | O => λ _, Err AxisError
  | S k => λ t,
      match ax with
      | O => let* r := reduce0 op init k t in Ok ([r] : tensor R (S k))
      | S a => traverse (reduce_keep op init k a) t
      end
  end.

(** Python's floor division, which raises on a zero divisor. *)
Definition floordiv (a b : Z) : result Z :=
  if (b =? 0)%Z then Err ZeroDivisionError else Ok (a / b)%Z.

(** ** The function cache *)

(** Values a function stores for its backward pass. *)
Inductive cval (T : Type) : Type :=
  | VBool (b : bool)
  | VInt (z : Z)
  | VPair (p : Z * Z)
  | VPair2 (p : (Z * Z) * (Z * Z))
  | VShape (s : list nat)
  | VTensor (t : T).
Arguments VBool {T} b.
Arguments VInt {T} z.
Arguments VPair {T} p.
Arguments VPair2 {T} p.
Arguments VShape {T} s.
Arguments VTensor {T} t.

(** Modelled from the spec: [FunctionCache] and [PseudoCache] of
    [nn/functional/functions.py], not among the sources; "a key-value scratch
    region" and "a no-op cache variant ... that silently discards writes".
    Reading a key that was never written gives [None]: the backward
    functions read [cache.dilation], [cache.padding] and [cache.b] on paths
    where the forward function did not write them. *)
Record FunctionCache (T : Type) : Type := mkCache {
  pseudo : bool;
  attrs : gmap string (cval T)
}.
Arguments mkCache {T} pseudo attrs.
Arguments pseudo {T} _.
Arguments attrs {T} _.

Definition new_cache (T : Type) : FunctionCache T := mkCache false ∅.
Definition PseudoCache (T : Type) : FunctionCache T := mkCache true ∅.

Definition setattr {T} (c : FunctionCache T) (key : string) (v : cval T) : FunctionCache T :=
  if pseudo c then c else mkCache false (<[key := v]> (attrs c)).

Definition getattr {T} (c : FunctionCache T) (key : string) : option (cval T) :=
  attrs c !! key.

(** Python's truth value of what a cache read returns. *)
Definition truthy {T} (v : option (cval T)) : bool :=
  match v with
  | None => false
  | Some (VBool b) => b
  | Some (VInt z) => negb (z =? 0)%Z
  | Some (VShape s) => negb (bool_decide (s = []))
  | Some _ => true
  end.

(** ** Reductions over pooling windows *)

(** [cp_max(t, axis=(-3, -1))] and [mean(t, axis=(-3, -1))] on a tensor whose
    four trailing axes are (rows of windows, window height, columns of
    windows, window width). *)
Definition reduce_window {R} (op : R → R → R) (init : option R)
    (t : tensor R 4) : result (tensor R 2) :=
  let* t3 := liftM 3 (j := 1) (k := 0) (reduce0 op init 0) t in
  liftM 1 (j := 2) (k := 1) (reduce0 op init 1) t3.

Definition cp_max_window {R} `{Num R} (n : nat) (t : tensor R (n + 4))
    : result (tensor R (n + 2)) :=
  liftM n (j := 4) (k := 2) (reduce_window rmax None) t.

Definition mean_window {R} `{Num R} (n : nat) (t : tensor R (n + 4))
    : result (tensor R (n + 2)) :=
  liftM n (j := 4) (k := 2)
    (λ b, let* s := reduce_window radd (Some rzero) b in
          let count := (dim_from_end 4 b 2 * dim_from_end 4 b 0)%Z in
          Ok (tmap 2 (λ v, rdiv v (rofZ count)) s)) t.

(** ** [compyute/nn/functional/convolutions.py] *)

Module Convolutions.

(** Dilates a tensor in its last axis. *)
Module FDilation1D.
Section FDilation1D.
Context {R : Type} `{Num R} {T : Type} (n : nat).

Definition forward (cache : FunctionCache T) (x : tensor R (n + 1)) (dilation : Z)
    : result (FunctionCache T * tensor R (n + 1)) :=
  let cache := setattr cache "no_dilation" (VBool (dilation =? 1)%Z) in
  if (dilation =? 1)%Z then Ok (cache, x) else
  let dil_shape := [(dilation * dim_from_end (n + 1) x 0 - 1)%Z] in
  let* y := zeros (n + 1) (shape_but_last (n + 1) x 1 ++ dil_shape) in
  let* y := lift2M n (i := 1) (j := 1) (k := 1)
              (λ yr xr, setitem_slice yr (Slice None None (Some dilation)) xr) y x in
  let cache := setattr cache "dilation" (VInt dilation) in
  Ok (cache, y).

Definition backward (cache : FunctionCache T) (dy : tensor R (n + 1))
    : result (tensor R (n + 1)) :=
  let no_dilation := getattr cache "no_dilation" in
  let dilation := getattr cache "dilation" in
  if truthy no_dilation then Ok dy else
  match dilation with
  | Some (VInt d) =>
      liftM n (j := 1) (k := 1) (λ r, getitem_slice r (Slice None None (Some d))) dy
  | None =>
      liftM n (j := 1) (k := 1) (λ r, getitem_slice r (Slice None None None)) dy
  | Some _ => Err TypeError
  end.
End FDilation1D.
End FDilation1D.

Definition dilate1d {R} `{Num R} (n : nat) (x : tensor R (n + 1)) (dilation : Z)
    : result (tensor R (n + 1)) :=
  let* cy := FDilation1D.forward n (PseudoCache unit) x dilation in Ok cy.2.

(** Pads a tensor in its last axis. *)
Module FPad1D.
Section FPad1D.
Context {R : Type} `{Num R} {T : Type} (n : nat).

Definition forward (cache : FunctionCache T) (x : tensor R (n + 1)) (padding : Z * Z)
    : result (FunctionCache T * tensor R (n + 1)) :=
  let cache := setattr cache "no_padding" (VBool (bool_decide (padding = (0, 0)%Z))) in
  if bool_decide (padding = (0, 0)%Z) then Ok (cache, x) else
  let widths := replicate n (0, 0)%Z ++ [padding] in
  let* y := pad (n + 1) widths x in
  let cache := setattr cache "padding" (VPair padding) in
  Ok (cache, y).

Definition backward (cache : FunctionCache T) (dy : tensor R (n + 1))
    : result (tensor R (n + 1)) :=
  let no_padding := getattr cache "no_padding" in
  let padding := getattr cache "padding" in
  if truthy no_padding then Ok dy else
  match padding with
  | Some (VPair padding) =>
      liftM n (j := 1) (k := 1)
        (λ r, getitem_slice r (Slice (Some padding.1) (Some (- padding.1)%Z) None)) dy
  | _ => Err TypeError
  end.
End FPad1D.
End FPad1D.

Definition pad1d {R} `{Num R} (n : nat) (x : tensor R (n + 1)) (padding : Z * Z)
    : result (tensor R (n + 1)) :=
  let* cy := FPad1D.forward n (PseudoCache unit) x padding in Ok cy.2.

(** Dilates a tensor in its last two axes. *)
Module FDilation2D.
Section FDilation2D.
Context {R : Type} `{Num R} {T : Type} (n : nat).

Definition forward (cache : FunctionCache T) (x : tensor R (n + 2)) (dilation : Z * Z)
    : result (FunctionCache T * tensor R (n + 2)) :=
  let cache := setattr cache "no_dilation" (VBool (bool_decide (dilation = (1, 1)%Z))) in
  if bool_decide (dilation = (1, 1)%Z) then Ok (cache, x) else
  let dil_shape := [(dilation.1 * dim_from_end (n + 2) x 1 - 1)%Z;
                    (dilation.2 * dim_from_end (n + 2) x 0 - 1)%Z] in
  let* y := zeros (n + 2) (shape_but_last (n + 2) x 2 ++ dil_shape) in
  let* y := lift2M n (i := 2) (j := 2) (k := 2)
              (λ ym xm, setitem_slice2 ym (Slice None None (Some dilation.1))
                                       (Slice None None (Some dilation.2)) xm) y x in
  let cache := setattr cache "dilation" (VPair dilation) in
  Ok (cache, y).

Definition backward (cache : FunctionCache T) (dy : tensor R (n + 2))
    : result (tensor R (n + 2)) :=
  let no_dilation := getattr cache "no_dilation" in
  let dilation := getattr cache "dilation" in
  if truthy no_dilation then Ok dy else
  match dilation with
  | Some (VPair dilation) =>
      liftM n (j := 2) (k := 2)
        (λ m, getitem_slice2 m (Slice None None (Some dilation.1))
                               (Slice None None (Some dilation.2))) dy
  | _ => Err TypeError
  end.
End FDilation2D.
End FDilation2D.

Definition dilate2d {R} `{Num R} (n : nat) (x : tensor R (n + 2)) (dilation : Z * Z)
    : result (tensor R (n + 2)) :=
  let* cy := FDilation2D.forward n (PseudoCache unit) x dilation in Ok cy.2.

(** Pads a tensor in its last two axes. *)
Module FPad2D.
Section FPad2D.
Context {R : Type} `{Num R} {T : Type} (n : nat).

Definition forward (cache : FunctionCache T) (x : tensor R (n + 2))
    (padding : (Z * Z) * (Z * Z)) : result (FunctionCache T * tensor R (n + 2)) :=
  let no_pad := bool_decide (padding = ((0, 0), (0, 0))%Z) in
  let cache := setattr cache "no_padding" (VBool no_pad) in
  if no_pad then Ok (cache, x) else
  let widths := replicate n (0, 0)%Z ++ [padding.1; padding.2] in
  let* y := pad (n + 2) widths x in
  let cache := setattr cache "padding" (VPair2 padding) in
  Ok (cache, y).

Definition backward (cache : FunctionCache T) (dy : tensor R (n + 2))
    : result (tensor R (n + 2)) :=
  let no_padding := getattr cache "no_padding" in
  let padding := getattr cache "padding" in
  if truthy no_padding then Ok dy else
  match padding with
  | Some (VPair2 padding) =>
      liftM n (j := 2) (k := 2)
        (λ m, getitem_slice2 m
                (Slice (Some padding.1.1) (Some (- padding.1.2)%Z) None)
                (Slice (Some padding.2.1) (Some (- padding.2.2)%Z) None)) dy
  | _ => Err TypeError
  end.
End FPad2D.
End FPad2D.

Definition pad2d {R} `{Num R} (n : nat) (x : tensor R (n + 2))
    (padding : (Z * Z) * (Z * Z)) : result (tensor R (n + 2)) :=
  let* cy := FPad2D.forward n (PseudoCache unit) x padding in Ok cy.2.

(** Upsamples a tensor by repeating its elements over the last two axes. *)
Module FUpsample2D.
Section FUpsample2D.
Context {R : Type} `{Num R} (n : nat).

Definition forward (x : tensor R n) (scaling_factors : Z * Z) (shape_ : list nat)
    : result (tensor R n) :=
  let '(f1, f2) := scaling_factors in
  let* x := repeat n x f1 (-1) in
  let* x := repeat n x f2 (-2) in
  if decide (shape n x = shape_) then Ok x else pad_to_shape n x shape_.
End FUpsample2D.
End FUpsample2D.

Definition upsample2d {R} `{Num R} (n : nat) (x : tensor R n) (scaling_factors : Z * Z)
    (shape_ : list nat) : result (tensor R n) :=
  FUpsample2D.forward n x scaling_factors shape_.

(** Performs max pooling over the last two axes. *)
Module FMaxPooling2D.
Section FMaxPooling2D.
Context {R : Type} `{Num R} (n : nat).
Local Abbreviation T := (tensor R (n + 2)).

Definition forward (cache : FunctionCache T) (x : T) (kernel_size : Z * Z)
    : result (FunctionCache T * T) :=
  let x_height := dim_from_end (n + 2) x 1 in
  let x_width := dim_from_end (n + 2) x 0 in
  let '(kernel_height, kernel_width) := kernel_size in
  let* qy := floordiv x_height kernel_height in
  let trunc_y := (qy * kernel_height)%Z in
  let* qx := floordiv x_width kernel_width in
  let trunc_x := (qx * kernel_width)%Z in
  let* x_trunc := liftM n (j := 2) (k := 2)
                    (λ m, getitem_slice2 m (Slice None (Some trunc_y) None)
                                           (Slice None (Some trunc_x) None)) x in
  let pool_shape := shape_but_last (n + 2) x 2
                      ++ [qy; kernel_height; qx; kernel_width] in
  let* blocks := to_shape (n + 2) (n + 4) x_trunc pool_shape in
  let* y := cp_max_window n blocks in
  let cache := setattr cache "x" (VTensor x) in
  let cache := setattr cache "kernel_size" (VPair kernel_size) in
  let cache := setattr cache "y" (VTensor y) in
  Ok (cache, y).

Definition backward (cache : FunctionCache T) (dy : T) : result T :=
  match getattr cache "x", getattr cache "kernel_size", getattr cache "y" with
  | Some (VTensor x), Some (VPair kernel_size), Some (VTensor y) =>
      let* y_ups := upsample2d (n + 2) y kernel_size (shape (n + 2) x) in
      let* dy_ups := upsample2d (n + 2) dy kernel_size (shape (n + 2) x) in
      let* mask := broadcast_op (n + 2) (λ a b, of_bool (reqb a b)) x y_ups in
      broadcast_op (n + 2) rmul dy_ups mask
  | _, _, _ => Err TypeError
  end.
End FMaxPooling2D.
End FMaxPooling2D.

Definition maxpooling2d {R} `{Num R} (n : nat) (x : tensor R (n + 2)) (kernel_size : Z * Z)
    : result (tensor R (n + 2)) :=
  let* cy := FMaxPooling2D.forward n (PseudoCache _) x kernel_size in Ok cy.2.

(** Performs average pooling over the last two axes. *)
Module FAvgPooling2D.
Section FAvgPooling2D.
Context {R : Type} `{Num R} (n : nat).
Local Abbreviation T := (tensor R (n + 2)).

Definition forward (cache : FunctionCache T) (x : T) (kernel_size : Z * Z)
    : result (FunctionCache T * T) :=
  let x_height := dim_from_end (n + 2) x 1 in
  let x_width := dim_from_end (n + 2) x 0 in
  let '(kernel_height, kernel_width) := kernel_size in
  let* qy := floordiv x_height kernel_height in
  let trunc_y := (qy * kernel_height)%Z in
  let* qx := floordiv x_width kernel_width in
  let trunc_x := (qx * kernel_width)%Z in
  let* x_trunc := liftM n (j := 2) (k := 2)
                    (λ m, getitem_slice2 m (Slice None (Some trunc_y) None)
                                           (Slice None (Some trunc_x) None)) x in
  let pool_shape := shape_but_last (n + 2) x 2
                      ++ [qy; kernel_height; qx; kernel_width] in
  let* blocks := to_shape (n + 2) (n + 4) x_trunc pool_shape in
  let* y := mean_window n blocks in
  let cache := setattr cache "x_shape" (VShape (shape (n + 2) x)) in
  let cache := setattr cache "kernel_size" (VPair kernel_size) in
  Ok (cache, y).

Definition backward (cache : FunctionCache T) (dy : T) : result T :=
  match getattr cache "x_shape", getattr cache "kernel_size" with
  | Some (VShape x_shape), Some (VPair kernel_size) =>
      let* ups := upsample2d (n + 2) dy kernel_size x_shape in
      Ok (tmap (n + 2) (λ v, rdiv v (rofZ (kernel_size.1 * kernel_size.2)%Z)) ups)
  | _, _ => Err TypeError
  end.
End FAvgPooling2D.
End FAvgPooling2D.

Definition avgpooling2d {R} `{Num R} (n : nat) (x : tensor R (n + 2)) (kernel_size : Z * Z)
    : result (tensor R (n + 2)) :=
  let* cy := FAvgPooling2D.forward n (PseudoCache _) x kernel_size in Ok cy.2.

End Convolutions.

(** ** [compyute/nn/functional.py] *)

(** A tensor together with its [requires_grad] flag. *)
Record Tensor (R : Type) (n : nat) : Type := mkTensor {
  data : tensor R n;
  requires_grad : bool
}.
Arguments mkTensor {R n} data requires_grad.
Arguments data {R n} _.
Arguments requires_grad {R n} _.

(** Modelled from the spec: [fft1d], [ifft1d] and [real] of the tensor
    primitive, not among the sources; "computes circular convolution via
    forward FFT → elementwise complex multiply → inverse FFT → real part".
    [circular_convolve len x f] is the real part of
    [ifft(fft(x) * fft(f, n=len))] in exact arithmetic: [f] is cut or
    zero-filled to [len] elements, and element [k] of the result is the sum
    of [x[j] * f[(k - j) mod len]]. *)
Definition resize {R} `{Num R} (len : nat) (f : list R) : list R :=
  take len (f ++ replicate (len - length f) rzero).

Definition circular_convolve {R} `{Num R} (len : nat) (x f : list R) : list R :=
  let f' := resize len f in
  (λ k, foldl radd rzero
          ((λ j, rmul (default rzero (x !! j))
                      (default rzero (f' !! ((k + len - j) mod len)))) <$> seq 0 len))
    <$> seq 0 (length x).

(** Element types of a tensor, and index tensors: integers with the
    element type the tensor was declared with. *)
Inductive dtype := int8 | int16 | int32 | int64 | float16 | float32 | float64 | complex64.

#[global] Instance dtype_eq_dec : EqDecision dtype.
Proof. solve_decision. Defined.

Record IndexTensor (n : nat) : Type := mkIndex {
  index_dtype : dtype;
  indices : tensor Z n
}.
Arguments mkIndex {n} index_dtype indices.
Arguments index_dtype {n} _.
Arguments indices {n} _.

(** Modelled from the spec: [is_integer] of [compyute/typing.py], not among
    the sources; "validates x's dtype is an integer kind". *)
Definition is_integer (d : dtype) : bool :=
  match d with
  | int8 | int16 | int32 | int64 => true
  | _ => false
  end.

(** Modelled from the spec: [one_hot_encode] of [preprocessing/basic.py],
    not among the sources; "converting an integer index into a unit basis
    vector of a given length". An index outside [0, num_classes) has no
    basis vector and is refused. *)
Definition unit_vector {R} `{Num R} (len : nat) (i : Z) : list R :=
  (λ c, of_bool (Z.of_nat c =? i)%Z) <$> seq 0 len.

Definition one_hot_row {R} `{Num R} (num_classes : nat) (i : Z) : result (list R) :=
  if ((0 <=? i) && (i <? Z.of_nat num_classes))%Z
  then Ok (unit_vector num_classes i)
  else Err IndexError.

Definition one_hot_encode {R} `{Num R} (n : nat) (x : tensor Z (n + 1)) (num_classes : nat)
    : result (tensor R (n + 2)) :=
  liftM n (j := 1) (k := 2) (traverse (one_hot_row num_classes) : tensor Z 1 → _) x.

(** [table[i]] for an integer [i], with numpy's indexing: a negative index
    counts from the end, and an index outside the table is an [IndexError]. *)
Definition getitem_int {A} (l : list A) (i : Z) : result A :=
  let k := if (i <? 0)%Z then (i + Z.of_nat (length l))%Z else i in
  if (k <? 0)%Z then Err IndexError else
  match l !! Z.to_nat k with
  | Some a => Ok a
  | None => Err IndexError
  end.

(** [x.T]: the last two axes exchanged. *)
Definition T_ {R} (n : nat) (x : tensor R (n + 2)) : tensor R (n + 2) :=
  lift n (j := 2) (k := 2) (transpose : tensor R 2 → tensor R 2) x.

Module Functional.

Inductive Padding := causal | full | same | valid.

Section Softmax.
Context {R : Type} `{Num R}.

(** Applies the softmax function over a given axis. *)
Definition softmax (n : nat) (x : tensor R n) (axis : Z) : result (tensor R n) :=
  let* ax := normalize_axis n axis in
  let* m := reduce_keep rmax None n ax x in
  let* d := broadcast_op n rsub x m in
  let x := tmap n rexp d in
  let* s := reduce_keep radd (Some rzero) n ax x in
  broadcast_op n rdiv x s.

(** Applies the softmax function with temperature. *)
Definition temperature_softmax (n : nat) (x : tensor R n) (temperature : R) (axis : Z)
    : result (tensor R n) :=
  if reqb temperature rzero then Err ValueError else
  let* ax := normalize_axis n axis in
  let* m := reduce_keep rmax None n ax x in
  let* d := broadcast_op n rsub x m in
  let x := tmap n rexp (tmap n (λ v, rdiv v temperature) d) in
  let* s := reduce_keep radd (Some rzero) n ax x in
  broadcast_op n rdiv x s.
End Softmax.

Section Linear.
Context {R : Type} `{Num R} (n : nat).

(** [dw.sum(axis=axes)] under [if x.ndim > 2], for [x] with [n] axes before
    its last two. *)
Definition sum_batch_axes : tensor R (n + 2) → result (tensor R 2) :=
  match n with
  | O => λ dw, Ok dw
  | S m => λ dw, sum_leading (S m) dw
  end.

Definition linear_backward (x : tensor R (n + 2)) (w : Tensor R 2) (b : option (Tensor R 1))
    (dy : tensor R (n + 2))
    : result (tensor R (n + 2) * option (tensor R 2) * option (tensor R 1)) :=
  (* input grads *)
  let* dx := liftM n (j := 2) (k := 2) (λ m, matmul m (data w)) dy in
  (* weight grads *)
  let* dw := (if requires_grad w then
                let* dw := lift2M n (i := 2) (j := 2) (k := 2)
                             (λ dym xm, matmul (transpose dym) xm) dy x in
                let* dw := sum_batch_axes dw in
                Ok (Some dw)
              else Ok None) in
  (* bias grads *)
  let* db := (match b with
              | Some b =>
                  if requires_grad b then
                    let* s := sum_leading n (k := 2) dy in
                    let* db := reduce0 radd (Some rzero) 1 s in
                    Ok (Some db)
                  else Ok None
              | None => Ok None
              end) in
  Ok (dx, dw, db).

(** Applies the linear transformation X @ W^T + b. *)
Definition linear (x : tensor R (n + 2)) (w : Tensor R 2) (b : option (Tensor R 1))
    (return_backward_fn : bool)
    : result (tensor R (n + 2)
              * option (tensor R (n + 2)
                        → result (tensor R (n + 2) * option (tensor R 2) * option (tensor R 1)))) :=
  let* y := liftM n (j := 2) (k := 2) (λ m, matmul m (transpose (data w))) x in
  let* y := (match b with
             | Some b => liftM n (j := 2) (k := 2)
                           (traverse (λ r, broadcast_op 1 radd r (data b))) y
             | None => Ok y
             end) in
  if return_backward_fn then Ok (y, Some (linear_backward x w b)) else Ok (y, None).
End Linear.

Section Convolve1d.
Context {R : Type} `{Num R}.

Definition __pad1d_from_str (padding : Padding) (kernel_size : Z) : Z * Z :=
  match padding with
  | causal => (kernel_size - 1, 0)%Z
  | full => (kernel_size - 1, kernel_size - 1)%Z
  | same => (kernel_size / 2, kernel_size / 2)%Z
  | valid => (0, 0)%Z
  end.

Definition __pad1d (n : nat) (x : tensor R (n + 1)) (padding : Z * Z)
    : result (tensor R (n + 1)) :=
  let widths := replicate n (0, 0)%Z ++ [padding] in
  pad (n + 1) widths x.

Definition __dilate1d (n : nat) (x : tensor R (n + 1)) (dilation : Z)
    : result (tensor R (n + 1)) :=
  if (dilation =? 1)%Z then Ok x else
  let dilated_shape := [(dilation * dim_from_end (n + 1) x 0 - 1)%Z] in
  let* x_dilated := zeros (n + 1) (shape_but_last (n + 1) x 1 ++ dilated_shape) in
  lift2M n (i := 1) (j := 1) (k := 1)
    (λ yr xr, setitem_slice yr (Slice None None (Some dilation)) xr) x_dilated x.

Definition __convolve1d (n : nat) (x f : tensor R (n + 1)) (stride : Z)
    : result (tensor R (n + 1)) :=
  (* convolution *)
  let len := Z.to_nat (dim_from_end (n + 1) x 0) in
  let* conv := bcast2M n (i := 1) (j := 1) (k := 1)
                 (λ xr fr, Ok (circular_convolve len xr fr : tensor R 1)) x f in
  (* slicing *)
  let out := (dim_from_end (n + 1) x 0 - dim_from_end (n + 1) f 0 + 1)%Z in
  let out_slice := Slice (Some (- out)%Z) None None in
  let stride_slice := Slice None None (Some stride) in
  let* c := liftM n (j := 1) (k := 1) (λ r, getitem_slice r out_slice) conv in
  liftM n (j := 1) (k := 1) (λ r, getitem_slice r stride_slice) c.

(** Convolves two tensors over their last axis. *)
Definition convolve1d (n m : nat) (x : tensor R (n + 1)) (f : tensor R (m + 1))
    (padding : Padding) (stride : Z) (dilation : Z) : result (tensor R (n + 1)) :=
  match decide (m = n) with
  | right _ => Err ShapeError
  | left e =>
      let f : tensor R (n + 1) := eq_rect m (λ r, tensor R (r + 1)) f n e in
      let* f := (if (1 <? dilation)%Z then __dilate1d n f dilation else Ok f) in
      let* x := (match padding with
                 | valid => Ok x
                 | _ => let p := __pad1d_from_str padding (dim_from_end (n + 1) f 0) in
                        __pad1d n x p
                 end) in
      __convolve1d n x f stride
  end.
End Convolve1d.

Section Pooling.
Context {R : Type} `{Num R}.

(** Upsamples a tensor by repeating its elements over given axes. *)
Definition upsample2d (n : nat) (x : tensor R n) (scaling_factors : Z * Z)
    (shape_ : list nat) (axes : Z * Z) : result (tensor R n) :=
  let '(sf1, sf2) := scaling_factors in
  let '(ax1, ax2) := axes in
  let* x_str := repeat n x sf1 ax1 in
  let* x_str := repeat n x_str sf2 ax2 in
  if decide (shape n x_str = shape_) then Ok x_str else pad_to_shape n x_str shape_.

Definition crop_and_split (x : tensor R 4) (kernel_size : Z * Z) : result (tensor R 6) :=
  match shape 4 x with
  | [B; C; Yi; Xi] =>
      let '(Ky, Kx) := kernel_size in
      let* qy := floordiv (Z.of_nat Yi) Ky in
      let* qx := floordiv (Z.of_nat Xi) Kx in
      let* x_crop := liftM 2 (j := 2) (k := 2)
                       (λ m, getitem_slice2 m (Slice None (Some (qy * Ky)%Z) None)
                                              (Slice None (Some (qx * Kx)%Z) None)) x in
      to_shape 4 6 x_crop [Z.of_nat B; Z.of_nat C; qy; Ky; qx; Kx]
  | _ => Err ValueError
  end.

Definition maxpooling2d_backward (x : tensor R 4) (kernel_size : Z * Z) (y_ups : tensor R 4)
    (dy : tensor R 4) : result (tensor R 4) :=
  let* dy_ups := upsample2d 4 dy kernel_size (shape 4 x) (-2, -1)%Z in
  let* mask := broadcast_op 4 (λ a b, of_bool (reqb a b)) x y_ups in
  broadcast_op 4 rmul dy_ups mask.

(** Performs a max pooling over the last two axes. *)
Definition maxpooling2d (x : tensor R 4) (kernel_size : Z * Z) (return_backward_fn : bool)
    : result (tensor R 4 * option (tensor R 4 → result (tensor R 4))) :=
  let* blocks := crop_and_split x kernel_size in
  let* y := cp_max_window 2 blocks in
  if return_backward_fn then
    let* y_ups := upsample2d 4 y kernel_size (shape 4 x) (-2, -1)%Z in
    Ok (y, Some (maxpooling2d_backward x kernel_size y_ups))
  else Ok (y, None).

Definition avgpooling2d_backward (x : tensor R 4) (kernel_size : Z * Z) (dy : tensor R 4)
    : result (tensor R 4) :=
  let* ups := upsample2d 4 dy kernel_size (shape 4 x) (-2, -1)%Z in
  Ok (tmap 4 (λ v, rdiv v (rofZ (kernel_size.1 * kernel_size.2)%Z)) ups).

(** Performs an average pooling over the last two axes. *)
Definition avgpooling2d (x : tensor R 4) (kernel_size : Z * Z) (return_backward_fn : bool)
    : result (tensor R 4 * option (tensor R 4 → result (tensor R 4))) :=
  let* blocks := crop_and_split x kernel_size in
  let* y := mean_window 2 blocks in
  if return_backward_fn then Ok (y, Some (avgpooling2d_backward x kernel_size))
  else Ok (y, None).
End Pooling.

Section Embedding.
Context {R : Type} `{Num R} (n : nat).

(** [t.sum(axis=0)] of a tensor written with [n] axes before its last two. *)
Definition sum_axis0 : tensor R (n + 2) → result (tensor R (pred (n + 2))) :=
  match n with
  | O => reduce0 radd (Some rzero) 1
  | S m => reduce0 radd (Some rzero) (m + 2)
  end.

Definition lookup_embedding_backward (x : tensor R (n + 2)) (embedding_table : Tensor R 2)
    (dy : tensor R (n + 2)) : result (option (tensor R (pred (n + 2)))) :=
  (* embedding table grads *)
  if requires_grad embedding_table then
    let* g := lift2M n (i := 2) (j := 2) (k := 2) matmul (T_ n x) dy in
    let* g := sum_axis0 g in
    Ok (Some g)
  else Ok None.

(** Performs lookup embedding on a tensor. *)
Definition lookup_embedding (x : IndexTensor (n + 1)) (embedding_table : Tensor R 2)
    (return_backward_fn : bool)
    : result (tensor R (n + 2)
              * option (tensor R (n + 2) → result (option (tensor R (pred (n + 2)))))) :=
  if negb (bool_decide (index_dtype x ∈ [int32; int64])) then Err ValueError else
  let* x := one_hot_encode n (indices x) (length (data embedding_table)) in
  let* y := liftM n (j := 2) (k := 2) (λ m, matmul m (data embedding_table)) x in
  if return_backward_fn then Ok (y, Some (lookup_embedding_backward x embedding_table))
  else Ok (y, None).
End Embedding.

End Functional.

(** ** [compyute/nn/functional/embedding_funcs.py] *)

Module EmbeddingFuncs.

(** Modelled from the spec: the [push]/[pop] interface of [FunctionCache]
    and [PseudoCache] of [nn/functional/functions.py], not among the
    sources; values are "read at most once during the corresponding backward
    step, in the exact reverse order of writes (stack discipline)", and the
    no-op variant "silently discards writes". *)
Record FunctionCache (I : Type) : Type := mkCache {
  pseudo : bool;
  items : list I
}.
Arguments mkCache {I} pseudo items.
Arguments pseudo {I} _.
Arguments items {I} _.

Definition new_cache (I : Type) : FunctionCache I := mkCache false [].
Definition PseudoCache (I : Type) : FunctionCache I := mkCache true [].

Definition push {I} (c : FunctionCache I) (item : I) : FunctionCache I :=
  if pseudo c then c else mkCache false (item :: items c).

Definition pop {I} (c : FunctionCache I) : result (FunctionCache I * I) :=
  match items c with
  | item :: rest => Ok (mkCache (pseudo c) rest, item)
  | [] => Err IndexError
  end.

(** Performs lookup embedding on a tensor of indices. *)
Module EmbeddingFn.
Section EmbeddingFn.
Context {R : Type} `{Num R} (n : nat).
Local Abbreviation Item := (IndexTensor (n + 1) * list nat)%type.

Definition forward (cache : FunctionCache Item) (x : IndexTensor (n + 1))
    (embedding_table : tensor R 2) : result (FunctionCache Item * tensor R (n + 2)) :=
  if negb (is_integer (index_dtype x)) then Err ValueError else
  let* y := liftM n (j := 1) (k := 2)
              (traverse (getitem_int embedding_table) : tensor Z 1 → _) (indices x) in
  let cache := push cache (x, shape 2 embedding_table) in
  Ok (cache, y).

Definition backward (cache : FunctionCache Item) (dy : tensor R (n + 2))
    : result (FunctionCache Item * tensor R 2) :=
  let* popped := pop cache in
  let '(cache, (x, emb_table_shape)) := popped in
  let* x := one_hot_encode n (indices x) (default 0 (head emb_table_shape)) in
  let* g := lift2M n (i := 2) (j := 2) (k := 2) matmul (T_ n x) dy in
  let* g := sum_leading n (k := 2) g in
  Ok (cache, g).
End EmbeddingFn.
End EmbeddingFn.

Definition embedding {R} `{Num R} (n : nat) (x : IndexTensor (n + 1))
    (embedding_table : tensor R 2) : result (tensor R (n + 2)) :=
  let* cy := EmbeddingFn.forward n (PseudoCache _) x embedding_table in Ok cy.2.

End EmbeddingFuncs.

(** ** [walnut/nn/module.py] *)

(** The module base class. A module object holds its output tensor [y]
    (data and gradient), its backward function, its sub-modules, its own
    parameters and the two mode flags. Arrays, parameters and backward
    functions are opaque here ([A], [P] and [F]); [empty] is the array of
    [tu.empty()]. The objects a module refers to form a finite tree: a
    setter returns the updated tree. *)
Module NN.
Section NN.
Context {A P F : Type} (empty : A).

Local Unset Elimination Schemes.
Inductive Module : Type := mkModule {
  class_name : string;
  y_data : A;
  y_grad : option A;
  backward : option F;
  _sub_modules : list Module;
  _parameters : list P;
  _training : bool;
  _keep_output : bool
}.
Local Set Elimination Schemes.

Definition sub_modules (self : Module) : list Module := _sub_modules self.

Definition set_sub_modules (self : Module) (value : list Module) : Module :=
  mkModule (class_name self) (y_data self) (y_grad self) (backward self)
    value (_parameters self) (_training self) (_keep_output self).

(** Trainable module parameters. *)
Fixpoint parameters (self : Module) : list P :=
  _parameters self ++ foldr (λ module p, parameters module ++ p) [] (_sub_modules self).

Definition set_parameters (self : Module) (value : list P) : Module :=
  mkModule (class_name self) (y_data self) (y_grad self) (backward self)
    (_sub_modules self) value (_training self) (_keep_output self).

Definition training (self : Module) : bool := _training self.

(** Puts the module and its sub-modules in training mode. *)
Fixpoint set_training (value : bool) (self : Module) : Module :=
  mkModule (class_name self) (y_data self) (y_grad self) (backward self)
    (set_training value <$> _sub_modules self) (_parameters self) value (_keep_output self).

Definition keep_output (self : Module) : bool := _keep_output self.

Fixpoint set_keep_output (value : bool) (self : Module) : Module :=
  mkModule (class_name self) (y_data self) (y_grad self) (backward self)
    (set_keep_output value <$> _sub_modules self) (_parameters self) (_training self) value.

Fixpoint __repr__ (self : Module) : string :=
  foldl (λ s module, s +:+ String.String (Ascii.ascii_of_nat 10) (__repr__ module))
    (class_name self +:+ "()") (_sub_modules self).

(** Saves the module output to the [y] tensor. *)
Definition set_y (self : Module) (y : A) : Module :=
  if keep_output self
  then mkModule (class_name self) y (y_grad self) (backward self)
         (_sub_modules self) (_parameters self) (_training self) (_keep_output self)
  else self.

(** Saves the module output gradients to the [y] tensor. *)
Definition set_y_grad (self : Module) (y_grad_ : A) : Module :=
  if keep_output self
  then mkModule (class_name self) (y_data self) (Some y_grad_) (backward self)
         (_sub_modules self) (_parameters self) (_training self) (_keep_output self)
  else self.

(** Cleans up the module by resetting temporary values. *)
Fixpoint clean (self : Module) : Module :=
  mkModule (class_name self) empty None None
    (clean <$> _sub_modules self) (_parameters self) (_training self) (_keep_output self).
End NN.
Arguments Module : clear implicits.
End NN.

(** ** [walnut/tensor_utils.py] *)

Module TensorUtils.

(** A tensor whose number of axes is known at run time. *)
Record Tensor (R : Type) : Type := mkTensor {
  ndim : nat;
  data : tensor R ndim
}.
Arguments mkTensor {R} ndim data.
Arguments ndim {R} _.
Arguments data {R} _.

(** [np.expand_dims(x, axis=(-1,))], the call [match_dims] makes: a new
    last axis of extent 1. *)
Fixpoint expand_last {R} (n : nat) : tensor R n → tensor R (S n) :=
  match n with
  | O => λ a, [a]
  | S k => fmap (expand_last k)
  end.

Definition expand_dims_last {R} (x : Tensor R) : Tensor R :=
  mkTensor (S (ndim x)) (expand_last (ndim x) (data x)).

(** Extends the dimensions of a tensor to fit a given number of dims. The
    [while] loop runs on [fuel]; [match_dims] gives it one step more than
    the number of missing dims. *)
Fixpoint match_dims_loop {R} (fuel : nat) (x : Tensor R) (dims : nat) : option (Tensor R) :=
  match fuel with
  | O => None
  | S fuel' =>
      if decide (ndim x < dims) then match_dims_loop fuel' (expand_dims_last x) dims
      else Some x
  end.

Definition match_dims {R} (x : Tensor R) (dims : nat) : option (Tensor R) :=
  match_dims_loop (S (dims - ndim x)) x dims.

(** Checks if a tensors dimensions match desired target dimensions. *)
Definition check_dims {R} (x : Tensor R) (target_dim : nat) : result unit :=
  if decide (ndim x ≠ target_dim) then Err ShapeError else Ok tt.

(** [x[index]] for an array of indices: the elements of axis 0 at the
    indices, in the order of the indices. *)
Definition getitem_indices {A} (x : list A) (index : list nat) : result (list A) :=
  traverse (λ i, getitem_int x (Z.of_nat i)) index.

(** Shuffles two tensors equally along axis 0. [permutation] is what
    [np.random.permutation] returns for a length. *)
Definition shuffle {A B} (permutation : nat → list nat) (x : list A) (y : list B)
    : result (list A * list B) :=
  if decide (length x ≠ length y) then Err ShapeError else
  let shuffle_index := permutation (length x) in
  let* x' := getitem_indices x shuffle_index in
  let* y' := getitem_indices y shuffle_index in
  Ok (x', y').

End TensorUtils.

(** ** [compyute/random.py] *)

Module Random.

(** Shuffles a tensor along axis 0 and returns the indices as well.
    [permutation] is what the engine's [random.permutation] returns for a
    length. *)
Definition shuffle {A} (permutation : nat → list nat) (x : list A)
    : result (list A * list nat) :=
  let shuffle_idx := permutation (length x) in
  let* x' := TensorUtils.getitem_indices x shuffle_idx in
  Ok (x', shuffle_idx).

End Random.

(** ** [compyute/nn/functional.py]: padding and dilation of the last two axes *)

Module Functional2D.
Section Functional2D.
Context {R : Type} `{Num R}.

Definition __pad2d (n : nat) (x : tensor R (n + 2)) (padding : (Z * Z) * (Z * Z))
    : result (tensor R (n + 2)) :=
  let widths := replicate n (0, 0)%Z ++ [padding.1; padding.2] in
  pad (n + 2) widths x.

Definition __dilate2d (n : nat) (x : tensor R (n + 2)) (dilation : Z * Z)
    : result (tensor R (n + 2)) :=
  let dilated_shape := [(dilation.1 * dim_from_end (n + 2) x 1 - 1)%Z;
                        (dilation.2 * dim_from_end (n + 2) x 0 - 1)%Z] in
  let* x_dilated := zeros (n + 2) (shape_but_last (n + 2) x 2 ++ dilated_shape) in
  lift2M n (i := 2) (j := 2) (k := 2)
    (λ ym xm, setitem_slice2 ym (Slice None None (Some dilation.1))
                             (Slice None None (Some dilation.2)) xm) x_dilated x.
End Functional2D.
End Functional2D.

(** ** Rows of a tensor

    A property of every row along the last axis. *)
Fixpoint all_rows {A} (n : nat) (P : list A → Prop) : tensor A (n + 1) → Prop :=
  match n with
  | O => λ t, P t
  | S m => λ t, Forall (all_rows m P) t
  end.

(** The indices of a row lie in [0, V). *)
Definition in_table (V : nat) (r : list Z) : Prop :=
  Forall (λ i, 0 ≤ i < Z.of_nat V)%Z r.

(** ** Bounds of a slice

    For a slice with a positive step: where it starts, where it stops and
    how many positions it selects, as [slice_indices] computes them. *)
Definition slice_lo (s : slice) (len : nat) : Z :=
  match start s with
  | Some i => adjust_index (Z.of_nat len) (default 1%Z (step s)) i
  | None => 0%Z
  end.

Definition slice_hi (s : slice) (len : nat) : Z :=
  match stop s with
  | Some i => adjust_index (Z.of_nat len) (default 1%Z (step s)) i
  | None => Z.of_nat len
  end.

Definition slice_count (s : slice) (len : nat) : Z :=
  if (slice_lo s len <? slice_hi s len)%Z
  then ((slice_hi s len - slice_lo s len - 1) / default 1%Z (step s) + 1)%Z
  else 0%Z.

(** ** Broadcasting of shapes

    Two extents are compatible when they are equal or one of them is 1;
    the broadcast extent is the one that is not 1. *)
Definition compatible (d1 d2 : nat) : Prop := d1 = d2 ∨ d1 = 1 ∨ d2 = 1.

Definition broadcast_shapes (s1 s2 : list nat) : list nat :=
  zip_with (λ d1 d2, if decide (d1 = 1) then d2 else d1) s1 s2.

(** ** Upsampling of a matrix *)

(** The matrix in which every element of [m] is repeated [K] times along
    both axes. *)
Definition upsample_matrix {R} (K : nat) (m : tensor R 2) : tensor R 2 :=
  ((λ r : list R, r ≫= replicate K) <$> m) ≫= replicate K.

(** ** Padding of a matrix *)

(** The matrix [m] with [c] zeros before and [d] zeros after every row, and
    with [a] rows of zeros above and [b] rows of zeros below. *)
Definition pad_matrix {R} `{Num R} (a b c d : nat) (m : tensor R 2) : tensor R 2 :=
  let rows := (λ r : list R, replicate c rzero ++ r ++ replicate d rzero) <$> m in
  let z := replicate (match rows with r :: _ => length r | [] => 0 end) rzero in
  replicate a z ++ rows ++ replicate b z.

(** The matrix in which every element of [m] stands [Kh] times along the
    rows and [Kw] times along the columns. *)
Definition repeat_matrix {R} (Kh Kw : nat) (m : tensor R 2) : tensor R 2 :=
  ((λ r : list R, r ≫= replicate Kw) <$> m) ≫= replicate Kh.

(** ** Sums over the positions of an index *)

(** For an index row [r] and the rows [m] of a gradient, one per position:
    the sum of the elements [m[t][e]] over the positions [t] whose index
    [r[t]] is [v], added up from the first position on. *)
Definition scatter_sum {R} `{Num R} (v e : nat) (r : list Z) (m : list (list R)) : R :=
  foldl radd rzero
    ((λ ir : Z * list R,
        if decide (ir.1 = Z.of_nat v) then default rzero (ir.2 !! e) else rzero)
       <$> zip r m).

(** The sum of a list from its first element on, as a reduction over an
    axis computes it. *)
Definition sum_list {R} `{Num R} (l : list R) : R :=
  match l with
  | a :: l' => foldl radd a l'
  | [] => rzero
  end.

(** The element in row [v] and column [e] of a matrix (zero outside). *)
Definition mget {R} `{Num R} (v e : nat) (g : list (list R)) : R :=
  default rzero (default [] (g !! v) !! e).

(** ** Elements and sums over index tuples *)

(** The element of a tensor at an index tuple, one index for every axis
    ([d] outside the tensor). *)
Fixpoint tget {A} (d : A) (n : nat) (p : list nat) : tensor A n → A :=
  match n with
  | O => λ t, t
  | S k => λ t : list (tensor A k),
             match p with
             | b :: p' => from_option (tget d k p') d (t !! b)
             | [] => d
             end
  end.

(** [f 0 + ... + f (N - 1)], added to zero one after the other, as a matrix
    product adds the products along a row and a column. *)
Definition sum_range {R} `{Num R} (N : nat) (f : nat → R) : R :=
  foldl radd rzero (f <$> seq 0 N).

(** The sum of [f] over all index tuples within the extents [dims], taken
    one axis after the other as a reduction over several axes proceeds: the
    sums over the first index are added up over the second index, and so
    on. *)
Fixpoint sum_tuples {R} `{Num R} (dims : list nat) (f : list nat → R) : R :=
  match dims with
  | [] => f []
  | d :: ds => sum_tuples ds (λ p, sum_list ((λ b, f (b :: p)) <$> seq 0 d))
  end.

(** ** The modules of a tree *)

(** A module and all the modules below it, the module first. *)
Fixpoint modules {A P F} (m : NN.Module A P F) : list (NN.Module A P F) :=
  m :: foldr (λ s l, modules s ++ l) [] (NN._sub_modules m).

(** ** Pooling windows *)

(** The reduction of a non-empty list from its first element on. *)
Definition fold1 {R} (op : R → R → R) (d : R) (l : list R) : R :=
  match l with
  | a :: l' => foldl op a l'
  | [] => d
  end.

(** The window in row [i] and column [j] of the windows of [Kh] by [Kw]
    elements of a matrix: its rows. *)
Definition window {R} (Kh Kw : nat) (m : list (list R)) (i j : nat) : list (list R) :=
  (λ r, take Kw (drop (j * Kw) r)) <$> take Kh (drop (i * Kh) m).

(** The matrix of the reductions of the [qy] by [qx] windows: every
    window is reduced row by row, and the results of its rows are reduced
    from the first row on. *)
Definition pool_matrix {R} (op : R → R → R) (d : R) (Kh Kw qy qx : nat)
    (m : tensor R 2) : tensor R 2 :=
  (λ i, (λ j, fold1 op d (fold1 op d <$> window Kh Kw m i j)) <$> seq 0 qx) <$> seq 0 qy.

(** The rows of a matrix in [qy] groups of [Kh] rows, every row in [qx]
    groups of [Kw] elements. *)
Definition split_matrix {R} (Kh Kw qy qx : nat) (m : tensor R 2) : tensor R 4 :=
  (λ rows : list (list R), (λ r, reshape (replicate qx Kw) r) <$> rows)
    <$> reshape (replicate qy Kh) m.

(** ** Softmax of a row *)

(** The exponentials of the differences to the maximum of a row, divided by
    their sum; the maximum and the sum are taken from the first element
    on. *)
Definition softmax_row {R} `{Num R} (r : list R) : list R :=
  let m := fold1 rmax rzero r in
  let e := (λ v, rexp (rsub v m)) <$> r in
  let s := fold1 radd rzero e in
  (λ v, rdiv v s) <$> e.

(** * Properties *)

Import Convolutions.

(** ** Results and traversals *)

Lemma bind_Ok {A B} (m : result A) (f : A → result B) (b : B) :
  bind m f = Ok b ↔ ∃ a, m = Ok a ∧ f a = Ok b.
Proof.
  destruct m as [a|e]; simpl; split.
  - intros Hf. by exists a.
  - by intros (a' & [= ->] & Hf).
  - done.
  - by intros (a' & ? & _).
Qed.

Lemma traverse_Ok_Forall2 {A B} (f : A → result B) (l : list A) (k : list B) :
  traverse f l = Ok k ↔ Forall2 (λ a b, f a = Ok b) l k.
Proof.
  revert k. induction l as [|a l IH]; intros k; simpl.
  - split; [intros [= <-]; constructor | by inversion 1].
  - split.
    + intros (b & Hb & (bs & Hbs & [= <-])%bind_Ok)%bind_Ok.
      constructor; [done | by apply IH].
    + inversion 1 as [|? b ? bs Hb Hbs]; subst.
      rewrite Hb. simpl. apply IH in Hbs. by rewrite Hbs.
Qed.

Lemma traverse_Ok_fmap {A B} (g : A → B) (l : list A) :
  traverse (λ a, Ok (g a)) l = Ok (g <$> l).
Proof. induction l as [|a l IH]; simpl; [done | by rewrite IH]. Qed.

Lemma traverse_ext {A B} (f g : A → result B) (l : list A) :
  Forall (λ a, f a = g a) l → traverse f l = traverse g l.
Proof.
  induction 1 as [|a l Ha _ IH]; simpl; [done | by rewrite Ha, IH].
Qed.

Lemma traverse_length {A B} (f : A → result B) (l : list A) (k : list B) :
  traverse f l = Ok k → length k = length l.
Proof. intros H%traverse_Ok_Forall2. symmetry. by eapply Forall2_length. Qed.

Lemma bind_ret {A B} (a : A) (f : A → result B) : bind (Ok a) f = f a.
Proof. reflexivity. Qed.

(** ** Elementwise maps *)

Lemma tmap_id_ext {A} (n : nat) (f : A → A) (t : tensor A n) :
  (∀ a, f a = a) → tmap n f t = t.
Proof.
  intros Hf. induction n as [|n IH]; simpl; [apply Hf |].
  induction t as [|a t IHt]; [done |].
  rewrite fmap_cons. by rewrite IH, IHt.
Qed.

(** ** The cache *)

Lemma getattr_setattr {T} (c : FunctionCache T) (key : string) (v : cval T) :
  pseudo c = false → getattr (setattr c key v) key = Some v.
Proof.
  intros Hc. unfold getattr, setattr. rewrite Hc. simpl. apply lookup_insert_eq.
Qed.

Lemma pseudo_setattr {T} (c : FunctionCache T) (key : string) (v : cval T) :
  pseudo (setattr c key v) = pseudo c.
Proof. unfold setattr. by destruct (pseudo c) eqn:E. Qed.

Lemma getattr_setattr_ne {T} (c : FunctionCache T) (k1 k2 : string) (v : cval T) :
  k1 ≠ k2 → getattr (setattr c k1 v) k2 = getattr c k2.
Proof.
  intros Hk. unfold getattr, setattr. destruct (pseudo c); [done |].
  simpl. by apply lookup_insert_ne.
Qed.

(** ** Shapes *)

Lemma has_shape_1 {R} (q : nat) (r : tensor R 1) : has_shape 1 [q] r ↔ length r = q.
Proof.
  simpl. split; [by intros [? _] |]. intros Hq. split; [done |].
  by apply Forall_forall.
Qed.

Lemma has_shape_2 {R} (p q : nat) (m : tensor R 2) :
  has_shape 2 [p; q] m ↔ length m = p ∧ Forall (λ r, length r = q) m.
Proof.
  change (has_shape 2 [p; q] m) with (length m = p ∧ Forall (has_shape 1 [q]) m).
  split; intros [Hp Hm]; (split; [done |]);
    eapply Forall_impl; try exact Hm; intros r; by rewrite has_shape_1.
Qed.

Lemma has_shape_app_inv {R} (n j : nat) (d : nat) (s sj : list nat) (x : tensor R (S n + j)) :
  has_shape (S n + j) ((d :: s) ++ sj) x ↔
  length x = d ∧ Forall (has_shape (n + j) (s ++ sj)) x.
Proof. reflexivity. Qed.

Section lifting.
Context {A B C : Type}.

(** An operation on the trailing axes that maps shape [sj] to shape [sk]
    maps a tensor of shape [s ++ sj] to one of shape [s ++ sk]. *)
Lemma liftM_has_shape (n j k : nat) (f : tensor A j → result (tensor B k))
    (s sj sk : list nat) (x : tensor A (n + j)) :
  length s = n →
  (∀ m, has_shape j sj m → ∃ m', f m = Ok m' ∧ has_shape k sk m') →
  has_shape (n + j) (s ++ sj) x →
  ∃ y, liftM n f x = Ok y ∧ has_shape (n + k) (s ++ sk) y.
Proof.
  intros Hlen Hf. revert s Hlen x.
  induction n as [|n IH]; intros s Hlen x Hx.
  - destruct s; [|done]. simpl in *. by apply Hf.
  - destruct s as [|d s]; [done |]. simpl in Hlen.
    apply has_shape_app_inv in Hx as [Hd Hx].
    assert (∃ y, traverse (liftM n f) x = Ok y
                 ∧ Forall (has_shape (n + k) (s ++ sk)) y) as (y & Hy & Hys).
    { clear Hd. induction Hx as [|a x Ha _ IHx].
      - by exists [].
      - destruct (IH s ltac:(lia) a Ha) as (a' & Ha' & Hsa).
        destruct IHx as (y & Hy & Hys).
        exists (a' :: y). split; [simpl; by rewrite Ha', Hy | by constructor]. }
    exists y. split; [done |].
    apply has_shape_app_inv. split; [|done].
    apply traverse_length in Hy. exact (eq_trans Hy Hd).
Qed.

Lemma lift2M_has_shape (n i j k : nat) (f : tensor A i → tensor B j → result (tensor C k))
    (s si sj sk : list nat) (a : tensor A (n + i)) (b : tensor B (n + j)) :
  length s = n →
  (∀ u v, has_shape i si u → has_shape j sj v → ∃ w, f u v = Ok w ∧ has_shape k sk w) →
  has_shape (n + i) (s ++ si) a →
  has_shape (n + j) (s ++ sj) b →
  ∃ y, lift2M n f a b = Ok y ∧ has_shape (n + k) (s ++ sk) y.
Proof.
  intros Hlen Hf. revert s Hlen a b.
  induction n as [|n IH]; intros s Hlen a b Ha Hb.
  - destruct s; [|done]. simpl in *. by apply Hf.
  - destruct s as [|d s]; [done |]. simpl in Hlen.
    apply has_shape_app_inv in Ha as [Hda Ha].
    apply has_shape_app_inv in Hb as [Hdb Hb].
    assert (length a = length b) as Hab by exact (eq_trans Hda (eq_sym Hdb)).
    simpl. rewrite (decide_True (P := length a = length b)) by exact Hab. clear Hdb.
    assert (∃ y, traverse (λ ab, lift2M n f ab.1 ab.2) (zip a b) = Ok y
                 ∧ length y = length a
                 ∧ Forall (has_shape (n + k) (s ++ sk)) y) as (y & Hy & Hly & Hys).
    { clear Hda. revert b Hb Hab. induction Ha as [|a0 a Ha0 _ IHa]; intros b Hb Hab.
      - by exists [].
      - destruct b as [|b0 b]; [done |]. apply Forall_cons in Hb as [Hb0 Hb].
        destruct (IH s ltac:(lia) a0 b0 Ha0 Hb0) as (w & Hw & Hsw).
        destruct (IHa b Hb ltac:(simpl in Hab; lia)) as (y & Hy & Hly & Hys).
        exists (w :: y). repeat split.
        + simpl. by rewrite Hw, Hy.
        + simpl. lia.
        + by constructor. }
    exists y. split; [done |].
    apply has_shape_app_inv. split; [exact (eq_trans Hly Hda) | done].
Qed.
End lifting.

Lemma Forall_zip_with_same {A} (P : A → Prop) (f : A → A → A) (a b : list A) :
  (∀ u v, P u → P v → P (f u v)) → Forall P a → Forall P b → Forall P (zip_with f a b).
Proof.
  intros Hf Ha. revert b. induction Ha as [|u a Hu _ IH]; intros b Hb; [constructor |].
  destruct Hb as [|v b Hv Hb]; [constructor |].
  simpl. constructor; [by apply Hf | by apply IH].
Qed.

Lemma tzip_has_shape {R} (n : nat) (op : R → R → R) (s : list nat) (a b : tensor R n) :
  has_shape n s a → has_shape n s b → has_shape n s (tzip n op a b).
Proof.
  revert s a b. induction n as [|n IH]; intros s a b Ha Hb; [done |].
  destruct s as [|d s]; [done |]. destruct Ha as [Hda Ha], Hb as [Hdb Hb].
  split.
  - exact (eq_trans (length_zip_with (tzip n op) a b)
             (eq_trans (f_equal2 Nat.min Hda Hdb) (Nat.min_id d))).
  - simpl. apply Forall_zip_with_same; [|done..]. intros u v. apply IH.
Qed.

Lemma reduce0_has_shape {R} (op : R → R → R) (init : option R) (n : nat) (d : nat)
    (s : list nat) (t : tensor R (S n)) :
  0 < d → has_shape (S n) (d :: s) t →
  ∃ r, reduce0 op init n t = Ok r ∧ has_shape n s r.
Proof.
  intros Hd [Hlen Ht]. destruct t as [|a l]; [simpl in Hlen; lia |].
  apply Forall_cons in Ht as [Ha Hl]. exists (foldl (tzip n op) a l). split; [done |].
  clear Hlen. revert a Ha. induction Hl as [|b l Hb _ IH]; intros a Ha; [done |].
  simpl. apply IH. by apply tzip_has_shape.
Qed.

Lemma sum_leading_has_shape {R} `{Num R} (n k : nat) (s sk : list nat) (t : tensor R (n + k)) :
  length s = n → Forall (λ d, 0 < d) s →
  has_shape (n + k) (s ++ sk) t →
  ∃ r, sum_leading n t = Ok r ∧ has_shape k sk r.
Proof.
  revert s t. induction n as [|n IH]; intros s t Hlen Hpos Ht.
  - destruct s; [|done]. by exists t.
  - destruct s as [|d s]; [done |]. apply Forall_cons in Hpos as [Hd Hpos].
    destruct (reduce0_has_shape radd (Some rzero) (n + k) d (s ++ sk) t Hd Ht)
      as (r & Hr & Hsr).
    destruct (IH s r ltac:(simpl in Hlen; lia) Hpos Hsr) as (r' & Hr' & Hsr').
    exists r'. split; [|done]. simpl. 
    change (bind (reduce0 radd (Some rzero) (n + k) t) (λ r, sum_leading n r) = Ok r').
    by rewrite Hr.
Qed.

Section rows.
Context {A B : Type}.

Lemma liftM_all_rows (n k : nat) (f : tensor A 1 → result (tensor B k))
    (g : tensor A 1 → tensor B k) (P : list A → Prop) (x : tensor A (n + 1)) :
  (∀ r, P r → f r = Ok (g r)) → all_rows n P x →
  liftM n (j := 1) f x = Ok (lift n (j := 1) g x).
Proof.
  intros Hfg. induction n as [|n IH]; intros Hx; [by apply Hfg |].
  cbn [liftM lift all_rows] in *.
  induction Hx as [|a x Ha _ IHx]; [done |].
  rewrite fmap_cons. cbn [traverse]. by rewrite (IH a Ha), bind_ret, IHx.
Qed.

Lemma lift_has_shape (n j k : nat) (g : tensor A j → tensor B k) (s sj sk : list nat)
    (x : tensor A (n + j)) :
  length s = n →
  (∀ m, has_shape j sj m → has_shape k sk (g m)) →
  has_shape (n + j) (s ++ sj) x →
  has_shape (n + k) (s ++ sk) (lift n g x).
Proof.
  intros Hlen Hg. revert s Hlen x. induction n as [|n IH]; intros s Hlen x Hx.
  - destruct s; [|done]. by apply Hg.
  - destruct s as [|d s]; [done |].
    apply has_shape_app_inv in Hx as [Hd Hx]. apply has_shape_app_inv.
    cbn [lift]. split.
    + exact (eq_trans (length_fmap (lift n g) x) Hd).
    + apply Forall_fmap. eapply Forall_impl; [exact Hx |].
      intros a Ha. apply IH; [simpl in Hlen; lia | done].
Qed.
End rows.

(** ** Matrices *)

Lemma zip_with_cons_length {A} (p : nat) (r : list A) (k : list (list A)) :
  Forall (λ c, length c = p) k → Forall (λ c, length c = S p) (zip_with cons r k).
Proof.
  intros Hk. revert r. induction Hk as [|c k Hc _ IH]; intros [|a r]; simpl; try constructor.
  - simpl. by rewrite Hc.
  - apply IH.
Qed.

Lemma transpose_shape {A} (q : nat) (m : list (list A)) :
  m ≠ [] → Forall (λ r, length r = q) m →
  length (transpose m) = q ∧ Forall (λ c, length c = length m) (transpose m).
Proof.
  induction m as [|r m IH]; [done |]. intros _ Hm.
  apply Forall_cons in Hm as [Hr Hm].
  destruct m as [|r' m].
  - simpl. rewrite length_fmap. split; [done |].
    apply Forall_fmap, Forall_forall. by intros.
  - destruct (IH ltac:(done) Hm) as [Hlen Hcols].
    change (transpose (r :: r' :: m)) with (zip_with cons r (transpose (r' :: m))).
    split.
    + rewrite length_zip_with, Hlen, Hr. apply Nat.min_id.
    + by apply zip_with_cons_length.
Qed.

Lemma transpose_has_shape {A} (p q : nat) (m : tensor A 2) :
  0 < p → has_shape 2 [p; q] m → has_shape 2 [q; p] (transpose m : tensor A 2).
Proof.
  intros Hp [Hlen Hm]%has_shape_2. apply has_shape_2.
  destruct (transpose_shape q m) as [H1 H2]; [by destruct m; simpl in *; try lia | done |].
  split; [done |]. by rewrite <- Hlen.
Qed.

Lemma matmul_has_shape {R} `{Num R} (p q r : nat) (a b : tensor R 2) :
  0 < q → has_shape 2 [p; q] a → has_shape 2 [q; r] b →
  ∃ c, matmul a b = Ok c ∧ has_shape 2 [p; r] (c : tensor R 2).
Proof.
  intros Hq [Hpa Ha]%has_shape_2 Hb.
  pose proof (transpose_has_shape q r b Hq Hb) as [Hrt _]%has_shape_2.
  apply has_shape_2 in Hb as [Hqb Hb].
  unfold matmul. rewrite decide_True by (by rewrite Hqb).
  eexists. split; [done |]. apply has_shape_2. split; [by rewrite length_fmap |].
  apply Forall_fmap, Forall_forall. intros row _. simpl. by rewrite length_fmap.
Qed.

Lemma broadcast_op_rows {R} (op : R → R → R) (u v : tensor R 1) :
  length u = length v → broadcast_op 1 op u v = Ok (zip_with op u v : tensor R 1).
Proof.
  intros Huv. simpl. rewrite decide_True by done. clear Huv.
  revert v. induction u as [|a u IH]; intros [|b v]; simpl; try done.
  by rewrite IH.
Qed.

(** ** Slices with a positive step *)

Lemma adjust_index_range (len stp i : Z) :
  (0 ≤ len)%Z → (0 < stp)%Z → (0 ≤ adjust_index len stp i ≤ len)%Z.
Proof.
  intros Hlen Hstp. unfold adjust_index.
  repeat case_match; lia.
Qed.

Lemma slice_indices_pos (s : slice) (len : nat) :
  (0 < default 1 (step s))%Z →
  slice_indices s len
  = Ok ((λ k, slice_lo s len + k * default 1 (step s))%Z <$> seqZ 0 (slice_count s len)).
Proof.
  intros Hstp. unfold slice_indices, slice_count, slice_lo, slice_hi.
  rewrite (proj2 (Z.eqb_neq _ 0)) by lia.
  rewrite (proj2 (Z.ltb_ge _ 0)) by lia. done.
Qed.

Lemma slice_count_nonneg (s : slice) (len : nat) :
  (0 < default 1 (step s))%Z → (0 ≤ slice_count s len)%Z.
Proof.
  intros Hstp. unfold slice_count. case_match; [|lia].
  apply Z.ltb_lt in H.
  assert (0 ≤ (slice_hi s len - slice_lo s len - 1) / default 1 (step s))%Z; [|lia].
  apply Z.div_pos; lia.
Qed.

Lemma slice_index_in_range (s : slice) (len : nat) (k : Z) :
  (0 < default 1 (step s))%Z → (0 ≤ k < slice_count s len)%Z →
  (0 ≤ slice_lo s len + k * default 1 (step s) < Z.of_nat len)%Z.
Proof.
  intros Hstp Hk.
  assert (0 ≤ slice_lo s len ≤ Z.of_nat len)%Z as Hlo.
  { unfold slice_lo. case_match; [apply adjust_index_range|]; lia. }
  assert (0 ≤ slice_hi s len ≤ Z.of_nat len)%Z as Hhi.
  { unfold slice_hi. case_match; [apply adjust_index_range|]; lia. }
  unfold slice_count in Hk. case_match; [|lia].
  apply Z.ltb_lt in H.
  set (stp := default 1%Z (step s)) in *.
  pose proof (Z.mul_div_le (slice_hi s len - slice_lo s len - 1) stp Hstp).
  nia.
Qed.

Lemma omap_lookup_in_range {A} (l : list A) (idx : list Z) :
  Forall (λ i, 0 ≤ i < Z.of_nat (length l))%Z idx →
  length (omap (λ i : Z, l !! Z.to_nat i) idx) = length idx
  ∧ ∀ k i, idx !! k = Some i → omap (λ i : Z, l !! Z.to_nat i) idx !! k = l !! Z.to_nat i.
Proof.
  induction 1 as [|i idx Hi _ [IHlen IH]]; [done |].
  destruct (lookup_lt_is_Some_2 l (Z.to_nat i)) as [a Ha]; [lia |].
  cbn [omap list_omap]. rewrite Ha. split; [simpl; by f_equal |].
  intros [|k] j; simpl; [by intros [= <-] | apply IH].
Qed.

(** A slice with a positive step selects [slice_count] elements, the
    [k]-th of which is the element at [slice_lo + k * step]. *)
Lemma getitem_slice_pos {A} (l : list A) (s : slice) :
  (0 < default 1 (step s))%Z →
  ∃ r, getitem_slice l s = Ok r
       ∧ Z.of_nat (length r) = slice_count s (length l)
       ∧ ∀ k, k < length r →
           r !! k = l !! Z.to_nat (slice_lo s (length l) + Z.of_nat k * default 1 (step s))%Z.
Proof.
  intros Hstp. unfold getitem_slice. rewrite slice_indices_pos by done.
  rewrite bind_ret. eexists. split; [done |].
  pose proof (slice_count_nonneg s (length l) Hstp) as Hc.
  destruct (omap_lookup_in_range l
    ((λ k, slice_lo s (length l) + k * default 1 (step s))%Z
       <$> seqZ 0 (slice_count s (length l)))) as [Hlen Hget].
  { apply Forall_fmap, Forall_forall. intros k Hk%elem_of_seqZ. simpl.
    apply slice_index_in_range; [done | lia]. }
  rewrite Hlen, length_fmap, length_seqZ. split; [lia |].
  intros k Hk. apply Hget.
  rewrite list_lookup_fmap, lookup_seqZ_lt by lia. simpl. by rewrite Z.add_0_l.
Qed.

Lemma foldr_insert_length {A B} (g : B → nat) (h : B → A) (y : list A) (l : list B) :
  length (foldr (λ b acc, <[g b := h b]> acc) y l) = length y.
Proof. induction l as [|b l IH]; simpl; [done | by rewrite length_insert]. Qed.

(** Writing to a slice with a positive step succeeds when the value has as
    many elements as the slice selects, and keeps the length. *)
Lemma setitem_slice_pos {A} (y x : list A) (s : slice) :
  (0 < default 1 (step s))%Z →
  Z.of_nat (length x) = slice_count s (length y) →
  ∃ r, setitem_slice y s x = Ok r ∧ length r = length y.
Proof.
  intros Hstp Hx. unfold setitem_slice. rewrite slice_indices_pos by done.
  rewrite bind_ret.
  rewrite decide_True by (rewrite length_fmap, length_seqZ; lia).
  eexists. split; [done |]. apply (foldr_insert_length (λ iv, Z.to_nat iv.1) snd).
Qed.

Lemma slice_count_step (d : Z) (K : nat) :
  (2 ≤ d)%Z → 0 < K →
  slice_count (Slice None None (Some d)) (Z.to_nat (d * Z.of_nat K - 1)) = Z.of_nat K.
Proof.
  intros Hd HK. unfold slice_count, slice_lo, slice_hi. simpl.
  rewrite Z2Nat.id by nia.
  rewrite (proj2 (Z.ltb_lt 0 _)) by nia.
  rewrite <- (Z.div_unique (d * Z.of_nat K - 1 - 0 - 1) d (Z.of_nat K - 1) (d - 2)); lia.
Qed.

(** ** Shapes of rectangular tensors *)

Lemma shape_has_shape {R} (n : nat) (s : list nat) (t : tensor R n) :
  length s = n → Forall (λ d, 0 < d) s → has_shape n s t → shape n t = s.
Proof.
  revert s t. induction n as [|n IH]; intros s t Hlen Hpos Ht.
  - by destruct s.
  - destruct s as [|d s]; [done |]. destruct Ht as [Hd Ht].
    apply Forall_cons in Hpos as [Hdpos Hpos].
    destruct t as [|a t]; [simpl in Hd; lia |].
    apply Forall_cons in Ht as [Ha _].
    simpl. f_equal; [done |]. apply IH; [simpl in Hlen; lia | done..].
Qed.

Lemma dim_from_end_last {R} (n : nat) (s : list nat) (d : nat) (t : tensor R (n + 1)) :
  length s = n → Forall (λ d, 0 < d) s → 0 < d → has_shape (n + 1) (s ++ [d]) t →
  dim_from_end (n + 1) t 0 = Z.of_nat d ∧ shape_but_last (n + 1) t 1 = Z.of_nat <$> s.
Proof.
  intros Hlen Hpos Hd Ht. unfold dim_from_end, shape_but_last.
  rewrite (shape_has_shape (n + 1) (s ++ [d]) t).
  - rewrite reverse_snoc. split; [done |].
    replace (n + 1 - 1) with (length s) by lia. by rewrite take_app_length.
  - rewrite length_app. simpl. lia.
  - apply Forall_app. split; [done | by constructor].
  - done.
Qed.

Lemma zeros_has_shape {R} `{Num R} (n : nat) (s : list nat) :
  length s = n → ∃ z : tensor R n, zeros n (Z.of_nat <$> s) = Ok z ∧ has_shape n s z.
Proof.
  revert s. induction n as [|n IH]; intros s Hlen.
  - destruct s; [|done]. by exists rzero.
  - destruct s as [|d s]; [done |].
    destruct (IH s ltac:(simpl in Hlen; lia)) as (z & Hz & Hsz).
    exists (replicate d z). split.
    + rewrite fmap_cons. cbn [zeros]. rewrite (proj2 (Z.ltb_ge _ 0)) by lia.
      rewrite Hz, bind_ret. by rewrite Nat2Z.id.
    + split; [apply length_replicate |]. by apply Forall_replicate.
Qed.

Section broadcasting.
Context {A B C : Type}.

Lemma bcast2M_has_shape (n i j k : nat) (f : tensor A i → tensor B j → result (tensor C k))
    (s1 s2 si sj sk : list nat) (a : tensor A (n + i)) (b : tensor B (n + j)) :
  length s1 = n → length s2 = n → Forall2 compatible s1 s2 →
  (∀ u v, has_shape i si u → has_shape j sj v → ∃ w, f u v = Ok w ∧ has_shape k sk w) →
  has_shape (n + i) (s1 ++ si) a →
  has_shape (n + j) (s2 ++ sj) b →
  ∃ y, bcast2M n f a b = Ok y ∧ has_shape (n + k) (broadcast_shapes s1 s2 ++ sk) y.
Proof.
  intros Hl1 Hl2 Hc Hf. revert s1 s2 Hl1 Hl2 Hc a b.
  induction n as [|n IH]; intros s1 s2 Hl1 Hl2 Hc a b Ha Hb.
  - destruct s1, s2; try done. simpl in *. by apply Hf.
  - destruct s1 as [|d1 s1], s2 as [|d2 s2]; try done.
    apply Forall2_cons in Hc as [Hd Hc].
    apply has_shape_app_inv in Ha as [Hda Ha].
    apply has_shape_app_inv in Hb as [Hdb Hb].
    assert (length s1 = n) as Hl1' by (simpl in Hl1; lia).
    assert (length s2 = n) as Hl2' by (simpl in Hl2; lia).
    assert (∀ a0 l, has_shape (n + i) (s1 ++ si) a0 →
              Forall (has_shape (n + j) (s2 ++ sj)) l →
              ∃ y, traverse (λ b0, bcast2M n f a0 b0) l = Ok y ∧ length y = length l
                   ∧ Forall (has_shape (n + k) (broadcast_shapes s1 s2 ++ sk)) y) as Hleft.
    { intros a0 l Ha0. induction 1 as [|b0 l Hb0 _ (y & Hy & Hly & Hys)]; [by exists [] |].
      destruct (IH s1 s2 Hl1' Hl2' Hc a0 b0 Ha0 Hb0) as (w & Hw & Hsw).
      exists (w :: y). repeat split; [simpl; by rewrite Hw, Hy | simpl; lia | by constructor]. }
    assert (∀ b0 l, has_shape (n + j) (s2 ++ sj) b0 →
              Forall (has_shape (n + i) (s1 ++ si)) l →
              ∃ y, traverse (λ a0, bcast2M n f a0 b0) l = Ok y ∧ length y = length l
                   ∧ Forall (has_shape (n + k) (broadcast_shapes s1 s2 ++ sk)) y) as Hright.
    { intros b0 l Hb0. induction 1 as [|a0 l Ha0 _ (y & Hy & Hly & Hys)]; [by exists [] |].
      destruct (IH s1 s2 Hl1' Hl2' Hc a0 b0 Ha0 Hb0) as (w & Hw & Hsw).
      exists (w :: y). repeat split; [simpl; by rewrite Hw, Hy | simpl; lia | by constructor]. }
    assert (length a = length b →
            ∃ y, traverse (λ ab, bcast2M n f ab.1 ab.2) (zip a b) = Ok y
                 ∧ length y = length a
                 ∧ Forall (has_shape (n + k) (broadcast_shapes s1 s2 ++ sk)) y) as Hzip.
    { clear Hda Hdb Hleft Hright. revert b Hb.
      induction Ha as [|a0 a Ha0 _ IHa]; intros b Hb Hab; [by exists [] |].
      destruct b as [|b0 b]; [done |]. apply Forall_cons in Hb as [Hb0 Hb].
      destruct (IH s1 s2 Hl1' Hl2' Hc a0 b0 Ha0 Hb0) as (w & Hw & Hsw).
      destruct (IHa b Hb ltac:(simpl in Hab; lia)) as (y & Hy & Hly & Hys).
      exists (w :: y). repeat split; [simpl; by rewrite Hw, Hy | simpl; lia | by constructor]. }
    cbn [bcast2M]. unfold broadcast_shapes. cbn [zip_with app].
    fold (broadcast_shapes s1 s2).
    destruct (decide (length a = length b)) as [Hab|Hab].
    + destruct (Hzip Hab) as (y & Hy & Hly & Hys). exists y. split; [done |].
      split; [|done].
      case_decide; [exact (eq_trans Hly (eq_trans Hab Hdb)) | exact (eq_trans Hly Hda)].
    + destruct Hd as [Hd | [Hd | Hd]].
      * exfalso. apply Hab. exact (eq_trans Hda (eq_trans Hd (eq_sym Hdb))).
      * subst d1. destruct a as [|a0 [|? ?]]; try done.
        apply Forall_cons in Ha as [Ha0 _].
        destruct (Hleft a0 b Ha0 Hb) as (y & Hy & Hly & Hys).
        exists y. split; [done |]. split; [|done].
        rewrite decide_True by done. exact (eq_trans Hly Hdb).
      * subst d2. destruct b as [|b0 [|? ?]]; try done.
        apply Forall_cons in Hb as [Hb0 _].
        destruct (Hright b0 a Hb0 Ha) as (y & Hy & Hly & Hys).
        assert (d1 ≠ 1) by (intros ->; apply Hab; exact Hda).
        exists y. split.
        { destruct a as [|a0 [|? ?]]; try done; simpl in Hda; congruence. }
        split; [|done]. rewrite decide_False by done. exact (eq_trans Hly Hda).
Qed.
End broadcasting.

(** ** Writing to and reading from a strided slice *)

Lemma foldr_insert_lookup {A} (l : list (Z * A)) (y : list A) (k : nat) (i : Z) (v : A) :
  l !! k = Some (i, v) →
  (∀ k' i' v', l !! k' = Some (i', v') → k' ≠ k → Z.to_nat i' ≠ Z.to_nat i) →
  Z.to_nat i < length y →
  foldr (λ iv acc, <[Z.to_nat iv.1 := iv.2]> acc) y l !! Z.to_nat i = Some v.
Proof.
  revert k. induction l as [|[i0 v0] l IH]; intros k Hk Hne Hi; [done |].
  cbn [foldr]. destruct k as [|k].
  - injection Hk as -> ->. simpl. apply list_lookup_insert_eq.
    by rewrite (foldr_insert_length (λ iv, Z.to_nat iv.1) snd).
  - simpl in Hk. rewrite list_lookup_insert_ne.
    + apply (IH k); [done | | done].
      intros k' i' v' Hk' Hkk'. apply (Hne (S k') i' v'); [done | lia].
    + apply (Hne 0 i0 v0); [done | lia].
Qed.

Lemma foldr_insert_lookup_other {A} (l : list (Z * A)) (y : list A) (j : nat) :
  Forall (λ iv, Z.to_nat iv.1 ≠ j) l →
  foldr (λ iv acc, <[Z.to_nat iv.1 := iv.2]> acc) y l !! j = y !! j.
Proof.
  induction 1 as [|iv l Hiv _ IH]; [done |].
  cbn [foldr]. by rewrite list_lookup_insert_ne.
Qed.

(** [y[::d] = x] on a row [y] of [d * K - 1] elements and a value [x] of
    [K] elements: the result has the length of [y], the elements of [x]
    at the multiples of [d], and the elements of [y] elsewhere. *)
Lemma setitem_step_spec {A} (y x : list A) (d : Z) :
  (2 ≤ d)%Z → 0 < length x → Z.of_nat (length y) = (d * Z.of_nat (length x) - 1)%Z →
  ∃ w, setitem_slice y (Slice None None (Some d)) x = Ok w
       ∧ length w = length y
       ∧ (∀ k, k < length x → w !! Z.to_nat (Z.of_nat k * d) = x !! k)
       ∧ (∀ j, ¬ (d | Z.of_nat j)%Z → w !! j = y !! j).
Proof.
  intros Hd Hx Hy.
  assert (length y = Z.to_nat (d * Z.of_nat (length x) - 1)) as Hy' by lia.
  assert (slice_count (Slice None None (Some d)) (length y) = Z.of_nat (length x)) as Hcount.
  { rewrite Hy'. by apply slice_count_step. }
  unfold setitem_slice. rewrite slice_indices_pos by (simpl; lia).
  rewrite bind_ret, Hcount. unfold slice_lo. simpl.
  rewrite decide_True by (rewrite length_fmap, length_seqZ; lia).
  eexists. split; [done |].
  set (idx := (λ k : Z, (0 + k * d)%Z) <$> seqZ 0 (Z.of_nat (length x))).
  assert (∀ k i v, zip idx x !! k = Some (i, v) → i = (Z.of_nat k * d)%Z ∧ x !! k = Some v)
    as Hzip.
  { intros k i v [Hi Hv]%lookup_zip_Some.
    split; [|done]. unfold idx in Hi.
    rewrite list_lookup_fmap in Hi.
    destruct (seqZ 0 (Z.of_nat (length x)) !! k) as [j|] eqn:Hj; [|done].
    apply lookup_seqZ in Hj as [-> _]. simpl in Hi. injection Hi as <-. lia. }
  split; [apply (foldr_insert_length (λ iv, Z.to_nat iv.1) snd) |]. split.
  - intros k Hk. destruct (lookup_lt_is_Some_2 x k Hk) as [v Hv]. rewrite Hv.
    apply (foldr_insert_lookup _ _ k).
    + apply lookup_zip_Some. split; [|done].
      unfold idx. rewrite list_lookup_fmap, lookup_seqZ_lt by lia.
      simpl. f_equal; lia.
    + intros k' i' v' [-> _]%Hzip Hne. nia.
    + nia.
  - intros j Hj. apply foldr_insert_lookup_other.
    apply Forall_forall. intros [i v] [k Hk]%list_elem_of_lookup.
    apply Hzip in Hk as [-> _]. simpl. intros <-. apply Hj.
    rewrite Z2Nat.id by nia. by apply Z.divide_factor_r.
Qed.

Lemma setitem_getitem_step {A} (y x : list A) (d : Z) :
  (2 ≤ d)%Z → 0 < length x → Z.of_nat (length y) = (d * Z.of_nat (length x) - 1)%Z →
  ∃ w, setitem_slice y (Slice None None (Some d)) x = Ok w
       ∧ length w = length y
       ∧ getitem_slice w (Slice None None (Some d)) = Ok x.
Proof.
  intros Hd Hx Hy.
  destruct (setitem_step_spec y x d Hd Hx Hy) as (w & Hw & Hlw & Hget & _).
  exists w. split; [done |]. split; [done |].
  destruct (getitem_slice_pos w (Slice None None (Some d))) as (r & Hr & Hlr & Hrk);
    [simpl; lia |].
  rewrite Hr. f_equal.
  assert (length r = length x) as Hlen.
  { rewrite Hlw in Hlr.
    replace (length y) with (Z.to_nat (d * Z.of_nat (length x) - 1)) in Hlr by lia.
    rewrite slice_count_step in Hlr by done. lia. }
  apply list_eq. intros k. destruct (decide (k < length x)) as [Hk|Hk].
  - rewrite Hrk by lia. unfold slice_lo. simpl. rewrite Z.add_0_l. by apply Hget.
  - rewrite !lookup_ge_None_2; [done | lia..].
Qed.

Section roundtrip.
Context {A B C : Type}.

(** A binary operation on the trailing axes followed by an operation that
    gives back the second operand, row by row. *)
Lemma lift2M_then_liftM (n i j k : nat) (f : tensor A i → tensor B j → result (tensor C k))
    (g : tensor C k → result (tensor B j)) (s si sj sk : list nat)
    (a : tensor A (n + i)) (b : tensor B (n + j)) :
  length s = n →
  (∀ u v, has_shape i si u → has_shape j sj v →
          ∃ w, f u v = Ok w ∧ has_shape k sk w ∧ g w = Ok v) →
  has_shape (n + i) (s ++ si) a →
  has_shape (n + j) (s ++ sj) b →
  ∃ y, lift2M n f a b = Ok y ∧ has_shape (n + k) (s ++ sk) y ∧ liftM n g y = Ok b.
Proof.
  intros Hlen Hf. revert s Hlen a b.
  induction n as [|n IH]; intros s Hlen a b Ha Hb.
  - destruct s; [|done]. simpl in *. by apply Hf.
  - destruct s as [|d s]; [done |]. simpl in Hlen.
    apply has_shape_app_inv in Ha as [Hda Ha].
    apply has_shape_app_inv in Hb as [Hdb Hb].
    assert (length a = length b) as Hab by exact (eq_trans Hda (eq_sym Hdb)).
    cbn [lift2M liftM]. rewrite (decide_True (P := length a = length b)) by exact Hab.
    assert (∃ y, traverse (λ ab, lift2M n f ab.1 ab.2) (zip a b) = Ok y
                 ∧ length y = length a
                 ∧ Forall (has_shape (n + k) (s ++ sk)) y
                 ∧ traverse (liftM n g) y = Ok b) as (y & Hy & Hly & Hys & Hback).
    { clear Hda Hdb. revert b Hb Hab.
      induction Ha as [|a0 a Ha0 _ IHa]; intros b Hb Hab.
      - destruct b; [|done]. by exists [].
      - destruct b as [|b0 b]; [done |]. apply Forall_cons in Hb as [Hb0 Hb].
        destruct (IH s ltac:(lia) a0 b0 Ha0 Hb0) as (w & Hw & Hsw & Hgw).
        destruct (IHa b Hb ltac:(simpl in Hab; lia)) as (y & Hy & Hly & Hys & Hback).
        exists (w :: y). repeat split.
        + simpl. by rewrite Hw, Hy.
        + simpl. lia.
        + by constructor.
        + simpl. by rewrite Hgw, Hback. }
    exists y. split; [done |]. split; [|done].
    apply has_shape_app_inv. split; [exact (eq_trans Hly Hda) | done].
Qed.

Lemma liftM_lift_cancel (n j k : nat) (f : tensor A j → tensor B k)
    (g : tensor B k → result (tensor A j)) (x : tensor A (n + j)) :
  (∀ m, g (f m) = Ok m) → liftM n g (lift n f x) = Ok x.
Proof.
  intros Hgf. induction n as [|n IH]; [apply Hgf |].
  cbn [liftM lift]. induction x as [|a x IHx]; [done |].
  rewrite fmap_cons. cbn [traverse]. by rewrite IH, bind_ret, IHx.
Qed.
End roundtrip.

(** ** Identity no-ops (C4) *)

(** C4. Padding with all-zero widths and dilation by 1 are identities in
    both directions, for a tensor with any number [n] of leading axes: the
    forward function returns its input [x] itself, and, from the cache the
    forward function leaves, the backward function returns the incoming
    gradient [dy] itself. This holds for the functions on the last axis
    ([FPad1D], [FDilation1D]) and on the last two axes ([FPad2D],
    [FDilation2D]); [c] is a cache that records writes. *)
Theorem identity_noops {R} `{Num R} {T : Type} (n : nat) (c : FunctionCache T)
    (x dy : tensor R (n + 1)) (x2 dy2 : tensor R (n + 2)) :
  pseudo c = false →
  (∃ c', FPad1D.forward n c x (0, 0)%Z = Ok (c', x)
         ∧ FPad1D.backward n c' dy = Ok dy)
  ∧ (∃ c', FDilation1D.forward n c x 1 = Ok (c', x)
           ∧ FDilation1D.backward n c' dy = Ok dy)
  ∧ (∃ c', FPad2D.forward n c x2 ((0, 0), (0, 0))%Z = Ok (c', x2)
           ∧ FPad2D.backward n c' dy2 = Ok dy2)
  ∧ (∃ c', FDilation2D.forward n c x2 (1, 1)%Z = Ok (c', x2)
           ∧ FDilation2D.backward n c' dy2 = Ok dy2).
Proof.
  intros Hc. repeat split.
  - eexists. split; [reflexivity |].
    unfold FPad1D.backward. by rewrite getattr_setattr.
  - eexists. split; [reflexivity |].
    unfold FDilation1D.backward. by rewrite getattr_setattr.
  - eexists. split; [reflexivity |].
    unfold FPad2D.backward. by rewrite getattr_setattr.
  - eexists. split; [reflexivity |].
    unfold FDilation2D.backward. by rewrite getattr_setattr.
Qed.

Lemma identity_noops_witness :
  (∃ c', FPad1D.forward (R := Z) 1 (new_cache unit) [[1; 2]; [3; 4]]%Z (0, 0)%Z
           = Ok (c', [[1; 2]; [3; 4]]%Z)
         ∧ FPad1D.backward (R := Z) 1 c' [[5; 6]; [7; 8]]%Z = Ok [[5; 6]; [7; 8]]%Z)
  ∧ (∃ c', FDilation1D.forward (R := Z) 1 (new_cache unit) [[1; 2]; [3; 4]]%Z 1
             = Ok (c', [[1; 2]; [3; 4]]%Z)
           ∧ FDilation1D.backward (R := Z) 1 c' [[5; 6]; [7; 8]]%Z = Ok [[5; 6]; [7; 8]]%Z)
  ∧ (∃ c', FPad2D.forward (R := Z) 1 (new_cache unit) [[[1; 2]; [3; 4]]]%Z ((0, 0), (0, 0))%Z
             = Ok (c', [[[1; 2]; [3; 4]]]%Z)
           ∧ FPad2D.backward (R := Z) 1 c' [[[5; 6]; [7; 8]]]%Z = Ok [[[5; 6]; [7; 8]]]%Z)
  ∧ (∃ c', FDilation2D.forward (R := Z) 1 (new_cache unit) [[[1; 2]; [3; 4]]]%Z (1, 1)%Z
             = Ok (c', [[[1; 2]; [3; 4]]]%Z)
           ∧ FDilation2D.backward (R := Z) 1 c' [[[5; 6]; [7; 8]]]%Z = Ok [[[5; 6]; [7; 8]]]%Z).
Proof.
  apply (identity_noops (R := Z) (T := unit) 1 (new_cache unit)
           ([[1; 2]; [3; 4]]%Z : tensor Z (1 + 1)) ([[5; 6]; [7; 8]]%Z : tensor Z (1 + 1))
           ([[[1; 2]; [3; 4]]]%Z : tensor Z (1 + 2)) ([[[5; 6]; [7; 8]]]%Z : tensor Z (1 + 2))).
  reflexivity.
Defined.

(** The forward-only wrappers, which run on the cache that discards
    writes, return their input as well. *)
Lemma wrappers_identity {R} `{Num R} (n : nat) (x : tensor R (n + 1)) (x2 : tensor R (n + 2)) :
  pad1d n x (0, 0)%Z = Ok x ∧ dilate1d n x 1 = Ok x
  ∧ pad2d n x2 ((0, 0), (0, 0))%Z = Ok x2 ∧ dilate2d n x2 (1, 1)%Z = Ok x2.
Proof. done. Qed.

(** ** Softmax with temperature 1 (C10) *)

(** C10. With temperature 1, [temperature_softmax] returns what [softmax]
    returns, for a tensor of any rank and any axis (an axis outside the
    tensor is the same error in both). The element type divides by one
    exactly ([v / 1 = v]) and tells one from zero. *)
Theorem temperature_softmax_one {R} `{Num R} (n : nat) (x : tensor R n) (axis : Z) :
  (∀ v : R, rdiv v rone = v) →
  reqb (rone : R) rzero = false →
  Functional.temperature_softmax n x rone axis = Functional.softmax n x axis.
Proof.
  intros Hdiv Hone. unfold Functional.temperature_softmax, Functional.softmax.
  rewrite Hone.
  destruct (normalize_axis n axis) as [ax|e]; simpl; [|done].
  destruct (reduce_keep rmax None n ax x) as [m|e]; simpl; [|done].
  destruct (broadcast_op n rsub x m) as [d|e]; simpl; [|done].
  by rewrite (tmap_id_ext n (λ v, rdiv v rone) d Hdiv).
Qed.

Lemma temperature_softmax_one_witness :
  Functional.temperature_softmax (R := Z) 2 [[1; 2; 3]; [0; 0; 1]]%Z 1%Z (-1)
  = Functional.softmax (R := Z) 2 [[1; 2; 3]; [0; 0; 1]]%Z (-1).
Proof.
  exact (temperature_softmax_one (R := Z) 2 ([[1; 2; 3]; [0; 0; 1]]%Z : tensor Z 2) (-1)
           Z.div_1_r eq_refl).
Defined.

(** ** The backward function of [linear]: its results and their shapes *)

Lemma add_bias_has_shape {R} `{Num R} (p q : nat) (b : tensor R 1) (m : tensor R 2) :
  length b = q → has_shape 2 [p; q] m →
  ∃ m', traverse (λ r, broadcast_op 1 radd r b) m = Ok m' ∧ has_shape 2 [p; q] (m' : tensor R 2).
Proof.
  intros Hb [Hp Hm]%has_shape_2.
  exists ((λ r, zip_with radd r b) <$> m). split.
  - rewrite <- (traverse_Ok_fmap (λ r, zip_with radd r b)).
    apply traverse_ext. eapply Forall_impl; [exact Hm |].
    intros r Hr. simpl in Hr. apply broadcast_op_rows. by rewrite Hr, Hb.
  - apply has_shape_2. split; [by rewrite length_fmap |].
    apply Forall_fmap. eapply Forall_impl; [exact Hm |].
    intros r Hr. simpl in *. rewrite length_zip_with, Hr, Hb. apply Nat.min_id.
Qed.

(** [linear] on an input of shape (bs..., N, Cin) with at least one leading
    axis returns a backward function, and that function succeeds on a
    gradient of shape (bs..., N, Cout): the three results are the values of
    the three computations of the source, with the shapes of the input, the
    weight and the bias. *)
Lemma linear_backward_ok {R} `{Num R} (n : nat) (x dy : tensor R (S n + 2))
    (w : Tensor R 2) (b : option (Tensor R 1)) (bs : list nat) (N Cin Cout : nat) :
  length bs = S n → Forall (λ d, 0 < d) bs → 0 < N → 0 < Cin → 0 < Cout →
  has_shape (S n + 2) (bs ++ [N; Cin]) x →
  has_shape (S n + 2) (bs ++ [N; Cout]) dy →
  has_shape 2 [Cout; Cin] (data w) →
  (∀ b', b = Some b' → has_shape 1 [Cout] (data b')) →
  ∃ y backward,
    Functional.linear (S n) x w b true = Ok (y, Some backward)
    ∧ has_shape (S n + 2) (bs ++ [N; Cout]) y
    ∧ ∃ dx dw db,
        backward dy = Ok (dx, dw, db)
        ∧ liftM (S n) (j := 2) (k := 2) (λ m, matmul m (data w)) dy = Ok dx
        ∧ has_shape (S n + 2) (bs ++ [N; Cin]) dx
        ∧ (if requires_grad w
           then ∃ g prod,
                  dw = Some g
                  ∧ lift2M (S n) (i := 2) (j := 2) (k := 2)
                      (λ dym xm, matmul (transpose dym) xm) dy x = Ok prod
                  ∧ sum_leading (S n) prod = Ok g
                  ∧ has_shape 2 [Cout; Cin] g
           else dw = None)
        ∧ (match b with
           | Some b' =>
               if requires_grad b'
               then ∃ g s,
                      db = Some g
                      ∧ sum_leading (S n) (k := 2) dy = Ok s
                      ∧ reduce0 radd (Some rzero) 1 s = Ok g
                      ∧ has_shape 1 [Cout] g
               else db = None
           | None => db = None
           end).
Proof.
  intros Hlen Hpos HN HCin HCout Hx Hdy Hw Hb.
  (* forward *)
  pose proof (transpose_has_shape Cout Cin (data w) HCout Hw) as HwT.
  destruct (liftM_has_shape (S n) 2 2 (λ m, matmul m (transpose (data w)))
              bs [N; Cin] [N; Cout] x Hlen) as (y0 & Hy0 & Hsy0); [|done|].
  { intros m Hm. by apply (matmul_has_shape N Cin Cout). }
  assert (∃ y, match b with
               | Some b => liftM (S n) (j := 2) (k := 2)
                             (traverse (λ r, broadcast_op 1 radd r (data b))) y0
               | None => Ok y0
               end = Ok y ∧ has_shape (S n + 2) (bs ++ [N; Cout]) y) as (y & Hy & Hsy).
  { destruct b as [b'|]; [|by exists y0].
    apply (liftM_has_shape (S n) 2 2 _ bs [N; Cout] [N; Cout] y0 Hlen); [|done].
    intros m Hm. apply add_bias_has_shape; [|done].
    by apply has_shape_1, Hb. }
  exists y, (Functional.linear_backward (S n) x w b). split; [|split; [done |]].
  { unfold Functional.linear. rewrite Hy0. rewrite bind_ret. by rewrite Hy. }
  (* backward *)
  destruct (liftM_has_shape (S n) 2 2 (λ m, matmul m (data w))
              bs [N; Cout] [N; Cin] dy Hlen) as (dx & Hdx & Hsdx); [|done|].
  { intros m Hm. by apply (matmul_has_shape N Cout Cin). }
  destruct (lift2M_has_shape (S n) 2 2 2 (λ dym xm, matmul (transpose dym) xm)
              bs [N; Cout] [N; Cin] [Cout; Cin] dy x Hlen) as (prod & Hprod & Hsprod);
    [|done..|].
  { intros u v Hu Hv. apply (matmul_has_shape Cout N Cin); [done | | done].
    by apply transpose_has_shape. }
  destruct (sum_leading_has_shape (S n) 2 bs [Cout; Cin] prod Hlen Hpos Hsprod)
    as (g & Hg & Hsg).
  destruct (sum_leading_has_shape (S n) 2 bs [N; Cout] dy Hlen Hpos Hdy)
    as (s & Hs & Hss).
  destruct (reduce0_has_shape radd (Some rzero) 1 N [Cout] s HN Hss) as (gb & Hgb & Hsgb).
  exists dx, (if requires_grad w then Some g else None),
    (match b with
     | Some b' => if requires_grad b' then Some gb else None
     | None => None
     end).
  split.
  { unfold Functional.linear_backward. rewrite Hdx, bind_ret.
    destruct (requires_grad w).
    - rewrite Hprod, bind_ret. unfold Functional.sum_batch_axes. rewrite Hg, !bind_ret.
      destruct b as [b'|]; [destruct (requires_grad b') |]; [|done..].
      by rewrite Hs, bind_ret, Hgb, !bind_ret.
    - rewrite bind_ret.
      destruct b as [b'|]; [destruct (requires_grad b') |]; [|done..].
      by rewrite Hs, bind_ret, Hgb, !bind_ret. }
  split; [done |]. split; [done |]. split.
  - destruct (requires_grad w); [|done]. by exists g, prod.
  - destruct b as [b'|]; [|done]. destruct (requires_grad b'); [|done]. by exists gb, s.
Qed.

(** ** The length of a valid convolution (C1) *)

(** Dilation by a factor of at least 2 of a tensor of shape (s..., K)
    gives a tensor of shape (s..., d * K - 1). *)
Lemma __dilate1d_has_shape {R} `{Num R} (n : nat) (f : tensor R (n + 1)) (s : list nat)
    (K : nat) (d : Z) :
  length s = n → Forall (λ e, 0 < e) s → 0 < K → (2 ≤ d)%Z →
  has_shape (n + 1) (s ++ [K]) f →
  ∃ f', Functional.__dilate1d n f d = Ok f'
        ∧ has_shape (n + 1) (s ++ [Z.to_nat (d * Z.of_nat K - 1)]) f'.
Proof.
  intros Hlen Hpos HK Hd Hf. unfold Functional.__dilate1d.
  rewrite (proj2 (Z.eqb_neq d 1)) by lia.
  destruct (dim_from_end_last n s K f Hlen Hpos HK Hf) as [-> ->].
  destruct (zeros_has_shape (R := R) (n + 1) (s ++ [Z.to_nat (d * Z.of_nat K - 1)]))
    as (z & Hz & Hsz); [rewrite length_app; simpl; lia |].
  rewrite fmap_app in Hz. simpl in Hz. rewrite Z2Nat.id in Hz by nia.
  rewrite Hz, bind_ret.
  apply (lift2M_has_shape n 1 1 1 _ s [Z.to_nat (d * Z.of_nat K - 1)] [K]); [done | | done..].
  intros yr xr Hyr%has_shape_1 Hxr%has_shape_1.
  destruct (setitem_slice_pos yr xr (Slice None None (Some d))) as (r & Hr & Hlr).
  - simpl. lia.
  - rewrite Hyr, Hxr. by rewrite slice_count_step.
  - exists r. split; [done |]. apply has_shape_1. by rewrite Hlr.
Qed.

Lemma circular_convolve_length {R} `{Num R} (len : nat) (x f : list R) :
  length (circular_convolve len x f) = length x.
Proof. unfold circular_convolve. by rewrite length_fmap, length_seq. Qed.

Lemma __convolve1d_has_shape {R} `{Num R} (n : nat) (x f : tensor R (n + 1))
    (sx sf : list nat) (L K : nat) (stride : Z) :
  length sx = n → length sf = n →
  Forall (λ d, 0 < d) sx → Forall (λ d, 0 < d) sf → Forall2 compatible sx sf →
  0 < K → K ≤ L → (1 ≤ stride)%Z →
  has_shape (n + 1) (sx ++ [L]) x →
  has_shape (n + 1) (sf ++ [K]) f →
  ∃ y, Functional.__convolve1d n x f stride = Ok y
       ∧ has_shape (n + 1)
           (broadcast_shapes sx sf ++ [Z.to_nat ((Z.of_nat L - Z.of_nat K) / stride + 1)]) y.
Proof.
  intros Hlx Hlf Hpx Hpf Hc HK HKL Hs Hx Hf. unfold Functional.__convolve1d.
  destruct (dim_from_end_last n sx L x Hlx Hpx ltac:(lia) Hx) as [-> _].
  destruct (dim_from_end_last n sf K f Hlf Hpf HK Hf) as [-> _].
  assert (length (broadcast_shapes sx sf) = n) as Hlb.
  { unfold broadcast_shapes. rewrite length_zip_with. lia. }
  set (out := (Z.of_nat L - Z.of_nat K + 1)%Z).
  destruct (bcast2M_has_shape n 1 1 1
              (λ xr fr, Ok (circular_convolve (Z.to_nat (Z.of_nat L)) xr fr : tensor R 1))
              sx sf [L] [K] [L] x f Hlx Hlf Hc) as (conv & Hconv & Hsconv); [|done..|].
  { intros xr fr Hxr%has_shape_1 _. eexists. split; [done |].
    apply has_shape_1. by rewrite circular_convolve_length. }
  rewrite Hconv, bind_ret.
  destruct (liftM_has_shape n 1 1 (λ r, getitem_slice r (Slice (Some (- out)%Z) None None))
              (broadcast_shapes sx sf) [L] [Z.to_nat out] conv Hlb) as (c & Hcut & Hsc);
    [|done|].
  { intros r Hr%has_shape_1.
    destruct (getitem_slice_pos r (Slice (Some (- out)%Z) None None)) as (r' & Hr' & Hlen & _);
      [simpl; lia |].
    exists r'. split; [done |]. apply has_shape_1.
    revert Hlen. unfold slice_count, slice_lo, slice_hi, adjust_index, out. simpl.
    rewrite Hr. repeat case_match; try lia.
    rewrite Z.div_1_r. lia. }
  rewrite Hcut, bind_ret.
  apply (liftM_has_shape n 1 1 _ (broadcast_shapes sx sf) [Z.to_nat out]); [done | | done].
  intros r Hr%has_shape_1.
  destruct (getitem_slice_pos r (Slice None None (Some stride))) as (r' & Hr' & Hlen & _);
    [simpl; lia |].
  exists r'. split; [done |]. apply has_shape_1.
  revert Hlen. unfold slice_count, slice_lo, slice_hi, out in *. simpl.
  rewrite Hr. rewrite Z2Nat.id by lia.
  rewrite (proj2 (Z.ltb_lt 0 _)) by lia.
  replace (Z.of_nat L - Z.of_nat K + 1 - 0 - 1)%Z with (Z.of_nat L - Z.of_nat K)%Z by lia.
  lia.
Qed.

(** C1, as amended. For an input of shape (sx..., L) and a filter of the
    same rank and of shape (sf..., K), with positive extents and leading
    extents that broadcast, a stride S ≥ 1 and a dilation D of 1 or 2 such
    that the dilated filter is not longer than the input
    (D * (K - 1) + 1 ≤ L): [convolve1d] with "valid" padding returns a
    tensor whose last axis has length floor((L − (D*(K−1)+1)) / S) + 1. *)
Theorem convolve1d_valid_length {R} `{Num R} (n : nat) (x f : tensor R (n + 1))
    (sx sf : list nat) (L K : nat) (stride dilation : Z) :
  length sx = n → length sf = n →
  Forall (λ d, 0 < d) sx → Forall (λ d, 0 < d) sf → Forall2 compatible sx sf →
  has_shape (n + 1) (sx ++ [L]) x →
  has_shape (n + 1) (sf ++ [K]) f →
  0 < K → (1 ≤ stride)%Z → dilation = 1%Z ∨ dilation = 2%Z →
  (dilation * (Z.of_nat K - 1) + 1 ≤ Z.of_nat L)%Z →
  ∃ y, Functional.convolve1d n n x f Functional.valid stride dilation = Ok y
       ∧ has_shape (n + 1)
           (broadcast_shapes sx sf
              ++ [Z.to_nat ((Z.of_nat L - (dilation * (Z.of_nat K - 1) + 1)) / stride + 1)]) y.
Proof.
  intros Hlx Hlf Hpx Hpf Hc Hx Hf HK Hs HD HL. unfold Functional.convolve1d.
  destruct (decide (n = n)) as [e|]; [|done].
  assert (e = eq_refl) as -> by apply proof_irrel. simpl eq_rect.
  destruct HD as [-> | ->].
  - rewrite (proj2 (Z.ltb_ge 1 1)) by lia. rewrite !bind_ret.
    destruct (__convolve1d_has_shape n x f sx sf L K stride) as (y & Hy & Hsy); try done; [lia |].
    exists y. split; [done |].
    by replace (1 * (Z.of_nat K - 1) + 1)%Z with (Z.of_nat K) by lia.
  - rewrite (proj2 (Z.ltb_lt 1 2)) by lia.
    destruct (__dilate1d_has_shape n f sf K 2 Hlf Hpf HK ltac:(lia) Hf) as (f' & Hf' & Hsf').
    rewrite Hf', !bind_ret.
    destruct (__convolve1d_has_shape n x f' sx sf L (Z.to_nat (2 * Z.of_nat K - 1)) stride)
      as (y & Hy & Hsy); try done; [lia.. |].
    exists y. split; [done |].
    by replace (2 * (Z.of_nat K - 1) + 1)%Z
      with (Z.of_nat (Z.to_nat (2 * Z.of_nat K - 1))) by lia.
Qed.

Lemma convolve1d_valid_length_witness :
  ∃ y, Functional.convolve1d (R := Z) 1 1
         ([[1; 2; 3; 4; 5; 6]]%Z : tensor Z (1 + 1))
         ([[1; 1]; [1; 2]]%Z : tensor Z (1 + 1)) Functional.valid 2 2 = Ok y
       ∧ has_shape 2 [2; 2] y.
Proof.
  destruct (convolve1d_valid_length (R := Z) 1
              ([[1; 2; 3; 4; 5; 6]]%Z : tensor Z (1 + 1))
              ([[1; 1]; [1; 2]]%Z : tensor Z (1 + 1)) [1] [2] 6 2 2 2)
    as (y & Hy & Hsy).
  - reflexivity.
  - reflexivity.
  - repeat constructor.
  - repeat constructor.
  - constructor; [right; left; reflexivity | constructor].
  - simpl. repeat constructor.
  - simpl. repeat constructor.
  - lia.
  - lia.
  - right; reflexivity.
  - lia.
  - exists y. split; [exact Hy | exact Hsy].
Defined.

(** C1, as stated, fails for a filter longer than the input. For L = 2 and
    K = 3 (S = D = 1) the formula gives floor((2 − 3) / 1) + 1 = 0, and
    [convolve1d] returns two elements: the number of valid positions is
    2 − 3 + 1 = 0 and the slice [conv[-0:]] is the whole axis. For L = 1 and
    K = 3 the formula gives −1, which is the length of no tensor. *)
Lemma convolve1d_valid_length_counterexample :
  Functional.convolve1d (R := Z) 0 0 [1; 2]%Z [1; 1; 1]%Z Functional.valid 1 1
  = Ok [3; 3]%Z
  ∧ Z.of_nat (length [3; 3]%Z) ≠ ((2 - (1 * (3 - 1) + 1)) / 1 + 1)%Z
  ∧ Functional.convolve1d (R := Z) 0 0 [1]%Z [1; 1; 1]%Z Functional.valid 1 1 = Ok []
  ∧ Z.of_nat (length (@nil Z)) ≠ ((1 - (1 * (3 - 1) + 1)) / 1 + 1)%Z.
Proof. repeat split; vm_compute; congruence. Qed.

(** ** Dilation forward and backward *)

Lemma FDilation1D_forward_eq {R} `{Num R} {T : Type} (n : nat) (c : FunctionCache T)
    (x : tensor R (n + 1)) (d : Z) :
  d ≠ 1%Z →
  FDilation1D.forward n c x d
  = (let* y := Functional.__dilate1d n x d in
     Ok (setattr (setattr c "no_dilation" (VBool false)) "dilation" (VInt d), y)).
Proof.
  intros Hd. unfold FDilation1D.forward, Functional.__dilate1d.
  rewrite (proj2 (Z.eqb_neq d 1)) by done.
  destruct (zeros _ _) as [z|e]; [|done]. rewrite !bind_ret.
  by destruct (lift2M _ _ _ _).
Qed.

(** Dilation forward followed by dilation backward gives the input back,
    for every factor [d ≥ 1] and a tensor of shape (s..., K) with positive
    extents; for [d ≥ 2] the dilated tensor has shape (s..., d * K - 1). *)
Theorem dilation_roundtrip {R} `{Num R} {T : Type} (n : nat) (c : FunctionCache T)
    (x : tensor R (n + 1)) (s : list nat) (K : nat) (d : Z) :
  pseudo c = false → length s = n → Forall (λ e, 0 < e) s → 0 < K → (1 ≤ d)%Z →
  has_shape (n + 1) (s ++ [K]) x →
  ∃ c' y, FDilation1D.forward n c x d = Ok (c', y)
          ∧ (2 ≤ d → has_shape (n + 1) (s ++ [Z.to_nat (d * Z.of_nat K - 1)]) y)%Z
          ∧ FDilation1D.backward n c' y = Ok x.
Proof.
  intros Hc Hlen Hpos HK Hd Hx.
  destruct (decide (d = 1%Z)) as [->|Hd1].
  { eexists _, x. split; [reflexivity |]. split; [lia |].
    unfold FDilation1D.backward. by rewrite getattr_setattr. }
  rewrite FDilation1D_forward_eq by done. unfold Functional.__dilate1d.
  rewrite (proj2 (Z.eqb_neq d 1)) by done.
  destruct (dim_from_end_last n s K x Hlen Hpos HK Hx) as [-> ->].
  destruct (zeros_has_shape (R := R) (n + 1) (s ++ [Z.to_nat (d * Z.of_nat K - 1)]))
    as (z & Hz & Hsz); [rewrite length_app; simpl; lia |].
  rewrite fmap_app in Hz. simpl in Hz. rewrite Z2Nat.id in Hz by nia.
  rewrite Hz, bind_ret.
  destruct (lift2M_then_liftM n 1 1 1
              (λ yr xr, setitem_slice yr (Slice None None (Some d)) xr)
              (λ r, getitem_slice r (Slice None None (Some d)))
              s [Z.to_nat (d * Z.of_nat K - 1)] [K] [Z.to_nat (d * Z.of_nat K - 1)]
              z x Hlen) as (y & Hy & Hsy & Hback); [|done..|].
  { intros yr xr Hyr%has_shape_1 Hxr%has_shape_1.
    destruct (setitem_getitem_step yr xr d) as (w & Hw & Hlw & Hg); [lia.. |].
    exists w. split; [done |]. split; [|done]. apply has_shape_1. by rewrite Hlw. }
  rewrite Hy, bind_ret. eexists _, y. split; [done |]. split; [done |].
  unfold FDilation1D.backward.
  rewrite getattr_setattr_ne by done.
  rewrite getattr_setattr by done.
  rewrite getattr_setattr by (by rewrite pseudo_setattr).
  done.
Qed.

Lemma dilation_roundtrip_witness :
  ∃ c' y, FDilation1D.forward (R := Z) 1 (new_cache unit)
            ([[1; 2; 3]; [4; 5; 6]]%Z : tensor Z (1 + 1)) 3 = Ok (c', y)
          ∧ has_shape 2 [2; 8] y
          ∧ FDilation1D.backward 1 c' y = Ok [[1; 2; 3]; [4; 5; 6]]%Z.
Proof.
  destruct (dilation_roundtrip (R := Z) 1 (new_cache unit)
              ([[1; 2; 3]; [4; 5; 6]]%Z : tensor Z (1 + 1)) [2] 3 3)
    as (c' & y & Hfw & Hshape & Hbw).
  - reflexivity.
  - reflexivity.
  - repeat constructor.
  - lia.
  - lia.
  - simpl. repeat constructor.
  - exists c', y. split; [exact Hfw |]. split; [|exact Hbw].
    apply Hshape. lia.
Defined.

(** Dilation of a one-axis tensor of [K ≥ 1] elements by a factor [d ≥ 2]:
    the result has [d * K - 1] elements, element [k] of the input stands at
    position [k * d], and every position that is no multiple of [d] holds
    zero. *)
Theorem dilate1d_elements {R} `{Num R} (x : tensor R (0 + 1)) (d : Z) :
  (2 ≤ d)%Z → 0 < length x →
  ∃ y : list R,
    dilate1d 0 x d = Ok y
    ∧ Z.of_nat (length y) = (d * Z.of_nat (length x) - 1)%Z
    ∧ (∀ k, k < length x → y !! Z.to_nat (Z.of_nat k * d) = x !! k)
    ∧ (∀ j, j < length y → ¬ (d | Z.of_nat j)%Z → y !! j = Some rzero).
Proof.
  intros Hd Hx. unfold dilate1d.
  rewrite FDilation1D_forward_eq by lia. unfold Functional.__dilate1d.
  rewrite (proj2 (Z.eqb_neq d 1)) by lia.
  assert (dim_from_end (0 + 1) x 0 = Z.of_nat (length x)
          ∧ shape_but_last (0 + 1) x 1 = []) as [-> ->].
  { destruct x; [simpl in Hx; lia | done]. }
  cbn [app].
  assert (zeros (R := R) (0 + 1) [(d * Z.of_nat (length x) - 1)%Z]
          = Ok (replicate (Z.to_nat (d * Z.of_nat (length x) - 1)) (rzero : R))) as ->.
  { simpl. by rewrite (proj2 (Z.ltb_ge _ 0)) by nia. }
  rewrite bind_ret. cbn [lift2M].
  destruct (setitem_step_spec
              (replicate (Z.to_nat (d * Z.of_nat (length x) - 1)) (rzero : R)) x d)
    as (w & Hw & Hlw & Hget & Hother); [done.. | |].
  { rewrite length_replicate. nia. }
  rewrite length_replicate in Hlw.
  exists w. split; [by rewrite Hw |]. split; [nia |]. split; [done |].
  intros j Hj Hdiv. rewrite Hother by done. apply lookup_replicate_2. lia.
Qed.

Lemma dilate1d_elements_witness :
  ∃ y : list Z,
    dilate1d (R := Z) 0 [7; 8; 9]%Z 3 = Ok y
    ∧ Z.of_nat (length y) = 8%Z
    ∧ y !! 0 = Some 7%Z ∧ y !! 3 = Some 8%Z ∧ y !! 6 = Some 9%Z
    ∧ y !! 7 = Some 0%Z.
Proof.
  destruct (dilate1d_elements (R := Z) ([7; 8; 9]%Z : tensor Z (0 + 1)) 3)
    as (y & Hy & Hlen & Hget & Hzero).
  - lia.
  - simpl. lia.
  - exists y. split; [exact Hy |]. split; [exact Hlen |].
    split; [exact (Hget 0 ltac:(simpl; lia)) |].
    split; [exact (Hget 1 ltac:(simpl; lia)) |].
    split; [exact (Hget 2 ltac:(simpl; lia)) |].
    apply Hzero; [simpl in Hlen; lia |].
    intros [q Hq]. lia.
Defined.

(** ** Dilation by a factor of 3 (C2) *)

(** C2. Dilating the two-element tensor [1, 2] by the factor 3 gives the
    five elements [1, 0, 0, 2, 0]: the elements of the input stand at the
    positions 0 and 3 and every other element is zero, but the length is
    [3 * 2 - 1 = 5] and not [3 * (2 - 1) + 1 = 4]. The functions of both
    files and the two-axis dilation allocate [dilation * n - 1] elements. *)
Theorem dilation_factor3_length :
  dilate1d (R := Z) 0 [1; 2]%Z 3 = Ok [1; 0; 0; 2; 0]%Z
  ∧ Functional.__dilate1d (R := Z) 0 [1; 2]%Z 3 = Ok [1; 0; 0; 2; 0]%Z
  ∧ dilate2d (R := Z) 0 [[1; 2]; [3; 4]]%Z (3, 3)%Z
    = Ok [[1; 0; 0; 2; 0]; [0; 0; 0; 0; 0]; [0; 0; 0; 0; 0];
          [3; 0; 0; 4; 0]; [0; 0; 0; 0; 0]]%Z.
Proof. repeat split; vm_compute; reflexivity. Qed.

(** ** Padding forward and backward *)

Lemma shape_length {R} (n : nat) (t : tensor R n) : length (shape n t) = n.
Proof.
  induction n as [|n IH]; [done |]. simpl. f_equal.
  destruct t as [|a t]; [apply length_replicate | apply IH].
Qed.

(** [pad] with zero widths on the leading axes pads every row. *)
Lemma pad_last_axis {R} `{Num R} (n : nat) (x : tensor R (n + 1)) (a b : Z) :
  (0 ≤ a)%Z → (0 ≤ b)%Z →
  pad (n + 1) (replicate n (0, 0)%Z ++ [(a, b)]) x
  = Ok (lift n (j := 1) (k := 1)
          (λ r : tensor R 1, replicate (Z.to_nat a) rzero ++ r ++ replicate (Z.to_nat b) rzero
                             : tensor R 1) x).
Proof.
  intros Ha Hb.
  set (f := λ r : tensor R 1,
         (replicate (Z.to_nat a) rzero ++ r ++ replicate (Z.to_nat b) rzero : tensor R 1)).
  induction n as [|n IH].
  - cbn [replicate app Nat.add pad lift].
    rewrite (proj2 (Z.ltb_ge a 0)), (proj2 (Z.ltb_ge b 0)) by lia. cbn [orb].
    rewrite (traverse_Ok_fmap (λ t : R, t)), list_fmap_id, bind_ret.
    by destruct x.
  - cbn [replicate app Nat.add pad lift]. cbn [Z.ltb Z.compare orb].
    rewrite (traverse_ext (pad (n + 1) (replicate n (0, 0)%Z ++ [(a, b)]))
               (λ t, Ok (lift n (j := 1) (k := 1) f t)) x)
      by (apply Forall_forall; intros t _; apply IH).
    rewrite (traverse_Ok_fmap (lift n (j := 1) (k := 1) f) x), bind_ret.
    match goal with |- context [zeros (n + 1) (Z.of_nat <$> ?s)] =>
      destruct (zeros_has_shape (R := R) (n + 1) s) as (z & -> & _)
    end.
    { case_match; [apply length_replicate | apply shape_length]. }
    rewrite bind_ret. cbn [Z.to_nat replicate app]. by rewrite app_nil_r.
Qed.

Lemma getitem_unpad {R} (z : R) (r : list R) (p : Z) :
  (0 < p)%Z →
  getitem_slice (replicate (Z.to_nat p) z ++ r ++ replicate (Z.to_nat p) z)
    (Slice (Some p) (Some (- p)%Z) None) = Ok r.
Proof.
  intros Hp.
  set (l := replicate (Z.to_nat p) z ++ r ++ replicate (Z.to_nat p) z).
  assert (Z.of_nat (length l) = 2 * p + Z.of_nat (length r))%Z as Hl.
  { unfold l. rewrite !length_app, !length_replicate. lia. }
  destruct (getitem_slice_pos l (Slice (Some p) (Some (- p)%Z) None))
    as (r' & Hr' & Hlen & Hget); [simpl; lia |].
  assert (slice_lo (Slice (Some p) (Some (- p)%Z) None) (length l) = p) as Hlo.
  { unfold slice_lo, adjust_index. simpl. repeat case_match; lia. }
  assert (slice_count (Slice (Some p) (Some (- p)%Z) None) (length l)
          = Z.of_nat (length r)) as Hcount.
  { unfold slice_count. rewrite Hlo. unfold slice_hi, adjust_index. simpl.
    repeat case_match; try lia. rewrite Z.div_1_r. lia. }
  rewrite Hr'. f_equal. apply list_eq. intros k.
  destruct (decide (k < length r)) as [Hk|Hk].
  - rewrite Hget by lia. rewrite Hlo. simpl. rewrite Z.mul_1_r.
    unfold l. rewrite lookup_app_r by (rewrite length_replicate; lia).
    rewrite length_replicate, lookup_app_l by lia. f_equal. lia.
  - rewrite !lookup_ge_None_2; [done | lia..].
Qed.

(** Padding by the same width [p ≥ 0] at both ends, forward and then
    backward, gives the input back, whatever the number of leading axes;
    the padded tensor has [p] zeros before and after every row. *)
Theorem pad1d_symmetric_roundtrip {R} `{Num R} {T : Type} (n : nat) (c : FunctionCache T)
    (x : tensor R (n + 1)) (p : Z) :
  pseudo c = false → (0 ≤ p)%Z →
  ∃ c' y, FPad1D.forward n c x (p, p) = Ok (c', y)
          ∧ y = lift n (j := 1) (k := 1)
                  (λ r : tensor R 1,
                     replicate (Z.to_nat p) rzero ++ r ++ replicate (Z.to_nat p) rzero
                     : tensor R 1) x
          ∧ FPad1D.backward n c' y = Ok x.
Proof.
  intros Hc Hp. destruct (decide (p = 0%Z)) as [->|Hp0].
  { eexists _, x. split; [reflexivity |]. split.
    - cbn [Z.to_nat replicate app]. clear. induction n as [|n IH].
      + simpl. by rewrite app_nil_r.
      + cbn [lift Nat.add]. induction x as [|a x IHx]; [done |].
        rewrite fmap_cons. by rewrite <- IH, <- IHx.
    - unfold FPad1D.backward. by rewrite getattr_setattr. }
  unfold FPad1D.forward. rewrite bool_decide_eq_false_2 by congruence.
  rewrite pad_last_axis by done. rewrite bind_ret.
  eexists _, _. split; [done |]. split; [done |].
  unfold FPad1D.backward.
  rewrite getattr_setattr_ne by done.
  rewrite getattr_setattr by done.
  rewrite getattr_setattr by (by rewrite pseudo_setattr).
  cbn [truthy fst].
  apply (liftM_lift_cancel n 1 1). intros r. apply getitem_unpad. lia.
Qed.

Lemma pad1d_symmetric_roundtrip_witness :
  ∃ c' y, FPad1D.forward (R := Z) 1 (new_cache unit)
            ([[1; 2]; [3; 4]]%Z : tensor Z (1 + 1)) (2, 2)%Z = Ok (c', y)
          ∧ y = [[0; 0; 1; 2; 0; 0]; [0; 0; 3; 4; 0; 0]]%Z
          ∧ FPad1D.backward 1 c' y = Ok [[1; 2]; [3; 4]]%Z.
Proof.
  destruct (pad1d_symmetric_roundtrip (R := Z) 1 (new_cache unit)
              ([[1; 2]; [3; 4]]%Z : tensor Z (1 + 1)) 2)
    as (c' & y & Hfw & Hy & Hbw).
  - reflexivity.
  - lia.
  - exists c', y. split; [exact Hfw |]. split; [exact Hy | exact Hbw].
Defined.

(** ** Padding by asymmetric widths and back (C3) *)

(** C3. [FPad1D] with the widths (1, 2) pads [1, 2, 3] to
    [0, 1, 2, 3, 0, 0]; its backward function slices [dy[1:-1]], with the
    first width at both ends, and returns [1, 2, 3, 0], not the input. With
    the widths (0, 2) it returns the empty tensor. [FPad2D], which reads the
    second width for the end of the slice, returns the input for the widths
    ((1, 2), (2, 1)). *)
Theorem pad1d_asymmetric_roundtrip :
  (let* cy := FPad1D.forward (R := Z) 0 (new_cache unit) [1; 2; 3]%Z (1, 2)%Z in
   let* dx := FPad1D.backward 0 cy.1 cy.2 in Ok (cy.2, dx))
  = Ok ([0; 1; 2; 3; 0; 0]%Z, [1; 2; 3; 0]%Z)
  ∧ (let* cy := FPad1D.forward (R := Z) 0 (new_cache unit) [1; 2; 3]%Z (0, 2)%Z in
     let* dx := FPad1D.backward 0 cy.1 cy.2 in Ok (cy.2, dx))
    = Ok ([1; 2; 3; 0; 0]%Z, [])
  ∧ (let* cy := FPad2D.forward (R := Z) 0 (new_cache unit) [[1; 2]; [3; 4]]%Z
                  ((1, 2), (2, 1))%Z in
     FPad2D.backward 0 cy.1 cy.2)
    = Ok [[1; 2]; [3; 4]]%Z.
Proof. repeat split; vm_compute; reflexivity. Qed.

(** ** Pooling: truncation of the remainder *)

Lemma getitem_slice_prefix {A} (l : list A) (t : Z) :
  (0 ≤ t)%Z → getitem_slice l (Slice None (Some t) None) = Ok (take (Z.to_nat t) l).
Proof.
  intros Ht.
  destruct (getitem_slice_pos l (Slice None (Some t) None)) as (r & Hr & Hlen & Hget);
    [simpl; lia |].
  assert (slice_count (Slice None (Some t) None) (length l)
          = Z.of_nat (Nat.min (Z.to_nat t) (length l))) as Hcount.
  { unfold slice_count, slice_lo, slice_hi, adjust_index. simpl.
    repeat case_match; rewrite ?Z.div_1_r; lia. }
  rewrite Hr. f_equal. apply list_eq. intros k.
  destruct (decide (k < Nat.min (Z.to_nat t) (length l))) as [Hk|Hk].
  - rewrite Hget by lia. unfold slice_lo. simpl. rewrite lookup_take_lt by lia.
    f_equal. lia.
  - rewrite lookup_ge_None_2 by lia.
    symmetry. apply lookup_ge_None_2. rewrite length_take. lia.
Qed.

Lemma getitem_slice2_prefix {A} (m : list (list A)) (ty tx : Z) :
  (0 ≤ ty)%Z → (0 ≤ tx)%Z →
  getitem_slice2 m (Slice None (Some ty) None) (Slice None (Some tx) None)
  = Ok (take (Z.to_nat tx) <$> take (Z.to_nat ty) m).
Proof.
  intros Hy Hx. unfold getitem_slice2. rewrite getitem_slice_prefix, bind_ret by done.
  rewrite <- traverse_Ok_fmap. apply traverse_ext, Forall_forall.
  intros r _. by apply getitem_slice_prefix.
Qed.

Lemma liftM_pure {A B} (n j k : nat) (f : tensor A j → result (tensor B k))
    (g : tensor A j → tensor B k) (x : tensor A (n + j)) :
  (∀ m, f m = Ok (g m)) → liftM n f x = Ok (lift n g x).
Proof.
  intros Hfg. induction n as [|n IH]; [apply Hfg |].
  cbn [liftM lift]. induction x as [|a x IHx]; [done |].
  rewrite fmap_cons. cbn [traverse]. by rewrite IH, bind_ret, IHx.
Qed.

(** The forward functions of max and average pooling read their input only
    through its shape and through the leading [H // Kh * Kh] rows and
    [W // Kw * Kw] columns of every matrix: two inputs of the same shape
    that agree there have the same output, whatever their remainder rows
    and columns hold. *)
Theorem pooling_forward_ignores_remainder {R} `{Num R} (n : nat) (x x' : tensor R (n + 2))
    (Kh Kw : Z) :
  (1 ≤ Kh)%Z → (1 ≤ Kw)%Z →
  shape (n + 2) x = shape (n + 2) x' →
  (let crop := λ m : tensor R 2,
     (take (Z.to_nat (dim_from_end (n + 2) x 0 / Kw * Kw))
        <$> take (Z.to_nat (dim_from_end (n + 2) x 1 / Kh * Kh)) m : tensor R 2) in
   lift n (j := 2) (k := 2) crop x = lift n (j := 2) (k := 2) crop x') →
  maxpooling2d n x (Kh, Kw) = maxpooling2d n x' (Kh, Kw)
  ∧ avgpooling2d n x (Kh, Kw) = avgpooling2d n x' (Kh, Kw).
Proof.
  intros HKh HKw Hshape Hcrop.
  assert (∀ i, dim_from_end (n + 2) x i = dim_from_end (n + 2) x' i) as Hdim.
  { intros i. unfold dim_from_end. by rewrite Hshape. }
  assert (∀ i, shape_but_last (n + 2) x i = shape_but_last (n + 2) x' i) as Hlead.
  { intros i. unfold shape_but_last. by rewrite Hshape. }
  assert (∀ i, 0 ≤ dim_from_end (n + 2) x i)%Z as Hnonneg.
  { intros i. unfold dim_from_end. lia. }
  assert (∀ z : tensor R (n + 2),
            liftM n (j := 2) (k := 2)
              (λ m, getitem_slice2 m
                      (Slice None (Some (dim_from_end (n + 2) x 1 / Kh * Kh)%Z) None)
                      (Slice None (Some (dim_from_end (n + 2) x 0 / Kw * Kw)%Z) None)) z
            = Ok (lift n (j := 2) (k := 2)
                    (λ m : tensor R 2,
                       (take (Z.to_nat (dim_from_end (n + 2) x 0 / Kw * Kw))
                          <$> take (Z.to_nat (dim_from_end (n + 2) x 1 / Kh * Kh)) m
                        : tensor R 2)) z)) as Hcut.
  { intros z. apply liftM_pure. intros m. apply getitem_slice2_prefix.
    - pose proof (Hnonneg 1). apply Z.mul_nonneg_nonneg; [apply Z.div_pos |]; lia.
    - pose proof (Hnonneg 0). apply Z.mul_nonneg_nonneg; [apply Z.div_pos |]; lia. }
  split.
  - unfold maxpooling2d, FMaxPooling2D.forward, floordiv.
    rewrite <- !Hdim, <- !Hlead.
    rewrite !(proj2 (Z.eqb_neq _ 0)) by lia. rewrite !bind_ret.
    rewrite !Hcut. cbv zeta in Hcrop. rewrite Hcrop. rewrite !bind_ret.
    destruct (to_shape _ _ _ _) as [blocks|e]; [|done]. rewrite !bind_ret.
    by destruct (cp_max_window n blocks).
  - unfold avgpooling2d, FAvgPooling2D.forward, floordiv.
    rewrite <- !Hdim, <- !Hlead.
    rewrite !(proj2 (Z.eqb_neq _ 0)) by lia. rewrite !bind_ret.
    rewrite !Hcut. cbv zeta in Hcrop. rewrite Hcrop. rewrite !bind_ret.
    destruct (to_shape _ _ _ _) as [blocks|e]; [|done]. rewrite !bind_ret.
    by destruct (mean_window n blocks).
Qed.

Lemma pooling_forward_ignores_remainder_witness :
  maxpooling2d (R := Z) 0 [[1; 2; 3]; [4; 5; 6]; [7; 8; 9]]%Z (2, 2)%Z
  = maxpooling2d (R := Z) 0 [[1; 2; 30]; [4; 5; 60]; [70; 80; 90]]%Z (2, 2)%Z
  ∧ avgpooling2d (R := Z) 0 [[1; 2; 3]; [4; 5; 6]; [7; 8; 9]]%Z (2, 2)%Z
    = avgpooling2d (R := Z) 0 [[1; 2; 30]; [4; 5; 60]; [70; 80; 90]]%Z (2, 2)%Z.
Proof.
  apply (pooling_forward_ignores_remainder (R := Z) 0
           ([[1; 2; 3]; [4; 5; 6]; [7; 8; 9]]%Z : tensor Z (0 + 2))
           ([[1; 2; 30]; [4; 5; 60]; [70; 80; 90]]%Z : tensor Z (0 + 2)) 2 2).
  - lia.
  - lia.
  - reflexivity.
  - reflexivity.
Defined.

(** ** Pooling: the shape of the output *)

Lemma flatten_length {R} (n : nat) (s : list nat) (t : tensor R n) :
  length s = n → has_shape n s t → length (flatten n t) = foldr Nat.mul 1 s.
Proof.
  revert s t. induction n as [|n IH]; intros s t Hlen Ht.
  - by destruct s.
  - destruct s as [|d s]; [done |]. destruct Ht as [Hd Ht]. cbn [flatten foldr].
    rewrite <- Hd. clear Hd.
    induction Ht as [|a t Ha _ IHt]; [done |].
    rewrite bind_cons, length_app, IHt, (IH s a) by (simpl in Hlen; lia || done).
    simpl. lia.
Qed.

Lemma reshape_replicate_chunks {A} (d size : nat) (l : list A) :
  length l = d * size →
  length (reshape (replicate d size) l) = d
  ∧ Forall (λ c, length c = size) (reshape (replicate d size) l).
Proof.
  revert l. induction d as [|d IH]; intros l Hl; [done |].
  cbn [replicate reshape].
  destruct (IH (drop size l)) as [Hlen Hall]; [rewrite length_drop; lia |].
  split; [simpl; by rewrite Hlen |].
  constructor; [rewrite length_take; lia | done].
Qed.

Lemma unflatten_has_shape {R} (n : nat) (s : list nat) (l : list R) :
  length s = n → length l = foldr Nat.mul 1 s →
  ∃ t, unflatten n s l = Ok t ∧ has_shape n s t.
Proof.
  revert s l. induction n as [|n IH]; intros s l Hlen Hl.
  - destruct s; [|done]. destruct l as [|r [|? ?]]; try done. by exists r.
  - destruct s as [|d s]; [done |]. cbn [unflatten foldr] in *.
    rewrite decide_True by done.
    destruct (reshape_replicate_chunks d (foldr Nat.mul 1 s) l Hl) as [Hd Hchunks].
    assert (∃ t, traverse (unflatten n s) (reshape (replicate d (foldr Nat.mul 1 s)) l) = Ok t
                 ∧ Forall (has_shape n s) t) as (t & Ht & Hst).
    { clear Hd. induction Hchunks as [|c cs Hc _ (t & Ht & Hst)]; [by exists [] |].
      destruct (IH s c ltac:(simpl in Hlen; lia) Hc) as (a & Ha & Hsa).
      exists (a :: t). split; [simpl; by rewrite Ha, Ht | by constructor]. }
    exists t. split; [done |]. split; [|done].
    apply traverse_length in Ht. exact (eq_trans Ht Hd).
Qed.

Lemma tmap_has_shape {A B} (n : nat) (f : A → B) (s : list nat) (t : tensor A n) :
  has_shape n s t → has_shape n s (tmap n f t).
Proof.
  revert s t. induction n as [|n IH]; intros s t Ht; [done |].
  destruct s as [|d s]; [done |]. destruct Ht as [Hd Ht]. split.
  - exact (eq_trans (length_fmap (tmap n f) t) Hd).
  - cbn [tmap]. apply Forall_fmap. eapply Forall_impl; [exact Ht |]. intros a. apply IH.
Qed.

Lemma reduce_window_has_shape {R} (op : R → R → R) (init : option R) (qy Kh qx Kw : nat)
    (b : tensor R 4) :
  0 < Kh → 0 < Kw → has_shape 4 [qy; Kh; qx; Kw] b →
  ∃ r, reduce_window op init b = Ok r ∧ has_shape 2 [qy; qx] r.
Proof.
  intros HKh HKw Hb. unfold reduce_window.
  destruct (liftM_has_shape 3 1 0 (reduce0 op init 0) [qy; Kh; qx] [Kw] [] b)
    as (t3 & Ht3 & Hst3); [done | | done |].
  { intros m Hm. by apply (reduce0_has_shape op init 0 Kw []). }
  rewrite Ht3, bind_ret.
  apply (liftM_has_shape 1 2 1 (reduce0 op init 1) [qy] [Kh; qx] [qx]); [done | | done].
  intros m Hm. by apply (reduce0_has_shape op init 1 Kh [qx]).
Qed.

Lemma crop_has_shape {A} (Hn Wn ty tx : nat) (m : tensor A 2) :
  ty ≤ Hn → tx ≤ Wn → has_shape 2 [Hn; Wn] m →
  has_shape 2 [ty; tx] (take tx <$> take ty m : tensor A 2).
Proof.
  intros Hy Hx [HH HW]%has_shape_2. apply has_shape_2. split.
  - rewrite length_fmap, length_take. lia.
  - apply Forall_fmap. apply Forall_take. eapply Forall_impl; [exact HW |].
    intros r Hr. simpl in *. rewrite length_take. lia.
Qed.

Lemma foldr_mul_app (s1 s2 : list nat) :
  foldr Nat.mul 1 (s1 ++ s2) = foldr Nat.mul 1 s1 * foldr Nat.mul 1 s2.
Proof. induction s1 as [|d s1 IH]; simpl; [lia | rewrite IH; lia]. Qed.

Lemma dims_from_end_last2 {R} (n : nat) (s : list nat) (Hn Wn : nat) (t : tensor R (n + 2)) :
  length s = n → Forall (λ d, 0 < d) s → 0 < Hn → 0 < Wn →
  has_shape (n + 2) (s ++ [Hn; Wn]) t →
  shape (n + 2) t = s ++ [Hn; Wn]
  ∧ dim_from_end (n + 2) t 0 = Z.of_nat Wn
  ∧ dim_from_end (n + 2) t 1 = Z.of_nat Hn
  ∧ shape_but_last (n + 2) t 2 = Z.of_nat <$> s.
Proof.
  intros Hlen Hpos HH HW Ht.
  assert (shape (n + 2) t = s ++ [Hn; Wn]) as Hshape.
  { apply shape_has_shape; [rewrite length_app; simpl; lia | | done].
    apply Forall_app. split; [done | by repeat constructor]. }
  unfold dim_from_end, shape_but_last. rewrite Hshape. split; [done |].
  rewrite reverse_app. cbn [reverse rev_append app lookup list_lookup].
  change (reverse [Hn; Wn]) with [Wn; Hn]. split; [done |]. split; [done |].
  replace (n + 2 - 2) with (length s) by lia. by rewrite take_app_length.
Qed.

Lemma to_nat_of_nat_list (s : list nat) : Z.to_nat <$> (Z.of_nat <$> s) = s.
Proof.
  induction s as [|d s IH]; [done |]. rewrite !fmap_cons, IH. f_equal. lia.
Qed.

(** From a cropped tensor of shape (s..., qy * Kh, qx * Kw) to the windows
    and their reduction: the result has shape (s..., qy, qx). *)
Lemma pool_blocks_has_shape {R} (n : nat) (s : list nat) (qy Kh qx Kw : nat)
    (reduce : tensor R 4 → result (tensor R 2)) (x_trunc : tensor R (n + 2)) :
  length s = n →
  (∀ b, has_shape 4 [qy; Kh; qx; Kw] b → ∃ r, reduce b = Ok r ∧ has_shape 2 [qy; qx] r) →
  has_shape (n + 2) (s ++ [qy * Kh; qx * Kw]) x_trunc →
  ∃ blocks y,
    to_shape (n + 2) (n + 4) x_trunc
      ((Z.of_nat <$> s) ++ [Z.of_nat qy; Z.of_nat Kh; Z.of_nat qx; Z.of_nat Kw]) = Ok blocks
    ∧ liftM n (j := 4) (k := 2) reduce blocks = Ok y
    ∧ has_shape (n + 2) (s ++ [qy; qx]) y.
Proof.
  intros Hlen Hred Hx. unfold to_shape.
  rewrite decide_True.
  2: { apply Forall_app. split; [apply Forall_fmap, Forall_forall; intros; simpl; lia |].
       repeat constructor; lia. }
  rewrite fmap_app, to_nat_of_nat_list. cbn [fmap list_fmap]. rewrite !Nat2Z.id.
  destruct (unflatten_has_shape (n + 4) (s ++ [qy; Kh; qx; Kw]) (flatten (n + 2) x_trunc))
    as (blocks & Hblocks & Hsb).
  - rewrite length_app. simpl. lia.
  - rewrite (flatten_length (n + 2) (s ++ [qy * Kh; qx * Kw])); [| |done].
    + rewrite !foldr_mul_app. simpl. lia.
    + rewrite length_app. simpl. lia.
  - destruct (liftM_has_shape n 4 2 reduce s [qy; Kh; qx; Kw] [qy; qx] blocks Hlen Hred Hsb)
      as (y & Hy & Hsy).
    by exists blocks, y.
Qed.

(** The forward passes on a tensor of shape (s..., H, W) with a kernel
    (Kh, Kw) of positive sizes: both return a tensor of shape
    (s..., H // Kh, W // Kw) and store what their backward passes read. *)
Lemma pooling_forward_ok {R} `{Num R} (n : nat) (x : tensor R (n + 2)) (s : list nat)
    (Hn Wn Kh Kw : nat) :
  length s = n → Forall (λ d, 0 < d) s → 0 < Hn → 0 < Wn → 0 < Kh → 0 < Kw →
  has_shape (n + 2) (s ++ [Hn; Wn]) x →
  (∃ y, has_shape (n + 2) (s ++ [Hn / Kh; Wn / Kw]) y
        ∧ ∀ c, FMaxPooling2D.forward n c x (Z.of_nat Kh, Z.of_nat Kw)
               = Ok (setattr (setattr (setattr c "x" (VTensor x))
                                "kernel_size" (VPair (Z.of_nat Kh, Z.of_nat Kw)))
                       "y" (VTensor y), y))
  ∧ (∃ y, has_shape (n + 2) (s ++ [Hn / Kh; Wn / Kw]) y
          ∧ ∀ c, FAvgPooling2D.forward n c x (Z.of_nat Kh, Z.of_nat Kw)
                 = Ok (setattr (setattr c "x_shape" (VShape (shape (n + 2) x)))
                         "kernel_size" (VPair (Z.of_nat Kh, Z.of_nat Kw)), y)).
Proof.
  intros Hlen Hpos HH HW HKh HKw Hx.
  destruct (dims_from_end_last2 n s Hn Wn x Hlen Hpos HH HW Hx) as (_ & HdW & HdH & Hlead).
  set (qy := Hn / Kh). set (qx := Wn / Kw).
  assert (Z.of_nat Hn / Z.of_nat Kh = Z.of_nat qy)%Z as Hqy
    by (unfold qy; by rewrite Nat2Z.inj_div).
  assert (Z.of_nat Wn / Z.of_nat Kw = Z.of_nat qx)%Z as Hqx
    by (unfold qx; by rewrite Nat2Z.inj_div).
  assert (qy * Kh ≤ Hn) as Hty by (unfold qy; rewrite Nat.mul_comm; by apply Nat.Div0.mul_div_le).
  assert (qx * Kw ≤ Wn) as Htx by (unfold qx; rewrite Nat.mul_comm; by apply Nat.Div0.mul_div_le).
  assert (liftM n (j := 2) (k := 2)
            (λ m, getitem_slice2 m
                    (Slice None (Some (Z.of_nat qy * Z.of_nat Kh)%Z) None)
                    (Slice None (Some (Z.of_nat qx * Z.of_nat Kw)%Z) None)) x
          = Ok (lift n (j := 2) (k := 2)
                  (λ m : tensor R 2, (take (qx * Kw) <$> take (qy * Kh) m : tensor R 2)) x))
    as Hcut.
  { apply liftM_pure. intros m. rewrite getitem_slice2_prefix by lia.
    do 3 f_equal; lia. }
  assert (has_shape (n + 2) (s ++ [qy * Kh; qx * Kw])
            (lift n (j := 2) (k := 2)
               (λ m : tensor R 2, (take (qx * Kw) <$> take (qy * Kh) m : tensor R 2)) x))
    as Hcrop.
  { apply (lift_has_shape n 2 2 _ s [Hn; Wn]); [done | | done].
    intros m Hm. by apply (crop_has_shape Hn Wn). }
  set (xt := lift n (j := 2) (k := 2)
               (λ m : tensor R 2, (take (qx * Kw) <$> take (qy * Kh) m : tensor R 2)) x) in *.
  split.
  - destruct (pool_blocks_has_shape n s qy Kh qx Kw (reduce_window rmax None) xt Hlen)
      as (blocks & y & Hblocks & Hy & Hsy); [|done|].
    { intros b Hb. by apply (reduce_window_has_shape rmax None qy Kh qx Kw). }
    exists y. split; [done |]. intros c.
    unfold FMaxPooling2D.forward, floordiv.
    rewrite HdW, HdH, Hlead, Hqy, Hqx.
    rewrite !(proj2 (Z.eqb_neq _ 0)) by lia. rewrite !bind_ret.
    rewrite Hcut, bind_ret, Hblocks, bind_ret.
    assert (cp_max_window n blocks = Ok y) as -> by exact Hy. done.
  - destruct (pool_blocks_has_shape n s qy Kh qx Kw
                (λ b, let* s := reduce_window radd (Some rzero) b in
                      let count := (dim_from_end 4 b 2 * dim_from_end 4 b 0)%Z in
                      Ok (tmap 2 (λ v, rdiv v (rofZ count)) s)) xt Hlen)
      as (blocks & y & Hblocks & Hy & Hsy); [|done|].
    { intros b Hb.
      destruct (reduce_window_has_shape radd (Some rzero) qy Kh qx Kw b HKh HKw Hb)
        as (r & Hr & Hsr).
      rewrite Hr, bind_ret. eexists. split; [done |]. by apply tmap_has_shape. }
    exists y. split; [done |]. intros c.
    unfold FAvgPooling2D.forward, floordiv.
    rewrite HdW, HdH, Hlead, Hqy, Hqx.
    rewrite !(proj2 (Z.eqb_neq _ 0)) by lia. rewrite !bind_ret.
    rewrite Hcut, bind_ret, Hblocks, bind_ret.
    assert (mean_window n blocks = Ok y) as -> by exact Hy. done.
Qed.

(** Max and average pooling of a tensor of shape (s..., H, W) with a
    kernel (Kh, Kw) of positive sizes return a tensor of shape
    (s..., H // Kh, W // Kw), whether or not the kernel sizes divide H and
    W. *)
Theorem pooling_forward_shape {R} `{Num R} (n : nat) (x : tensor R (n + 2)) (s : list nat)
    (Hn Wn Kh Kw : nat) :
  length s = n → Forall (λ d, 0 < d) s → 0 < Hn → 0 < Wn → 0 < Kh → 0 < Kw →
  has_shape (n + 2) (s ++ [Hn; Wn]) x →
  (∃ y, maxpooling2d n x (Z.of_nat Kh, Z.of_nat Kw) = Ok y
        ∧ has_shape (n + 2) (s ++ [Hn / Kh; Wn / Kw]) y)
  ∧ (∃ y, avgpooling2d n x (Z.of_nat Kh, Z.of_nat Kw) = Ok y
          ∧ has_shape (n + 2) (s ++ [Hn / Kh; Wn / Kw]) y).
Proof.
  intros Hlen Hpos HH HW HKh HKw Hx.
  destruct (pooling_forward_ok n x s Hn Wn Kh Kw Hlen Hpos HH HW HKh HKw Hx)
    as [(y1 & Hs1 & Hf1) (y2 & Hs2 & Hf2)].
  split.
  - exists y1. split; [|done]. unfold maxpooling2d. by rewrite Hf1, bind_ret.
  - exists y2. split; [|done]. unfold avgpooling2d. by rewrite Hf2, bind_ret.
Qed.

Lemma pooling_forward_shape_witness :
  (∃ y, maxpooling2d (R := Z) 1
          ([[[1; 2; 3; 4; 5]; [6; 7; 8; 9; 10]; [11; 12; 13; 14; 15];
             [1; 1; 1; 1; 1]; [2; 2; 2; 2; 2]]]%Z : tensor Z (1 + 2)) (2, 3)%Z = Ok y
        ∧ has_shape 3 [1; 2; 1] y)
  ∧ (∃ y, avgpooling2d (R := Z) 1
            ([[[1; 2; 3; 4; 5]; [6; 7; 8; 9; 10]; [11; 12; 13; 14; 15];
               [1; 1; 1; 1; 1]; [2; 2; 2; 2; 2]]]%Z : tensor Z (1 + 2)) (2, 3)%Z = Ok y
          ∧ has_shape 3 [1; 2; 1] y).
Proof.
  apply (pooling_forward_shape (R := Z) 1
           ([[[1; 2; 3; 4; 5]; [6; 7; 8; 9; 10]; [11; 12; 13; 14; 15];
              [1; 1; 1; 1; 1]; [2; 2; 2; 2; 2]]]%Z : tensor Z (1 + 2)) [1] 5 5 2 3).
  - reflexivity.
  - repeat constructor.
  - lia.
  - lia.
  - lia.
  - lia.
  - simpl. repeat constructor.
Defined.

(** ** Pooling with a square kernel *)

Lemma normalize_axis_last2 (n : nat) :
  normalize_axis (n + 2) (-1) = Ok (n + 1) ∧ normalize_axis (n + 2) (-2) = Ok n.
Proof.
  unfold normalize_axis. cbn [Z.ltb Z.compare].
  rewrite !(proj2 (Z.ltb_ge _ 0)), !(proj2 (Z.leb_gt _ _)) by lia.
  cbn [orb]. split; f_equal; lia.
Qed.

Lemma repeat_axis_last {R} (n : nat) (reps : nat) (x : tensor R (n + 2)) :
  repeat_axis (n + 2) (n + 1) reps x
  = Ok (lift n (j := 2) (k := 2)
          (fmap (λ r : list R, r ≫= replicate reps) : tensor R 2 → tensor R 2) x).
Proof.
  induction n as [|n IH].
  - cbn [Nat.add repeat_axis lift].
    by rewrite (traverse_Ok_fmap (λ r : list R, r ≫= replicate reps)).
  - cbn [Nat.add repeat_axis lift].
    rewrite (traverse_ext _ (λ t, Ok (lift n (j := 2) (k := 2)
               (fmap (λ r : list R, r ≫= replicate reps) : tensor R 2 → tensor R 2) t)))
      by (apply Forall_forall; intros t _; apply IH).
    apply traverse_Ok_fmap.
Qed.

Lemma repeat_axis_rows {R} (n : nat) (reps : nat) (x : tensor R (n + 2)) :
  repeat_axis (n + 2) n reps x
  = Ok (lift n (j := 2) (k := 2)
          ((λ m, m ≫= replicate reps) : tensor R 2 → tensor R 2) x).
Proof.
  induction n as [|n IH]; [done |].
  cbn [Nat.add repeat_axis lift].
  rewrite (traverse_ext _ (λ t, Ok (lift n (j := 2) (k := 2)
             ((λ m, m ≫= replicate reps) : tensor R 2 → tensor R 2) t)))
    by (apply Forall_forall; intros t _; apply IH).
  apply traverse_Ok_fmap.
Qed.

Lemma lift_lift {A B C} (n i j k : nat) (f : tensor B j → tensor C k)
    (g : tensor A i → tensor B j) (x : tensor A (n + i)) :
  lift n f (lift n g x) = lift n (λ m, f (g m)) x.
Proof.
  induction n as [|n IH]; [done |]. cbn [lift].
  rewrite <- list_fmap_compose. apply list_fmap_ext. intros ? a _. apply IH.
Qed.

Lemma length_bind_replicate {A} (K : nat) (l : list A) :
  length (l ≫= replicate K) = length l * K.
Proof.
  induction l as [|a l IH]; [done |].
  rewrite bind_cons, length_app, length_replicate, IH. simpl. lia.
Qed.

Lemma lookup_bind_replicate {A} (K : nat) (l : list A) (i : nat) :
  0 < K → (l ≫= replicate K) !! i = l !! (i / K).
Proof.
  intros HK. revert i. induction l as [|a l IH]; intros i; [done |].
  rewrite bind_cons. destruct (decide (i < K)) as [Hi|Hi].
  - rewrite lookup_app_l by (by rewrite length_replicate).
    rewrite Nat.div_small by done. simpl. by apply lookup_replicate_2.
  - rewrite lookup_app_r by (rewrite length_replicate; lia).
    rewrite length_replicate, IH.
    replace i with ((i - K) + 1 * K) at 2 by lia.
    rewrite Nat.div_add by lia. by rewrite Nat.add_1_r.
Qed.

Lemma upsample_matrix_has_shape {R} (K h w : nat) (m : tensor R 2) :
  has_shape 2 [h; w] m → has_shape 2 [h * K; w * K] (upsample_matrix K m).
Proof.
  intros [Hh Hw]%has_shape_2. apply has_shape_2. unfold upsample_matrix. split.
  - by rewrite length_bind_replicate, length_fmap, Hh.
  - apply Forall_forall. intros r Hr.
    apply list_elem_of_lookup in Hr as [i Hi].
    destruct (decide (K = 0)) as [->|HK].
    { rewrite lookup_ge_None_2 in Hi; [done |]. rewrite length_bind_replicate. lia. }
    rewrite lookup_bind_replicate, list_lookup_fmap in Hi by lia.
    apply fmap_Some in Hi as (r0 & Hr0 & ->).
    rewrite length_bind_replicate. f_equal.
    by apply (Forall_lookup_1 _ _ _ _ Hw Hr0).
Qed.

(** [upsample2d] with the factors (K, K) and the target shape
    (s..., h * K, w * K), on a tensor of shape (s..., h, w): every element is
    repeated [K] times along both trailing axes, and nothing is padded. *)
Lemma upsample2d_square {R} `{Num R} (n : nat) (t : tensor R (n + 2)) (s : list nat)
    (h w K : nat) :
  length s = n → Forall (λ d, 0 < d) s → 0 < h → 0 < w → 0 < K →
  has_shape (n + 2) (s ++ [h; w]) t →
  upsample2d (n + 2) t (Z.of_nat K, Z.of_nat K) (s ++ [h * K; w * K])
  = Ok (lift n (j := 2) (k := 2) (upsample_matrix K) t).
Proof.
  intros Hlen Hpos Hh Hw HK Ht. unfold upsample2d, FUpsample2D.forward, repeat.
  destruct (normalize_axis_last2 n) as [-> ->].
  rewrite !(proj2 (Z.ltb_ge _ 0)) by lia. rewrite !bind_ret, Nat2Z.id.
  rewrite repeat_axis_last, !bind_ret, repeat_axis_rows, bind_ret, lift_lift.
  change (λ m : tensor R 2, (fmap (λ r : list R, r ≫= replicate K) m) ≫= replicate K)
    with (upsample_matrix (R := R) K).
  rewrite decide_True; [done |].
  apply shape_has_shape.
  - rewrite length_app. simpl. lia.
  - apply Forall_app. split; [done |]. repeat constructor; nia.
  - apply (lift_has_shape n 2 2 _ s [h; w]); [done | | done].
    intros m. apply upsample_matrix_has_shape.
Qed.

Lemma broadcast_op_same_shape {R} (n : nat) (op : R → R → R) (s : list nat)
    (a b : tensor R n) :
  has_shape n s a → has_shape n s b → broadcast_op n op a b = Ok (tzip n op a b).
Proof.
  revert s a b. induction n as [|n IH]; intros s a b Ha Hb; [done |].
  destruct s as [|d s]; [done |]. destruct Ha as [Hla Ha], Hb as [Hlb Hb].
  cbn [broadcast_op tzip]. rewrite decide_True by exact (eq_trans Hla (eq_sym Hlb)).
  clear Hla Hlb. revert b Hb.
  induction Ha as [|a0 a Ha0 _ IHa]; intros [|b0 b] Hb; [done.. |].
  apply Forall_cons in Hb as [Hb0 Hb].
  cbn [zip zip_with traverse]. cbn [fst snd].
  rewrite (IH s a0 b0 Ha0 Hb0), bind_ret.
  exact (f_equal (λ r, let* bs := r in Ok (tzip n op a0 b0 :: bs)) (IHa b Hb)).
Qed.

(** Average pooling with a square kernel (K, K) on a tensor whose two
    trailing sizes are multiples of K: the backward pass repeats every
    element of the incoming gradient K times along both trailing axes and
    divides it by the window area K * K. *)
Theorem avgpool_backward_square {R} `{Num R} (n : nat) (x dy : tensor R (n + 2))
    (s : list nat) (h w K : nat) :
  length s = n → Forall (λ d, 0 < d) s → 0 < h → 0 < w → 0 < K →
  has_shape (n + 2) (s ++ [h * K; w * K]) x →
  has_shape (n + 2) (s ++ [h; w]) dy →
  ∃ c y,
    FAvgPooling2D.forward n (new_cache _) x (Z.of_nat K, Z.of_nat K) = Ok (c, y)
    ∧ has_shape (n + 2) (s ++ [h; w]) y
    ∧ FAvgPooling2D.backward n c dy
      = Ok (tmap (n + 2) (λ v, rdiv v (rofZ (Z.of_nat K * Z.of_nat K)))
              (lift n (j := 2) (k := 2) (upsample_matrix K) dy)).
Proof.
  intros Hlen Hpos Hh Hw HK Hx Hdy.
  destruct (pooling_forward_ok n x s (h * K) (w * K) K K) as [_ (y & Hsy & Hf)];
    [done | done | nia | nia | done | done | done |].
  rewrite !Nat.div_mul in Hsy by lia.
  eexists _, y. split; [apply Hf |]. split; [done |].
  unfold FAvgPooling2D.backward.
  rewrite getattr_setattr_ne, !getattr_setattr by done.
  assert (shape (n + 2) x = s ++ [h * K; w * K]) as ->.
  { apply shape_has_shape; [rewrite length_app; simpl; lia | | done].
    apply Forall_app. split; [done |]. repeat constructor; nia. }
  by rewrite upsample2d_square, bind_ret.
Qed.

Lemma avgpool_backward_square_witness :
  ∃ c y,
    FAvgPooling2D.forward (R := Z) 0 (new_cache _) [[1; 2]; [3; 6]]%Z (2, 2)%Z = Ok (c, y)
    ∧ has_shape 2 [1; 1] y
    ∧ FAvgPooling2D.backward 0 c [[8]]%Z
      = Ok (tmap 2 (λ v, rdiv v (rofZ (2 * 2)))
              (lift 0 (j := 2) (k := 2) (upsample_matrix 2) ([[8]]%Z : tensor Z (0 + 2)))).
Proof.
  apply (avgpool_backward_square (R := Z) 0
           ([[1; 2]; [3; 6]]%Z : tensor Z (0 + 2)) ([[8]]%Z : tensor Z (0 + 2)) [] 1 1 2).
  - reflexivity.
  - constructor.
  - lia.
  - lia.
  - lia.
  - simpl. repeat constructor.
  - simpl. repeat constructor.
Defined.

(** Max pooling with a square kernel (K, K) on a tensor whose two trailing
    sizes are multiples of K: the backward pass multiplies the gradient of
    every window, repeated over the window, by 1 at every position that
    holds the window's pooled value and by 0 elsewhere; several positions of
    a window holding that value all receive the gradient. *)
Theorem maxpool_backward_square {R} `{Num R} (n : nat) (x dy : tensor R (n + 2))
    (s : list nat) (h w K : nat) :
  length s = n → Forall (λ d, 0 < d) s → 0 < h → 0 < w → 0 < K →
  has_shape (n + 2) (s ++ [h * K; w * K]) x →
  has_shape (n + 2) (s ++ [h; w]) dy →
  ∃ c y,
    FMaxPooling2D.forward n (new_cache _) x (Z.of_nat K, Z.of_nat K) = Ok (c, y)
    ∧ has_shape (n + 2) (s ++ [h; w]) y
    ∧ FMaxPooling2D.backward n c dy
      = Ok (tzip (n + 2) rmul
              (lift n (j := 2) (k := 2) (upsample_matrix K) dy)
              (tzip (n + 2) (λ a b, of_bool (reqb a b)) x
                 (lift n (j := 2) (k := 2) (upsample_matrix K) y))).
Proof.
  intros Hlen Hpos Hh Hw HK Hx Hdy.
  destruct (pooling_forward_ok n x s (h * K) (w * K) K K) as [(y & Hsy & Hf) _];
    [done | done | nia | nia | done | done | done |].
  rewrite !Nat.div_mul in Hsy by lia.
  eexists _, y. split; [apply Hf |]. split; [done |].
  unfold FMaxPooling2D.backward.
  rewrite getattr_setattr, (getattr_setattr_ne _ "y" "kernel_size"),
    getattr_setattr, !(getattr_setattr_ne _ _ "x"), getattr_setattr by done.
  assert (shape (n + 2) x = s ++ [h * K; w * K]) as ->.
  { apply shape_has_shape; [rewrite length_app; simpl; lia | | done].
    apply Forall_app. split; [done |]. repeat constructor; nia. }
  rewrite !upsample2d_square, !bind_ret by done.
  assert (∀ t : tensor R (n + 2), has_shape (n + 2) (s ++ [h; w]) t →
            has_shape (n + 2) (s ++ [h * K; w * K])
              (lift n (j := 2) (k := 2) (upsample_matrix K) t)) as Hups.
  { intros t Ht. apply (lift_has_shape n 2 2 _ s [h; w]); [done | | done].
    intros m. apply upsample_matrix_has_shape. }
  rewrite (broadcast_op_same_shape _ _ (s ++ [h * K; w * K])), bind_ret by auto.
  apply (broadcast_op_same_shape _ _ (s ++ [h * K; w * K])); [auto |].
  apply tzip_has_shape; auto.
Qed.

Lemma maxpool_backward_square_witness :
  ∃ c y,
    FMaxPooling2D.forward (R := Z) 0 (new_cache _) [[6; 2]; [3; 6]]%Z (2, 2)%Z = Ok (c, y)
    ∧ has_shape 2 [1; 1] y
    ∧ FMaxPooling2D.backward 0 c [[8]]%Z
      = Ok (tzip 2 rmul
              (lift 0 (j := 2) (k := 2) (upsample_matrix 2) ([[8]]%Z : tensor Z (0 + 2)))
              (tzip 2 (λ a b, of_bool (reqb a b)) ([[6; 2]; [3; 6]]%Z : tensor Z 2)
                 (lift 0 (j := 2) (k := 2) (upsample_matrix 2) y))).
Proof.
  apply (maxpool_backward_square (R := Z) 0
           ([[6; 2]; [3; 6]]%Z : tensor Z (0 + 2)) ([[8]]%Z : tensor Z (0 + 2)) [] 1 1 2).
  - reflexivity.
  - constructor.
  - lia.
  - lia.
  - lia.
  - simpl. repeat constructor.
  - simpl. repeat constructor.
Defined.

(** ** Pooling with a kernel that is not square (C6, C7, C8) *)

(** C6. Max pooling of a 5×3 input with the kernel (3, 2): the one window
    covers rows 0–2 and columns 0–1, and its maximum 9 stands at the two
    positions (2, 0) and (2, 1). The backward function of [FMaxPooling2D]
    gives both positions the gradient 0 (the whole gradient is zero): the
    upsampling repeats the kernel height along the width and the kernel
    width along the height. [maxpooling2d] of [functional.py], whose
    upsampling repeats along the matching axes, gives both positions the
    window's gradient 1. *)
Theorem maxpool_tie_nonsquare :
  (let* cy := FMaxPooling2D.forward (R := Z) 0 (new_cache _)
                [[1; 2; 3]; [4; 5; 6]; [9; 9; 7]; [1; 1; 1]; [2; 2; 2]]%Z (3, 2)%Z in
   let* dx := FMaxPooling2D.backward 0 cy.1 [[1]]%Z in Ok (cy.2, dx))
  = Ok ([[9]]%Z, [[0; 0; 0]; [0; 0; 0]; [0; 0; 0]; [0; 0; 0]; [0; 0; 0]]%Z)
  ∧ (let* yb := Functional.maxpooling2d (R := Z)
                  [[[[1; 2; 3]; [4; 5; 6]; [9; 9; 7]; [1; 1; 1]; [2; 2; 2]]]]%Z (3, 2)%Z true in
     match yb.2 with
     | Some backward => backward [[[[1]]]]%Z
     | None => Err TypeError
     end)
    = Ok [[[[0; 0; 0]; [0; 0; 0]; [1; 1; 0]; [0; 0; 0]; [0; 0; 0]]]]%Z.
Proof. split; vm_compute; reflexivity. Qed.

(** C7. Pooling of a 5×3 input with the kernel (3, 2) has the output shape
    (5 // 3, 3 // 2) = (1, 1), and column 2 and rows 3–4 are the truncated
    remainder. The backward function of [FAvgPooling2D] gives the truncated
    positions (0, 2) and (1, 2) the gradient 12 / 6 = 2, and the backward
    function of [FMaxPooling2D] gives them the gradient 1 when they hold the
    window's maximum. *)
Theorem pool_truncation_nonsquare :
  (let* cy := FAvgPooling2D.forward (R := Z) 0 (new_cache _)
                [[1; 1; 1]; [1; 1; 1]; [1; 1; 1]; [1; 1; 1]; [1; 1; 1]]%Z (3, 2)%Z in
   let* dx := FAvgPooling2D.backward 0 cy.1 [[12]]%Z in Ok (cy.2, dx))
  = Ok ([[1]]%Z, [[2; 2; 2]; [2; 2; 2]; [0; 0; 0]; [0; 0; 0]; [0; 0; 0]]%Z)
  ∧ (let* cy := FMaxPooling2D.forward (R := Z) 0 (new_cache _)
                  [[1; 9; 9]; [4; 5; 9]; [3; 3; 7]; [1; 1; 1]; [2; 2; 2]]%Z (3, 2)%Z in
     let* dx := FMaxPooling2D.backward 0 cy.1 [[1]]%Z in Ok (cy.2, dx))
    = Ok ([[9]]%Z, [[0; 1; 1]; [0; 0; 1]; [0; 0; 0]; [0; 0; 0]; [0; 0; 0]]%Z).
Proof. split; vm_compute; reflexivity. Qed.

(** C8. Average pooling of a 2×2 input with the kernel (2, 1) has the 1×2
    output; for the incoming gradient [12, 24] every input position of
    column 0 should receive 12 / 2 = 6 and every position of column 1
    should receive 24 / 2 = 12. [FUpsample2D] repeats the gradient twice
    along the width and once along the height, to the 1×4 tensor
    [12, 12, 24, 24], which does not fit the 2×2 target: the backward
    function of [FAvgPooling2D] raises. [avgpooling2d] of [functional.py]
    returns the expected gradient. *)
Theorem avgpool_backward_nonsquare :
  (let* x := repeat (R := Z) 2 [[12; 24]]%Z 2 (-1) in repeat 2 x 1 (-2))
  = Ok [[12; 12; 24; 24]]%Z
  ∧ (let* cy := FAvgPooling2D.forward (R := Z) 0 (new_cache _) [[1; 2]; [3; 4]]%Z (2, 1)%Z in
     Ok cy.2)
    = Ok [[2; 3]]%Z
  ∧ (let* cy := FAvgPooling2D.forward (R := Z) 0 (new_cache _) [[1; 2]; [3; 4]]%Z (2, 1)%Z in
     FAvgPooling2D.backward 0 cy.1 [[12; 24]]%Z)
    = Err ValueError
  ∧ (let* yb := Functional.avgpooling2d (R := Z) [[[[1; 2]; [3; 4]]]]%Z (2, 1)%Z true in
     match yb.2 with
     | Some backward => backward [[[[12; 24]]]]%Z
     | None => Err TypeError
     end)
    = Ok [[[[6; 12]; [6; 12]]]]%Z.
Proof. repeat split; vm_compute; reflexivity. Qed.

(** ** Embedding lookup *)

Lemma traverse_one_hot_row {R} `{Num R} (V : nat) (r : list Z) :
  in_table V r → traverse (one_hot_row V) r = Ok (unit_vector V <$> r).
Proof.
  intros Hr. rewrite <- traverse_Ok_fmap. apply traverse_ext.
  eapply Forall_impl; [exact Hr |]. intros i Hi. simpl in Hi. unfold one_hot_row.
  rewrite (proj2 (Z.leb_le 0 i)), (proj2 (Z.ltb_lt i _)) by lia. done.
Qed.

Lemma traverse_getitem_int {A} (table : list A) (d : A) (r : list Z) :
  in_table (length table) r →
  traverse (getitem_int table) r = Ok ((λ i, default d (table !! Z.to_nat i)) <$> r).
Proof.
  intros Hr. rewrite <- traverse_Ok_fmap. apply traverse_ext.
  eapply Forall_impl; [exact Hr |]. intros i Hi. simpl in Hi. unfold getitem_int.
  rewrite !(proj2 (Z.ltb_ge i 0)) by lia.
  destruct (lookup_lt_is_Some_2 table (Z.to_nat i)) as [a Ha]; [lia |].
  by rewrite Ha.
Qed.

Section one_hot_product.
Context {R : Type} `{Num R}.
Hypothesis mul_zero : ∀ a : R, rmul rzero a = rzero.
Hypothesis mul_one : ∀ a : R, rmul rone a = a.
Hypothesis add_zero_l : ∀ a : R, radd rzero a = a.
Hypothesis add_zero_r : ∀ a : R, radd a rzero = a.

Lemma foldl_unit_vector_miss (i : Z) (s : nat) (len : nat) (col : list R) (acc : R) :
  (i < Z.of_nat s)%Z →
  foldl radd acc (zip_with rmul ((λ c, of_bool (Z.of_nat c =? i)%Z) <$> seq s len) col) = acc.
Proof.
  revert s col acc. induction len as [|len IH]; intros s col acc Hi; [done |].
  destruct col as [|a col]; [done |]. simpl.
  rewrite (proj2 (Z.eqb_neq _ i)) by lia. simpl.
  rewrite mul_zero, add_zero_r. apply IH. lia.
Qed.

Lemma foldl_unit_vector_hit (i : Z) (s : nat) (len : nat) (col : list R) :
  (Z.of_nat s ≤ i < Z.of_nat (s + len))%Z → length col = len →
  foldl radd rzero (zip_with rmul ((λ c, of_bool (Z.of_nat c =? i)%Z) <$> seq s len) col)
  = default rzero (col !! (Z.to_nat i - s)).
Proof.
  revert s col. induction len as [|len IH]; intros s col Hi Hcol; [lia |].
  destruct col as [|a col]; [done |]. simpl.
  destruct (decide (Z.of_nat s = i)) as [Hs|Hs].
  - rewrite (proj2 (Z.eqb_eq _ i)) by done. simpl.
    rewrite mul_one, add_zero_l. rewrite foldl_unit_vector_miss by lia.
    by replace (Z.to_nat i - s) with 0 by lia.
  - rewrite (proj2 (Z.eqb_neq _ i)) by done. simpl.
    rewrite mul_zero, add_zero_l. rewrite IH by (simpl in Hcol; lia).
    by replace (Z.to_nat i - s) with (S (Z.to_nat i - S s)) by lia.
Qed.

(** The product of a unit vector and a column is the column's element at
    the vector's index. *)
Lemma dot_unit_vector (V : nat) (i : Z) (col : list R) :
  (0 ≤ i < Z.of_nat V)%Z → length col = V →
  dot (unit_vector V i) col = default rzero (col !! Z.to_nat i).
Proof.
  intros Hi Hcol. unfold dot, unit_vector.
  rewrite foldl_unit_vector_hit by (done || lia). by rewrite Nat.sub_0_r.
Qed.

Lemma fmap_lookup_zip_with_cons (r : list R) (cols : list (list R)) (i : nat) :
  (λ c, default rzero (c !! S i)) <$> zip_with cons r cols
  = (λ c, default rzero (c !! i)) <$> take (length r) cols.
Proof.
  revert cols. induction r as [|a r IH]; intros [|c cols]; simpl; try done.
  by rewrite IH.
Qed.

Lemma fmap_head_zip_with_cons (r : list R) (cols : list (list R)) :
  length cols = length r →
  (λ c, default rzero (c !! 0)) <$> zip_with cons r cols = r.
Proof.
  revert cols. induction r as [|a r IH]; intros [|c cols] Hlen; simpl in *; try done.
  rewrite IH by lia. done.
Qed.

(** Row [i] of a rectangular matrix, read off the columns of its
    transpose. *)
Lemma transpose_column (q : nat) (m : list (list R)) (i : nat) :
  Forall (λ r, length r = q) m → i < length m →
  (λ c, default rzero (c !! i)) <$> transpose m = default [] (m !! i).
Proof.
  revert i. induction m as [|r m IH]; intros i Hm Hi; [simpl in Hi; lia |].
  apply Forall_cons in Hm as [Hr Hm].
  destruct m as [|r' m].
  - destruct i; [|simpl in Hi; lia]. simpl.
    rewrite <- list_fmap_compose. apply list_fmap_id.
  - destruct (transpose_shape q (r' :: m)) as [Hlen _]; [done.. |].
    change (transpose (r :: r' :: m)) with (zip_with cons r (transpose (r' :: m))).
    destruct i as [|i].
    + change (default [] ((r :: r' :: m) !! 0)) with r.
      apply fmap_head_zip_with_cons. exact (eq_trans Hlen (eq_sym Hr)).
    + rewrite fmap_lookup_zip_with_cons.
      rewrite take_ge by (rewrite Hlen, Hr; done).
      change (default [] ((r :: r' :: m) !! S i)) with (default [] ((r' :: m) !! i)).
      apply IH; [done | simpl in *; lia].
Qed.

(** One-hot rows times the table are the table rows the indices select. *)
Lemma matmul_one_hot (V E : nat) (table : tensor R 2) (r : list Z) :
  has_shape 2 [V; E] table → in_table V r →
  matmul (unit_vector V <$> r : tensor R 2) table
  = Ok ((λ i, default [] (table !! Z.to_nat i)) <$> r).
Proof.
  intros [HV Ht]%has_shape_2 Hr. unfold matmul.
  rewrite decide_True.
  2: { apply Forall_fmap, Forall_forall. intros i _. simpl.
       unfold unit_vector. by rewrite length_fmap, length_seq. }
  f_equal. rewrite <- list_fmap_compose. apply Forall_fmap_ext.
  eapply Forall_impl; [exact Hr |]. intros i Hi. simpl in Hi. simpl.
  destruct (decide (V = 0)) as [->|HV0]; [lia |].
  destruct (transpose_shape E table) as [_ Hcols];
    [by destruct table; simpl in *; try lia | done |].
  rewrite <- (transpose_column E table (Z.to_nat i)) by (done || lia).
  apply Forall_fmap_ext. eapply Forall_impl; [exact Hcols |].
  intros c Hc. simpl in Hc. apply dot_unit_vector; [done | lia].
Qed.
End one_hot_product.

Lemma liftM_lift_compose {A B C} (n i j k : nat) (f : tensor B j → result (tensor C k))
    (g : tensor A i → tensor B j) (x : tensor A (n + i)) :
  liftM n f (lift n g x) = liftM n (λ m, f (g m)) x.
Proof.
  induction n as [|n IH]; [done |]. cbn [liftM lift].
  induction x as [|a x IHx]; [done |].
  rewrite fmap_cons. cbn [traverse]. by rewrite IH, IHx.
Qed.

Lemma all_rows_in_table_one_hot {R} `{Num R} (n : nat) (V : nat) (idx : tensor Z (n + 1)) :
  all_rows n (in_table V) idx →
  one_hot_encode n idx V
  = Ok (lift n (j := 1) (k := 2) (fmap (unit_vector V) : tensor Z 1 → tensor R 2) idx).
Proof.
  intros Hidx. unfold one_hot_encode.
  apply (liftM_all_rows n 2 _ _ (in_table V)); [|done].
  intros r Hr. by apply traverse_one_hot_row.
Qed.

(** The forward functions on indices inside the table: [EmbeddingFn]
    returns the table rows the indices select and records the indices, and
    the product [one_hot(x) @ table], which [lookup_embedding] returns, is
    the same tensor. The element type satisfies [0 * a = 0], [1 * a = a],
    [0 + a = a] and [a + 0 = a]. *)
Theorem embedding_forward_gather {R} `{Num R} (n : nat) (x : IndexTensor (n + 1))
    (table : tensor R 2) (V E : nat)
    (c : EmbeddingFuncs.FunctionCache (IndexTensor (n + 1) * list nat)) :
  (∀ a : R, rmul rzero a = rzero) → (∀ a : R, rmul rone a = a) →
  (∀ a : R, radd rzero a = a) → (∀ a : R, radd a rzero = a) →
  is_integer (index_dtype x) = true →
  has_shape 2 [V; E] table →
  all_rows n (in_table V) (indices x) →
  EmbeddingFuncs.EmbeddingFn.forward n c x table
  = Ok (EmbeddingFuncs.push c (x, shape 2 table),
        lift n (j := 1) (k := 2)
          (fmap (λ i, default [] (table !! Z.to_nat i)) : tensor Z 1 → tensor R 2)
          (indices x))
  ∧ (let* oh := one_hot_encode n (indices x) V in
     liftM n (j := 2) (k := 2) (λ m, matmul m table) oh)
    = Ok (lift n (j := 1) (k := 2)
            (fmap (λ i, default [] (table !! Z.to_nat i)) : tensor Z 1 → tensor R 2)
            (indices x))
  ∧ (index_dtype x ∈ [int32; int64] →
     ∀ rg, ∃ backward,
       Functional.lookup_embedding n x (mkTensor table rg) true
       = Ok (lift n (j := 1) (k := 2)
               (fmap (λ i, default [] (table !! Z.to_nat i)) : tensor Z 1 → tensor R 2)
               (indices x), Some backward)).
Proof.
  intros Hm0 Hm1 Ha0l Ha0r Hint Ht Hidx.
  assert (length table = V) as HV by (by apply has_shape_2 in Ht as [? _]).
  assert ((let* oh := one_hot_encode n (indices x) V in
           liftM n (j := 2) (k := 2) (λ m, matmul m table) oh)
          = Ok (lift n (j := 1) (k := 2)
                  (fmap (λ i, default [] (table !! Z.to_nat i)) : tensor Z 1 → tensor R 2)
                  (indices x))) as Hprod.
  { rewrite all_rows_in_table_one_hot by done. rewrite bind_ret.
    rewrite liftM_lift_compose.
    apply (liftM_all_rows n 2 _ _ (in_table V)); [|done].
    intros r Hr. by apply (matmul_one_hot Hm0 Hm1 Ha0l Ha0r V E). }
  split; [|split; [exact Hprod |]].
  - unfold EmbeddingFuncs.EmbeddingFn.forward. rewrite Hint. cbn [negb].
    rewrite (liftM_all_rows n 2 _
               (fmap (λ i, default [] (table !! Z.to_nat i)) : tensor Z 1 → tensor R 2)
               (in_table V)); [done | | done].
    intros r Hr. apply traverse_getitem_int. by rewrite HV.
  - intros Hdt rg. eexists. unfold Functional.lookup_embedding.
    rewrite bool_decide_eq_true_2 by done. cbn [negb data].
    rewrite HV. rewrite all_rows_in_table_one_hot by done. rewrite bind_ret.
    rewrite all_rows_in_table_one_hot, bind_ret in Hprod by done.
    rewrite Hprod, bind_ret. done.
Qed.

Lemma embedding_forward_gather_witness :
  EmbeddingFuncs.EmbeddingFn.forward (R := Z) 0 (EmbeddingFuncs.new_cache _)
    (mkIndex (n := 1) int64 [0; 2; 1]%Z) [[10; 11]; [20; 21]; [30; 31]]%Z
  = Ok (EmbeddingFuncs.push (EmbeddingFuncs.new_cache _)
          (mkIndex (n := 1) int64 [0; 2; 1]%Z, [3; 2]),
        [[10; 11]; [30; 31]; [20; 21]]%Z)
  ∧ (let* oh := one_hot_encode (R := Z) 0 [0; 2; 1]%Z 3 in
     liftM 0 (j := 2) (k := 2) (λ m, matmul m [[10; 11]; [20; 21]; [30; 31]]%Z) oh)
    = Ok [[10; 11]; [30; 31]; [20; 21]]%Z.
Proof.
  destruct (embedding_forward_gather (R := Z) 0 (mkIndex (n := 1) int64 [0; 2; 1]%Z)
              ([[10; 11]; [20; 21]; [30; 31]]%Z : tensor Z 2) 3 2
              (EmbeddingFuncs.new_cache _)) as (Hfw & Hoh & _).
  - intros a. reflexivity.
  - intros a. simpl. lia.
  - intros a. reflexivity.
  - intros a. simpl. lia.
  - reflexivity.
  - simpl. repeat constructor.
  - simpl. unfold in_table. repeat constructor; lia.
  - split; [exact Hfw | exact Hoh].
Defined.

(** The backward function of [EmbeddingFn] after its forward function, for
    an index tensor of shape (s..., T) with any number of leading axes and a
    gradient of shape (s..., T, E): both succeed, the cache is left as it
    was, and the result is the value of the source's computation, of the
    table's shape. *)
Lemma embedding_backward_ok {R} `{Num R} (n : nat) (x : IndexTensor (n + 1))
    (table : tensor R 2) (dy : tensor R (n + 2)) (s : list nat) (Tn V E : nat)
    (c : EmbeddingFuncs.FunctionCache (IndexTensor (n + 1) * list nat)) :
  EmbeddingFuncs.pseudo c = false →
  is_integer (index_dtype x) = true →
  length s = n → Forall (λ d, 0 < d) s → 0 < Tn →
  has_shape (n + 1) (s ++ [Tn]) (indices x) →
  all_rows n (in_table V) (indices x) →
  has_shape 2 [V; E] table →
  has_shape (n + 2) (s ++ [Tn; E]) dy →
  ∃ c1 y oh prod g,
    EmbeddingFuncs.EmbeddingFn.forward n c x table = Ok (c1, y)
    ∧ EmbeddingFuncs.EmbeddingFn.backward n c1 dy = Ok (c, g)
    ∧ one_hot_encode n (indices x) V = Ok oh
    ∧ lift2M n (i := 2) (j := 2) (k := 2) matmul (T_ n oh) dy = Ok prod
    ∧ sum_leading n (k := 2) prod = Ok g
    ∧ has_shape 2 [V; E] g.
Proof.
  intros Hc Hint Hlen Hpos HT Hx Hidx Ht Hdy.
  assert (length table = V) as HV by (by apply has_shape_2 in Ht as [? _]).
  set (oh := lift n (j := 1) (k := 2)
               (fmap (unit_vector V) : tensor Z 1 → tensor R 2) (indices x)).
  assert (has_shape (n + 2) (s ++ [V; Tn]) (T_ n oh)) as Hoh.
  { unfold T_. apply (lift_has_shape n 2 2 _ s [Tn; V] [V; Tn]); [done | |].
    - intros m Hm. by apply transpose_has_shape.
    - apply (lift_has_shape n 1 2 _ s [Tn] [Tn; V]); [done | | done].
      intros r Hr%has_shape_1. apply has_shape_2. split; [by rewrite length_fmap |].
      apply Forall_fmap, Forall_forall. intros i _. simpl.
      unfold unit_vector. by rewrite length_fmap, length_seq. }
  destruct (lift2M_has_shape n 2 2 2 matmul s [V; Tn] [Tn; E] [V; E] (T_ n oh) dy Hlen)
    as (prod & Hprod & Hsprod); [|done..|].
  { intros u v Hu Hv. by apply (matmul_has_shape V Tn E). }
  destruct (sum_leading_has_shape n 2 s [V; E] prod Hlen Hpos Hsprod) as (g & Hg & Hsg).
  assert (∃ y, liftM n (j := 1) (k := 2)
                 (traverse (getitem_int table) : tensor Z 1 → _) (indices x) = Ok y)
    as [y Hy].
  { eexists. apply (liftM_all_rows n 2 _
                      (fmap (λ i, default [] (table !! Z.to_nat i))
                       : tensor Z 1 → tensor R 2) (in_table V)); [|done].
    intros r Hr. apply traverse_getitem_int. by rewrite HV. }
  exists (EmbeddingFuncs.push c (x, shape 2 table)), y, oh, prod, g.
  split; [|split; [|split; [|done]]].
  - unfold EmbeddingFuncs.EmbeddingFn.forward. rewrite Hint. cbn [negb].
    by rewrite Hy.
  - unfold EmbeddingFuncs.EmbeddingFn.backward, EmbeddingFuncs.push, EmbeddingFuncs.pop.
    rewrite Hc. cbn [EmbeddingFuncs.items bind EmbeddingFuncs.pseudo].
    cbn [shape head default]. rewrite HV.
    rewrite all_rows_in_table_one_hot by done. rewrite bind_ret.
    unfold id. fold oh. rewrite Hprod, bind_ret, Hg, bind_ret.
    destruct c as [ps its]. simpl in Hc. by subst ps.
  - by apply all_rows_in_table_one_hot.
Qed.

(** ** Embedding of a one-axis index tensor (C9) *)

(** C9. For the indices [0, 0, 1] into a table of three rows,
    [lookup_embedding] returns the rows 0, 0 and 1, and [EmbeddingFn]
    returns the table gradient in which row 0 accumulates the two gradients
    [1, 2] and [3, 4], row 1 receives [5, 6] and row 2 is zero. The backward
    function of [lookup_embedding] sums over axis 0 whatever the rank and
    returns the two-element vector [9, 12], the sum of the rows of that
    table gradient; for the same indices with one batch axis in front it
    returns the table gradient. *)
Theorem lookup_embedding_rank1_backward :
  (let* yb := Functional.lookup_embedding (R := Z) 0 (mkIndex (n := 1) int64 [0; 0; 1]%Z)
                (mkTensor (n := 2) [[10; 11]; [20; 21]; [30; 31]]%Z true) true in
   match yb.2 with
   | Some backward => let* g := backward [[1; 2]; [3; 4]; [5; 6]]%Z in Ok (yb.1, g)
   | None => Err TypeError
   end)
  = Ok ([[10; 11]; [10; 11]; [20; 21]]%Z, Some [9; 12]%Z)
  ∧ (let* cy := EmbeddingFuncs.EmbeddingFn.forward (R := Z) 0 (EmbeddingFuncs.new_cache _)
                  (mkIndex (n := 1) int64 [0; 0; 1]%Z) [[10; 11]; [20; 21]; [30; 31]]%Z in
     let* cg := EmbeddingFuncs.EmbeddingFn.backward 0 cy.1 [[1; 2]; [3; 4]; [5; 6]]%Z in
     Ok (cy.2, cg.2))
    = Ok ([[10; 11]; [10; 11]; [20; 21]]%Z, [[4; 6]; [5; 6]; [0; 0]]%Z)
  ∧ (let* yb := Functional.lookup_embedding (R := Z) 1 (mkIndex (n := 2) int64 [[0; 0; 1]]%Z)
                  (mkTensor (n := 2) [[10; 11]; [20; 21]; [30; 31]]%Z true) true in
     match yb.2 with
     | Some backward => backward [[[1; 2]; [3; 4]; [5; 6]]]%Z
     | None => Err TypeError
     end)
    = Ok (Some [[4; 6]; [5; 6]; [0; 0]]%Z).
Proof. repeat split; vm_compute; reflexivity. Qed.

(** ** Padding of the last two axes, forward and backward *)

Lemma pad_row {R} `{Num R} (r : tensor R 1) (c d : Z) :
  (0 ≤ c)%Z → (0 ≤ d)%Z →
  pad 1 [(c, d)] r
  = Ok (replicate (Z.to_nat c) rzero ++ r ++ replicate (Z.to_nat d) rzero : tensor R 1).
Proof.
  intros Hc Hd. cbn [pad].
  rewrite (proj2 (Z.ltb_ge c 0)), (proj2 (Z.ltb_ge d 0)) by lia. cbn [orb].
  rewrite (traverse_Ok_fmap (λ t : R, t)), list_fmap_id, bind_ret.
  by destruct r.
Qed.

Lemma pad_matrix_eq {R} `{Num R} (m : tensor R 2) (a b c d : Z) :
  (0 ≤ a)%Z → (0 ≤ b)%Z → (0 ≤ c)%Z → (0 ≤ d)%Z →
  pad 2 [(a, b); (c, d)] m
  = Ok (pad_matrix (Z.to_nat a) (Z.to_nat b) (Z.to_nat c) (Z.to_nat d) m).
Proof.
  intros Ha Hb Hc Hd. cbn [pad].
  rewrite (proj2 (Z.ltb_ge a 0)), (proj2 (Z.ltb_ge b 0)) by lia. cbn [orb].
  rewrite (traverse_ext _ (λ r : tensor R 1,
             Ok (replicate (Z.to_nat c) rzero ++ r ++ replicate (Z.to_nat d) rzero
                 : tensor R 1)) m)
    by (apply Forall_forall; intros r _; by apply pad_row).
  rewrite (traverse_Ok_fmap
             (λ r : list R, replicate (Z.to_nat c) rzero ++ r ++ replicate (Z.to_nat d) rzero)),
    bind_ret.
  unfold pad_matrix.
  destruct ((λ r : list R, replicate (Z.to_nat c) rzero ++ r ++ replicate (Z.to_nat d) rzero)
              <$> m) as [|r0 rows] eqn:E.
  - simpl. done.
  - cbn [shape fmap list_fmap zeros].
    rewrite (proj2 (Z.ltb_ge _ 0)) by lia. rewrite Nat2Z.id. by destruct r0.
Qed.

(** [pad] with zero widths on the leading axes pads every matrix. *)
Lemma pad_last2_axes {R} `{Num R} (n : nat) (x : tensor R (n + 2)) (a b c d : Z) :
  (0 ≤ a)%Z → (0 ≤ b)%Z → (0 ≤ c)%Z → (0 ≤ d)%Z →
  pad (n + 2) (replicate n (0, 0)%Z ++ [(a, b); (c, d)]) x
  = Ok (lift n (j := 2) (k := 2)
          (pad_matrix (Z.to_nat a) (Z.to_nat b) (Z.to_nat c) (Z.to_nat d)) x).
Proof.
  intros Ha Hb Hc Hd.
  induction n as [|n IH]; [by apply pad_matrix_eq |].
  cbn [replicate app Nat.add pad lift]. cbn [Z.ltb Z.compare orb].
  rewrite (traverse_ext (pad (n + 2) (replicate n (0, 0)%Z ++ [(a, b); (c, d)]))
             (λ t, Ok (lift n (j := 2) (k := 2)
                         (pad_matrix (Z.to_nat a) (Z.to_nat b) (Z.to_nat c) (Z.to_nat d)) t)) x)
    by (apply Forall_forall; intros t _; apply IH).
  rewrite (traverse_Ok_fmap (lift n (j := 2) (k := 2)
             (pad_matrix (Z.to_nat a) (Z.to_nat b) (Z.to_nat c) (Z.to_nat d))) x), bind_ret.
  match goal with |- context [zeros (n + 2) (Z.of_nat <$> ?s)] =>
    destruct (zeros_has_shape (R := R) (n + 2) s) as (z & -> & _)
  end.
  { case_match; [apply length_replicate | apply shape_length]. }
  rewrite bind_ret. cbn [Z.to_nat replicate app]. by rewrite app_nil_r.
Qed.

(** [l[a : -b]] on a list with [a] elements before and [b ≥ 1] elements
    after the part [r]. *)
Lemma getitem_unpad2 {A} (pre r post : list A) (a b : Z) :
  (0 ≤ a)%Z → (0 < b)%Z → Z.of_nat (length pre) = a → Z.of_nat (length post) = b →
  getitem_slice (pre ++ r ++ post) (Slice (Some a) (Some (- b)%Z) None) = Ok r.
Proof.
  intros Ha Hb Hpre Hpost.
  set (l := pre ++ r ++ post).
  assert (Z.of_nat (length l) = a + Z.of_nat (length r) + b)%Z as Hl.
  { unfold l. rewrite !length_app. lia. }
  destruct (getitem_slice_pos l (Slice (Some a) (Some (- b)%Z) None))
    as (r' & Hr' & Hlen & Hget); [simpl; lia |].
  assert (slice_lo (Slice (Some a) (Some (- b)%Z) None) (length l) = a) as Hlo.
  { unfold slice_lo, adjust_index. simpl. repeat case_match; lia. }
  assert (slice_count (Slice (Some a) (Some (- b)%Z) None) (length l)
          = Z.of_nat (length r)) as Hcount.
  { unfold slice_count. rewrite Hlo. unfold slice_hi, adjust_index. simpl.
    repeat case_match; try lia. rewrite Z.div_1_r. lia. }
  rewrite Hr'. f_equal. apply list_eq. intros k.
  destruct (decide (k < length r)) as [Hk|Hk].
  - rewrite Hget by lia. rewrite Hlo. simpl. rewrite Z.mul_1_r.
    unfold l. rewrite lookup_app_r by lia.
    rewrite lookup_app_l by lia. f_equal. lia.
  - rewrite !lookup_ge_None_2; [done | lia..].
Qed.

(** [l[a : -0]] is [l[a : 0]]: nothing. *)
Lemma getitem_stop_zero {A} (l : list A) (a : Z) :
  (0 ≤ a)%Z → getitem_slice l (Slice (Some a) (Some (- 0)%Z) None) = Ok [].
Proof.
  intros Ha.
  destruct (getitem_slice_pos l (Slice (Some a) (Some (- 0)%Z) None))
    as (r' & Hr' & Hlen & _); [simpl; lia |].
  assert (slice_count (Slice (Some a) (Some (- 0)%Z) None) (length l) = 0%Z) as Hcount.
  { unfold slice_count, slice_lo, slice_hi, adjust_index. simpl. repeat case_match; lia. }
  rewrite Hr'. f_equal. apply nil_length_inv. lia.
Qed.

Lemma unpad_matrix {R} `{Num R} (m : tensor R 2) (a b c d : Z) :
  (0 ≤ a)%Z → (0 < b)%Z → (0 ≤ c)%Z → (0 < d)%Z →
  getitem_slice2 (pad_matrix (Z.to_nat a) (Z.to_nat b) (Z.to_nat c) (Z.to_nat d) m)
    (Slice (Some a) (Some (- b)%Z) None) (Slice (Some c) (Some (- d)%Z) None) = Ok m.
Proof.
  intros Ha Hb Hc Hd. unfold getitem_slice2, pad_matrix.
  rewrite getitem_unpad2 by (rewrite ?length_replicate; lia).
  rewrite bind_ret.
  induction m as [|r m IH]; [done |].
  rewrite fmap_cons. cbn [traverse].
  rewrite getitem_unpad2 by (rewrite ?length_replicate; lia).
  rewrite bind_ret, IH. done.
Qed.

(** [FPad2D] with the widths ((a, b), (c, d)), where the two end widths [b]
    and [d] are at least 1: the forward function puts [a] and [b] rows of
    zeros above and below and [c] and [d] zeros before and after every row
    of each matrix, and the backward function applied to the padded tensor
    gives the input back, whatever the number of leading axes and also for
    different widths at the two ends. *)
Theorem pad2d_roundtrip {R} `{Num R} {T : Type} (n : nat) (cache : FunctionCache T)
    (x : tensor R (n + 2)) (a b c d : Z) :
  pseudo cache = false → (0 ≤ a)%Z → (0 < b)%Z → (0 ≤ c)%Z → (0 < d)%Z →
  ∃ cache' y,
    FPad2D.forward n cache x ((a, b), (c, d)) = Ok (cache', y)
    ∧ y = lift n (j := 2) (k := 2)
            (pad_matrix (Z.to_nat a) (Z.to_nat b) (Z.to_nat c) (Z.to_nat d)) x
    ∧ FPad2D.backward n cache' y = Ok x.
Proof.
  intros Hcache Ha Hb Hc Hd.
  unfold FPad2D.forward. rewrite bool_decide_eq_false_2 by (intros [=]; lia).
  cbn [fst snd]. rewrite pad_last2_axes by lia. rewrite bind_ret.
  eexists _, _. split; [done |]. split; [done |].
  unfold FPad2D.backward.
  rewrite getattr_setattr_ne by done.
  rewrite getattr_setattr by done.
  rewrite getattr_setattr by (by rewrite pseudo_setattr).
  cbn [truthy fst snd].
  apply (liftM_lift_cancel n 2 2). intros m. by apply unpad_matrix.
Qed.

Lemma pad2d_roundtrip_witness :
  ∃ cache' y,
    FPad2D.forward (R := Z) 1 (new_cache unit)
      ([[[1; 2]; [3; 4]]]%Z : tensor Z (1 + 2)) ((1, 2), (0, 1))%Z = Ok (cache', y)
    ∧ y = [[[0; 0; 0]; [1; 2; 0]; [3; 4; 0]; [0; 0; 0]; [0; 0; 0]]]%Z
    ∧ FPad2D.backward 1 cache' y = Ok [[[1; 2]; [3; 4]]]%Z.
Proof.
  destruct (pad2d_roundtrip (R := Z) 1 (new_cache unit)
              ([[[1; 2]; [3; 4]]]%Z : tensor Z (1 + 2)) 1 2 0 1)
    as (c' & y & Hfw & Hy & Hbw).
  - reflexivity.
  - lia.
  - lia.
  - lia.
  - lia.
  - exists c', y. split; [exact Hfw |]. split; [exact Hy | exact Hbw].
Defined.

(** [FPad2D] with a bottom width of 0 and at least one other width that is
    not 0: the backward function reads the rows [a : -0], which is the
    empty range [a : 0], and returns matrices without rows instead of the
    input. *)
Theorem pad2d_zero_bottom_width {R} `{Num R} {T : Type} (n : nat) (cache : FunctionCache T)
    (x : tensor R (n + 2)) (a c d : Z) :
  pseudo cache = false → (0 ≤ a)%Z → (0 ≤ c)%Z → (0 ≤ d)%Z → (0 < a + c + d)%Z →
  ∃ cache' y,
    FPad2D.forward n cache x ((a, 0), (c, d))%Z = Ok (cache', y)
    ∧ FPad2D.backward n cache' y
      = Ok (lift n (j := 2) (k := 2) (λ _ : tensor R 2, [] : tensor R 2) x).
Proof.
  intros Hcache Ha Hc Hd Hne.
  unfold FPad2D.forward. rewrite bool_decide_eq_false_2 by (intros [=]; lia).
  cbn [fst snd]. rewrite pad_last2_axes by lia. rewrite bind_ret.
  eexists _, _. split; [done |].
  unfold FPad2D.backward.
  rewrite getattr_setattr_ne by done.
  rewrite getattr_setattr by done.
  rewrite getattr_setattr by (by rewrite pseudo_setattr).
  cbn [truthy fst snd].
  rewrite liftM_lift_compose. apply liftM_pure. intros m.
  unfold getitem_slice2. by rewrite getitem_stop_zero, bind_ret by done.
Qed.

Lemma pad2d_zero_bottom_width_witness :
  ∃ cache' y,
    FPad2D.forward (R := Z) 0 (new_cache unit)
      ([[1; 2]; [3; 4]]%Z : tensor Z (0 + 2)) ((0, 0), (1, 1))%Z = Ok (cache', y)
    ∧ FPad2D.backward 0 cache' y = Ok []%Z.
Proof.
  apply (pad2d_zero_bottom_width (R := Z) 0 (new_cache unit)
           ([[1; 2]; [3; 4]]%Z : tensor Z (0 + 2)) 0 1 1); [reflexivity | lia..].
Defined.

(** ** Dilation of the last two axes, forward and backward *)

(** Writing rows at distinct positions of a matrix, each with an operation
    that can fail: the rows named receive the result of the operation, and
    the others stay. *)
Lemma foldr_set_rows {A} (f : list A → list A → result (list A)) (y : list (list A))
    (l : list (Z * list A)) :
  NoDup ((λ iv, Z.to_nat iv.1) <$> l) →
  Forall (λ iv, ∃ r r', y !! Z.to_nat iv.1 = Some r ∧ f r iv.2 = Ok r') l →
  ∃ w, foldr (λ iv acc,
                let* acc := acc in
                match acc !! Z.to_nat iv.1 with
                | Some r => let* r' := f r iv.2 in Ok (<[Z.to_nat iv.1 := r']> acc)
                | None => Err IndexError
                end) (Ok y) l = Ok w
       ∧ length w = length y
       ∧ Forall (λ iv, ∃ r r', y !! Z.to_nat iv.1 = Some r ∧ f r iv.2 = Ok r'
                               ∧ w !! Z.to_nat iv.1 = Some r') l
       ∧ ∀ j, j ∉ ((λ iv, Z.to_nat iv.1) <$> l) → w !! j = y !! j.
Proof.
  induction l as [|[i v] l IH]; intros Hnd Hl.
  { exists y. split; [done |]. split; [done |]. split; [constructor | done]. }
  rewrite fmap_cons in Hnd. apply NoDup_cons in Hnd as [Hi Hnd].
  apply Forall_cons in Hl as [(r & r' & Hr & Hf) Hl].
  destruct (IH Hnd Hl) as (w & Hw & Hlw & Hrows & Hother).
  cbn [foldr]. rewrite Hw, bind_ret. cbn [fst snd] in *.
  rewrite (Hother _ Hi), Hr, Hf, bind_ret.
  eexists. split; [done |]. split; [by rewrite length_insert |]. split.
  - constructor.
    + exists r, r'. split; [done |]. split; [done |]. cbn [fst].
      apply list_lookup_insert_eq. rewrite Hlw. by eapply lookup_lt_Some.
    + apply Forall_forall. intros [i' v'] Hin.
      destruct (proj1 (Forall_forall _ _) Hrows _ Hin) as (r1 & r1' & Hr1 & Hf1 & Hw1).
      exists r1, r1'. split; [done |]. split; [done |]. cbn [fst] in *.
      rewrite list_lookup_insert_ne; [done |].
      intros Heq. apply Hi. rewrite Heq.
      apply (list_elem_of_fmap_2 (λ iv : Z * list A, Z.to_nat iv.1) _ _ Hin).
  - intros j Hj. rewrite fmap_cons in Hj. apply not_elem_of_cons in Hj as [Hji Hj].
    rewrite list_lookup_insert_ne by done. by apply Hother.
Qed.

(** [y[::d1, ::d2] = x] on a matrix [y] of [d1 * P - 1] rows of
    [d2 * Q - 1] elements and a value [x] of [P] rows of [Q] elements, and
    the reading [w[::d1, ::d2]] of the result. *)
Lemma setitem_getitem_step2 {A} (y x : list (list A)) (P Q : nat) (d1 d2 : Z) :
  (2 ≤ d1)%Z → (2 ≤ d2)%Z → 0 < P → 0 < Q →
  length x = P → Forall (λ r, length r = Q) x →
  length y = Z.to_nat (d1 * Z.of_nat P - 1) →
  Forall (λ r, length r = Z.to_nat (d2 * Z.of_nat Q - 1)) y →
  ∃ w, setitem_slice2 y (Slice None None (Some d1)) (Slice None None (Some d2)) x = Ok w
       ∧ length w = length y
       ∧ Forall (λ r, length r = Z.to_nat (d2 * Z.of_nat Q - 1)) w
       ∧ getitem_slice2 w (Slice None None (Some d1)) (Slice None None (Some d2)) = Ok x.
Proof.
  intros Hd1 Hd2 HP HQ Hx Hxr Hy Hyr. unfold setitem_slice2.
  rewrite slice_indices_pos by (simpl; lia). rewrite bind_ret.
  assert (slice_count (Slice None None (Some d1)) (length y) = Z.of_nat P) as Hcnt
    by (rewrite Hy; by apply slice_count_step).
  rewrite Hcnt. unfold slice_lo. cbn [start step default]. unfold id.
  set (idx := (λ k, 0 + k * d1)%Z <$> seqZ 0 (Z.of_nat P)).
  assert (length idx = P) as Hidx
    by (unfold idx; rewrite length_fmap, length_seqZ; lia).
  rewrite decide_True by (by rewrite Hidx). rewrite bind_ret.
  assert (∀ k i v, zip idx x !! k = Some (i, v) → i = (Z.of_nat k * d1)%Z ∧ x !! k = Some v)
    as Hzip.
  { intros k i v [Hi Hv]%lookup_zip_Some. simpl in Hi, Hv. split; [|done].
    unfold idx in Hi. rewrite list_lookup_fmap in Hi.
    destruct (seqZ 0 (Z.of_nat P) !! k) as [j|] eqn:Hj; [|done].
    apply lookup_seqZ in Hj as [-> _]. simpl in Hi. injection Hi as <-. lia. }
  destruct (foldr_set_rows (λ r v, setitem_slice r (Slice None None (Some d2)) v) y (zip idx x))
    as (w & Hw & Hlw & Hrows & Hother).
  { apply NoDup_alt. intros k1 k2 j Hk1 Hk2.
    rewrite list_lookup_fmap in Hk1, Hk2.
    destruct (zip idx x !! k1) as [[i1 v1]|] eqn:E1; [|done].
    destruct (zip idx x !! k2) as [[i2 v2]|] eqn:E2; [|done].
    apply Hzip in E1 as [-> _]. apply Hzip in E2 as [-> _].
    simpl in Hk1, Hk2. injection Hk1 as <-. injection Hk2 as Hk. nia. }
  { apply Forall_forall. intros [i v] [k Hk]%list_elem_of_lookup.
    pose proof (lookup_lt_Some _ _ _ Hk) as Hlt. rewrite length_zip, Hidx, Hx in Hlt.
    apply Hzip in Hk as [-> Hv]. cbn [fst snd].
    destruct (lookup_lt_is_Some_2 y (Z.to_nat (Z.of_nat k * d1))) as [r Hr]; [nia |].
    destruct (setitem_getitem_step r v d2) as (r' & Hr' & _ & _); [done | | |].
    - rewrite (Forall_lookup_1 _ _ _ _ Hxr Hv). done.
    - rewrite (Forall_lookup_1 _ _ _ _ Hyr Hr), (Forall_lookup_1 _ _ _ _ Hxr Hv). nia.
    - by exists r, r'. }
  exists w. split; [done |]. split; [done |].
  assert (∀ k v, x !! k = Some v →
            ∃ r r', y !! Z.to_nat (Z.of_nat k * d1) = Some r
                    ∧ setitem_slice r (Slice None None (Some d2)) v = Ok r'
                    ∧ w !! Z.to_nat (Z.of_nat k * d1) = Some r') as Hrow.
  { intros k v Hv.
    assert (zip idx x !! k = Some ((Z.of_nat k * d1)%Z, v)) as Hk.
    { apply lookup_zip_Some. split; [|done]. cbn [fst].
      apply lookup_lt_Some in Hv.
      unfold idx. rewrite list_lookup_fmap, lookup_seqZ_lt by lia.
      simpl; f_equal; lia. }
    exact (Forall_lookup_1 _ _ _ _ Hrows Hk). }
  split.
  - apply Forall_lookup. intros j r Hj.
    destruct (decide (j ∈ (λ iv : Z * list A, Z.to_nat iv.1) <$> zip idx x)) as [Hin|Hnin].
    + apply list_elem_of_fmap in Hin as ([i v] & -> & [k Hk]%list_elem_of_lookup).
      apply Hzip in Hk as [-> Hv]. cbn [fst] in Hj.
      destruct (Hrow k v Hv) as (r0 & r' & Hr0 & Hr' & Hw').
      rewrite Hw' in Hj. injection Hj as ->.
      destruct (setitem_getitem_step r0 v d2) as (r2 & Hr2 & Hl2 & _); [done | | |].
      * rewrite (Forall_lookup_1 _ _ _ _ Hxr Hv). done.
      * rewrite (Forall_lookup_1 _ _ _ _ Hyr Hr0), (Forall_lookup_1 _ _ _ _ Hxr Hv). nia.
      * rewrite Hr' in Hr2. injection Hr2 as ->.
        rewrite Hl2. exact (Forall_lookup_1 _ _ _ _ Hyr Hr0).
    + rewrite (Hother j Hnin) in Hj. exact (Forall_lookup_1 _ _ _ _ Hyr Hj).
  - unfold getitem_slice2.
    destruct (getitem_slice_pos w (Slice None None (Some d1))) as (rs & Hrs & Hlrs & Hget);
      [simpl; lia |].
    rewrite Hrs, bind_ret.
    rewrite Hlw, Hcnt in Hlrs.
    apply traverse_Ok_Forall2.
    apply Forall2_same_length_lookup. split; [lia |].
    intros k r v Hr Hv.
    rewrite Hget in Hr by (by eapply lookup_lt_Some).
    unfold slice_lo in Hr. cbn [start step default] in Hr. unfold id in Hr.
    rewrite Z.add_0_l in Hr.
    destruct (Hrow k v Hv) as (r0 & r' & Hr0 & Hr' & Hw').
    rewrite Hw' in Hr. injection Hr as <-.
    destruct (setitem_getitem_step r0 v d2) as (r2 & Hr2 & _ & Hg2); [done | | |].
    + rewrite (Forall_lookup_1 _ _ _ _ Hxr Hv). done.
    + rewrite (Forall_lookup_1 _ _ _ _ Hyr Hr0), (Forall_lookup_1 _ _ _ _ Hxr Hv). nia.
    + rewrite Hr' in Hr2. by injection Hr2 as ->.
Qed.

(** Dilation of the last two axes forward followed by dilation backward
    gives the input back, for factors [d1, d2 ≥ 2] and a tensor of shape
    (s..., P, Q) with positive extents; the dilated tensor has the shape
    (s..., d1 * P - 1, d2 * Q - 1). *)
Theorem dilation2d_roundtrip {R} `{Num R} {T : Type} (n : nat) (c : FunctionCache T)
    (x : tensor R (n + 2)) (s : list nat) (P Q : nat) (d1 d2 : Z) :
  pseudo c = false → length s = n → Forall (λ e, 0 < e) s → 0 < P → 0 < Q →
  (2 ≤ d1)%Z → (2 ≤ d2)%Z →
  has_shape (n + 2) (s ++ [P; Q]) x →
  ∃ c' y, FDilation2D.forward n c x (d1, d2) = Ok (c', y)
          ∧ has_shape (n + 2) (s ++ [Z.to_nat (d1 * Z.of_nat P - 1);
                                     Z.to_nat (d2 * Z.of_nat Q - 1)]) y
          ∧ FDilation2D.backward n c' y = Ok x.
Proof.
  intros Hc Hlen Hpos HP HQ Hd1 Hd2 Hx.
  unfold FDilation2D.forward. rewrite bool_decide_eq_false_2 by (intros [=]; lia).
  cbn [fst snd].
  destruct (dims_from_end_last2 n s P Q x Hlen Hpos HP HQ Hx) as (_ & -> & -> & ->).
  destruct (zeros_has_shape (R := R) (n + 2)
              (s ++ [Z.to_nat (d1 * Z.of_nat P - 1); Z.to_nat (d2 * Z.of_nat Q - 1)]))
    as (z & Hz & Hsz); [rewrite length_app; simpl; lia |].
  rewrite fmap_app in Hz. cbn [fmap list_fmap] in Hz. rewrite !Z2Nat.id in Hz by nia.
  rewrite Hz, bind_ret.
  destruct (lift2M_then_liftM n 2 2 2
              (λ ym xm, setitem_slice2 ym (Slice None None (Some d1))
                          (Slice None None (Some d2)) xm)
              (λ m, getitem_slice2 m (Slice None None (Some d1)) (Slice None None (Some d2)))
              s [Z.to_nat (d1 * Z.of_nat P - 1); Z.to_nat (d2 * Z.of_nat Q - 1)] [P; Q]
              [Z.to_nat (d1 * Z.of_nat P - 1); Z.to_nat (d2 * Z.of_nat Q - 1)]
              z x Hlen) as (y & Hy & Hsy & Hback); [|done..|].
  { intros ym xm [Hly Hyr]%has_shape_2 [Hlx Hxr]%has_shape_2.
    destruct (setitem_getitem_step2 ym xm P Q d1 d2) as (w & Hw & Hlw & Hwr & Hg); [done.. |].
    exists w. split; [done |]. split; [|done]. apply has_shape_2.
    split; [by rewrite Hlw | done]. }
  rewrite Hy, bind_ret. eexists _, y. split; [done |]. split; [done |].
  unfold FDilation2D.backward.
  rewrite getattr_setattr_ne by done.
  rewrite getattr_setattr by done.
  rewrite getattr_setattr by (by rewrite pseudo_setattr).
  done.
Qed.

Lemma dilation2d_roundtrip_witness :
  ∃ c' y, FDilation2D.forward (R := Z) 0 (new_cache unit)
            ([[1; 2]; [3; 4]]%Z : tensor Z (0 + 2)) (2, 3)%Z = Ok (c', y)
          ∧ has_shape 2 [3; 5] y
          ∧ FDilation2D.backward 0 c' y = Ok [[1; 2]; [3; 4]]%Z.
Proof.
  apply (dilation2d_roundtrip (R := Z) 0 (new_cache unit)
           ([[1; 2]; [3; 4]]%Z : tensor Z (0 + 2)) [] 2 2 2 3).
  - reflexivity.
  - reflexivity.
  - constructor.
  - lia.
  - lia.
  - lia.
  - lia.
  - simpl. repeat constructor.
Defined.

(** An operation on the trailing axes that fails on every pair of operands
    fails on tensors with at least one such pair. *)
Lemma lift2M_Err {A B C} (n i j k : nat) (f : tensor A i → tensor B j → result (tensor C k))
    (e : error) (s si sj : list nat) (a : tensor A (n + i)) (b : tensor B (n + j)) :
  length s = n → Forall (λ d, 0 < d) s →
  (∀ u v, has_shape i si u → has_shape j sj v → f u v = Err e) →
  has_shape (n + i) (s ++ si) a → has_shape (n + j) (s ++ sj) b →
  lift2M n f a b = Err e.
Proof.
  intros Hlen Hpos Hf. revert s Hlen Hpos a b.
  induction n as [|n IH]; intros s Hlen Hpos a b Ha Hb.
  { destruct s; [|done]. by apply Hf. }
  destruct s as [|d s]; [done |].
  apply Forall_cons in Hpos as [Hd Hpos].
  apply has_shape_app_inv in Ha as [Hda Ha].
  apply has_shape_app_inv in Hb as [Hdb Hb].
  cbn [lift2M Nat.add].
  rewrite (decide_True (P := length a = length b)) by exact (eq_trans Hda (eq_sym Hdb)).
  destruct a as [|a0 a]; [simpl in Hda; lia |].
  destruct b as [|b0 b]; [simpl in Hdb; lia |].
  apply Forall_cons in Ha as [Ha0 _]. apply Forall_cons in Hb as [Hb0 _].
  cbn [zip zip_with traverse fst snd].
  by rewrite (IH s ltac:(simpl in Hlen; lia) Hpos a0 b0 Ha0 Hb0).
Qed.

(** [FDilation2D] with the factor 1 for the rows and a factor [d ≥ 2] for
    the columns, on a tensor with at least two rows in its last two axes:
    the forward function allocates [1 * P - 1] rows, one fewer than the
    input has, and the assignment of the input raises a [ValueError]. *)
Theorem dilation2d_one_axis_refused {R} `{Num R} {T : Type} (n : nat) (c : FunctionCache T)
    (x : tensor R (n + 2)) (s : list nat) (P Q : nat) (d : Z) :
  length s = n → Forall (λ e, 0 < e) s → 2 ≤ P → 0 < Q → (2 ≤ d)%Z →
  has_shape (n + 2) (s ++ [P; Q]) x →
  FDilation2D.forward n c x (1, d)%Z = Err ValueError.
Proof.
  intros Hlen Hpos HP HQ Hd Hx.
  unfold FDilation2D.forward. rewrite bool_decide_eq_false_2 by (intros [=]; lia).
  cbn [fst snd].
  destruct (dims_from_end_last2 n s P Q x Hlen Hpos ltac:(lia) HQ Hx) as (_ & -> & -> & ->).
  destruct (zeros_has_shape (R := R) (n + 2)
              (s ++ [P - 1; Z.to_nat (d * Z.of_nat Q - 1)]))
    as (z & Hz & Hsz); [rewrite length_app; simpl; lia |].
  rewrite fmap_app in Hz. cbn [fmap list_fmap] in Hz. rewrite Z2Nat.id in Hz by nia.
  replace (Z.of_nat (P - 1)) with (1 * Z.of_nat P - 1)%Z in Hz by lia.
  rewrite Hz, bind_ret.
  rewrite (lift2M_Err n 2 2 2 _ ValueError s
             [P - 1; Z.to_nat (d * Z.of_nat Q - 1)] [P; Q] z x Hlen Hpos); [done | | done..].
  intros ym xm [Hly _]%has_shape_2 [Hlx _]%has_shape_2.
  unfold setitem_slice2. rewrite slice_indices_pos by (simpl; lia). rewrite bind_ret.
  assert (slice_count (Slice None None (Some 1%Z)) (length ym) = Z.of_nat (P - 1)) as ->.
  { unfold slice_count, slice_lo, slice_hi. cbn [start stop step default].
    rewrite Hly. unfold id.
    destruct (Z.ltb_spec 0 (Z.of_nat (P - 1))); [rewrite Z.div_1_r |]; lia. }
  rewrite length_fmap, length_seqZ, Nat2Z.id.
  rewrite decide_False by lia.
  destruct xm as [|v1 [|v2 xm]]; simpl in Hlx; [lia | lia | done].
Qed.

Lemma dilation2d_one_axis_refused_witness :
  FDilation2D.forward (R := Z) 0 (new_cache unit)
    ([[1; 2]; [3; 4]]%Z : tensor Z (0 + 2)) (1, 2)%Z = Err ValueError.
Proof.
  apply (dilation2d_one_axis_refused (R := Z) 0 (new_cache unit)
           ([[1; 2]; [3; 4]]%Z : tensor Z (0 + 2)) [] 2 2 2).
  - reflexivity.
  - constructor.
  - lia.
  - lia.
  - lia.
  - simpl. repeat constructor.
Defined.

(** ** The length of a padded convolution *)

Lemma __pad1d_has_shape {R} `{Num R} (n : nat) (x : tensor R (n + 1)) (s : list nat)
    (L : nat) (a b : Z) :
  length s = n → (0 ≤ a)%Z → (0 ≤ b)%Z →
  has_shape (n + 1) (s ++ [L]) x →
  ∃ x', Functional.__pad1d n x (a, b) = Ok x'
        ∧ has_shape (n + 1) (s ++ [Z.to_nat a + L + Z.to_nat b]) x'.
Proof.
  intros Hlen Ha Hb Hx. unfold Functional.__pad1d.
  rewrite pad_last_axis by done. eexists. split; [done |].
  apply (lift_has_shape n 1 1 _ s [L]); [done | | done].
  intros r Hr%has_shape_1. apply has_shape_1.
  rewrite !length_app, !length_replicate. lia.
Qed.

(** [convolve1d] with the padding "causal", "full" or "same", for an input
    of shape (sx..., L) and a filter of the same rank and of shape
    (sf..., K), with positive extents and leading extents that broadcast, a
    stride S ≥ 1 and a dilation D of 1 or 2: with Kd = D * (K - 1) + 1 the
    length of the dilated filter and (p0, p1) the widths
    [__pad1d_from_str] gives for Kd, the result has
    floor((L + p0 + p1 − Kd) / S) + 1 elements in its last axis. No
    condition on the filter's length is needed: the padded input is never
    shorter than the dilated filter. With stride 1 and without dilation,
    "causal" padding keeps the length [L], "full" padding gives
    [L + K - 1] elements, and "same" padding keeps the length [L] when [K]
    is odd and gives [L + 1] elements when [K] is even. *)
Theorem convolve1d_padded_length {R} `{Num R} (n : nat) (x f : tensor R (n + 1))
    (sx sf : list nat) (L K : nat) (padding : Functional.Padding) (stride dilation : Z) :
  length sx = n → length sf = n →
  Forall (λ d, 0 < d) sx → Forall (λ d, 0 < d) sf → Forall2 compatible sx sf →
  has_shape (n + 1) (sx ++ [L]) x →
  has_shape (n + 1) (sf ++ [K]) f →
  0 < L → 0 < K → (1 ≤ stride)%Z → dilation = 1%Z ∨ dilation = 2%Z →
  padding ≠ Functional.valid →
  ∃ y, Functional.convolve1d n n x f padding stride dilation = Ok y
       ∧ has_shape (n + 1)
           (broadcast_shapes sx sf
              ++ [Z.to_nat
                    ((Z.of_nat L
                      + (Functional.__pad1d_from_str padding
                           (dilation * (Z.of_nat K - 1) + 1)).1
                      + (Functional.__pad1d_from_str padding
                           (dilation * (Z.of_nat K - 1) + 1)).2
                      - (dilation * (Z.of_nat K - 1) + 1)) / stride + 1)]) y
       ∧ (stride = 1%Z → dilation = 1%Z →
          has_shape (n + 1)
            (broadcast_shapes sx sf
               ++ [match padding with
                   | Functional.causal => L
                   | Functional.full => L + K - 1
                   | Functional.same => if Nat.even K then L + 1 else L
                   | Functional.valid => L - K + 1
                   end]) y).
Proof.
  intros Hlx Hlf Hpx Hpf Hc Hx Hf HL HK Hs HD Hpad. unfold Functional.convolve1d.
  destruct (decide (n = n)) as [e|]; [|done].
  assert (e = eq_refl) as -> by apply proof_irrel. simpl eq_rect.
  set (Kd := (dilation * (Z.of_nat K - 1) + 1)%Z).
  assert (∃ f', (if (1 <? dilation)%Z then Functional.__dilate1d n f dilation else Ok f)
                = Ok f'
                ∧ has_shape (n + 1) (sf ++ [Z.to_nat Kd]) f') as (f' & -> & Hf').
  { destruct HD as [-> | ->].
    - exists f. split; [done |]. unfold Kd. by replace (Z.to_nat _) with K by lia.
    - rewrite (proj2 (Z.ltb_lt 1 2)) by lia.
      destruct (__dilate1d_has_shape n f sf K 2 Hlf Hpf HK ltac:(lia) Hf) as (f' & Hf' & Hsf').
      exists f'. split; [done |]. unfold Kd.
      by replace (Z.to_nat (2 * (Z.of_nat K - 1) + 1)) with (Z.to_nat (2 * Z.of_nat K - 1))
        by lia. }
  rewrite bind_ret.
  assert (0 < Kd)%Z as HKd by (unfold Kd; destruct HD as [-> | ->]; lia).
  destruct (dim_from_end_last n sf (Z.to_nat Kd) f' Hlf Hpf ltac:(lia) Hf') as [Hdim _].
  rewrite Z2Nat.id in Hdim by lia.
  set (p := Functional.__pad1d_from_str padding Kd).
  assert (0 ≤ p.1 ∧ 0 ≤ p.2 ∧ Kd ≤ Z.of_nat L + p.1 + p.2)%Z as (Hp1 & Hp2 & Hfit).
  { unfold p. destruct padding; cbn [Functional.__pad1d_from_str fst snd]; try done.
    - lia.
    - lia.
    - pose proof (Z.div_pos Kd 2 ltac:(lia) ltac:(lia)).
      pose proof (Z.mul_succ_div_gt Kd 2 ltac:(lia)). lia. }
  assert (∃ x', match padding with
                | Functional.valid => Ok x
                | _ => Functional.__pad1d n x
                         (Functional.__pad1d_from_str padding (dim_from_end (n + 1) f' 0))
                end = Ok x'
                ∧ has_shape (n + 1) (sx ++ [Z.to_nat (Z.of_nat L + p.1 + p.2)]) x')
    as (x' & -> & Hx').
  { rewrite Hdim. fold p.
    destruct (__pad1d_has_shape n x sx L p.1 p.2 Hlx Hp1 Hp2 Hx) as (x' & Hx' & Hsx').
    exists x'. replace (Z.to_nat (Z.of_nat L + p.1 + p.2)) with (Z.to_nat p.1 + L + Z.to_nat p.2)
      by lia.
    rewrite <- surjective_pairing in Hx'.
    split; [|done]. by destruct padding. }
  rewrite bind_ret.
  destruct (__convolve1d_has_shape n x' f' sx sf (Z.to_nat (Z.of_nat L + p.1 + p.2))
              (Z.to_nat Kd) stride) as (y & Hy & Hsy); try done; [lia.. |].
  exists y. split; [done |].
  rewrite !Z2Nat.id in Hsy by lia. split; [done |].
  intros -> HD1. unfold p, Kd in Hsy. rewrite HD1 in Hsy.
  replace (1 * (Z.of_nat K - 1) + 1)%Z with (Z.of_nat K) in Hsy by lia.
  rewrite Z.div_1_r in Hsy.
  assert (∀ a b : nat, a = b → has_shape (n + 1) (broadcast_shapes sx sf ++ [a]) y →
            has_shape (n + 1) (broadcast_shapes sx sf ++ [b]) y) as Hcast
    by (by intros a b ->).
  eapply Hcast; [|exact Hsy].
  destruct padding; cbn [Functional.__pad1d_from_str fst snd]; try done.
  - lia.
  - lia.
  - destruct (Nat.even K) eqn:HE.
    + apply Nat.even_spec in HE as [q ->].
      rewrite Nat2Z.inj_mul. change (Z.of_nat 2) with 2%Z.
      rewrite (Z.mul_comm 2), Z.div_mul by lia. lia.
    + assert (Nat.odd K = true) as HO by (by rewrite <- Nat.negb_even, HE).
      apply Nat.odd_spec in HO as [q ->].
      replace (Z.of_nat (2 * q + 1)) with (Z.of_nat q * 2 + 1)%Z by lia.
      rewrite Z.div_add_l by lia. change (1 / 2)%Z with 0%Z. lia.
Qed.

Lemma convolve1d_padded_length_witness :
  ∃ y, Functional.convolve1d (R := Z) 1 1
         ([[1; 2; 3; 4; 5]; [6; 7; 8; 9; 10]]%Z : tensor Z (1 + 1))
         ([[1; 1; 1]]%Z : tensor Z (1 + 1)) Functional.causal 2 2 = Ok y
       ∧ has_shape 2 [2; 3] y.
Proof.
  destruct (convolve1d_padded_length (R := Z) 1
              ([[1; 2; 3; 4; 5]; [6; 7; 8; 9; 10]]%Z : tensor Z (1 + 1))
              ([[1; 1; 1]]%Z : tensor Z (1 + 1)) [2] [1] 5 3 Functional.causal 2 2)
    as (y & Hy & Hsy & _).
  - reflexivity.
  - reflexivity.
  - repeat constructor.
  - repeat constructor.
  - constructor; [right; by right | constructor].
  - simpl. repeat constructor.
  - simpl. repeat constructor.
  - lia.
  - lia.
  - lia.
  - by right.
  - done.
  - exists y. split; [exact Hy | exact Hsy].
Defined.

(** ** The table gradient of an embedding lookup *)

Lemma transpose_lookup {A} (d : A) (q : nat) (m : list (list A)) (j : nat) :
  m ≠ [] → Forall (λ r, length r = q) m → j < q →
  transpose m !! j = Some ((λ r, default d (r !! j)) <$> m).
Proof.
  induction m as [|r m IH]; [done |]. intros _ Hm Hj.
  apply Forall_cons in Hm as [Hr Hm].
  destruct (lookup_lt_is_Some_2 r j ltac:(lia)) as [a Ha].
  destruct m as [|r' m].
  - simpl. rewrite list_lookup_fmap, Ha. done.
  - change (transpose (r :: r' :: m)) with (zip_with cons r (transpose (r' :: m))).
    rewrite lookup_zip_with, Ha. cbn [mbind option_bind].
    rewrite (IH ltac:(done) Hm Hj). cbn [mbind option_bind].
    rewrite (fmap_cons _ r (r' :: m)), Ha. done.
Qed.

Lemma unit_vector_lookup {R} `{Num R} (V : nat) (i : Z) (v : nat) :
  v < V → unit_vector V i !! v = Some (of_bool (Z.of_nat v =? i)%Z).
Proof.
  intros Hv. unfold unit_vector. rewrite list_lookup_fmap, lookup_seq_lt by done. done.
Qed.

Section scatter.
Context {R : Type} `{Num R}.
Hypothesis mul_zero : ∀ a : R, rmul rzero a = rzero.
Hypothesis mul_one : ∀ a : R, rmul rone a = a.

Lemma dot_indicator (v e : nat) (V : nat) (r : list Z) (m : list (list R)) :
  v < V →
  dot ((λ u : list R, default rzero (u !! v)) <$> (unit_vector V <$> r))
      ((λ u : list R, default rzero (u !! e)) <$> m)
  = scatter_sum v e r m.
Proof.
  intros Hv. unfold dot, scatter_sum. f_equal.
  revert m. induction r as [|i r IH]; intros [|u m]; try done.
  cbn [fmap list_fmap zip_with zip fst snd]. rewrite <- IH.
  f_equal. rewrite unit_vector_lookup by done. cbn [default].
  destruct (Z.eqb_spec (Z.of_nat v) i) as [<-|Hne].
  - rewrite decide_True by done. apply mul_one.
  - rewrite decide_False by congruence. apply mul_zero.
Qed.

(** The product of the transposed one-hot rows of an index and a gradient:
    the element (v, e) is the sum of the gradient elements [m[t][e]] over
    the positions [t] with the index [v]. *)
Lemma matmul_one_hot_T (V E Tn : nat) (r : list Z) (m : tensor R 2) :
  0 < Tn → length r = Tn → has_shape 2 [Tn; E] m →
  ∃ g : tensor R 2,
    matmul (transpose (unit_vector V <$> r)) m = Ok g
    ∧ has_shape 2 [V; E] g
    ∧ ∀ v e, v < V → e < E → mget v e g = scatter_sum v e r m.
Proof.
  intros HT Hr Hm.
  assert (has_shape 2 [Tn; V] (unit_vector V <$> r : tensor R 2)) as Hoh.
  { apply has_shape_2. split; [by rewrite length_fmap |].
    apply Forall_fmap, Forall_forall. intros i _. simpl.
    unfold unit_vector. by rewrite length_fmap, length_seq. }
  destruct (matmul_has_shape V Tn E (transpose (unit_vector V <$> r) : tensor R 2) m HT)
    as (g & Hg & Hsg); [by apply transpose_has_shape | done |].
  exists g. split; [done |]. split; [done |].
  intros v e Hv He. unfold matmul in Hg. case_decide; [|done]. injection Hg as <-.
  unfold mget.
  apply has_shape_2 in Hoh as [Hloh Hoh]. apply has_shape_2 in Hm as [Hlm Hm].
  assert (transpose (unit_vector V <$> r) !! v
          = Some ((λ u : list R, default rzero (u !! v)) <$> (unit_vector V <$> r))) as Hcv.
  { apply (transpose_lookup rzero V); [|done..].
    intros E0. rewrite E0 in Hloh. simpl in Hloh. lia. }
  assert (transpose m !! e = Some ((λ u : list R, default rzero (u !! e)) <$> m)) as Hce.
  { apply (transpose_lookup rzero E); [|done..].
    intros E0. rewrite E0 in Hlm. simpl in Hlm. lia. }
  rewrite list_lookup_fmap, Hcv. cbn [fmap option_fmap option_map default id].
  change (list_fmap ?A ?B ?f ?l) with (f <$> l).
  rewrite list_lookup_fmap, Hce. cbn [fmap option_fmap option_map default id].
  by apply dot_indicator.
Qed.

Lemma tzip_mget (op : R → R → R) (V E : nat) (a b : list (list R)) (v e : nat) :
  has_shape 2 [V; E] a → has_shape 2 [V; E] b → v < V → e < E →
  mget v e (tzip 2 op a b) = op (mget v e a) (mget v e b).
Proof.
  intros [Hla Ha]%has_shape_2 [Hlb Hb]%has_shape_2 Hv He.
  destruct (lookup_lt_is_Some_2 a v ltac:(lia)) as [ra Hra].
  destruct (lookup_lt_is_Some_2 b v ltac:(lia)) as [rb Hrb].
  pose proof (Forall_lookup_1 _ _ _ _ Ha Hra) as Hlra.
  pose proof (Forall_lookup_1 _ _ _ _ Hb Hrb) as Hlrb.
  simpl in Hlra, Hlrb.
  destruct (lookup_lt_is_Some_2 ra e ltac:(lia)) as [xa Hxa].
  destruct (lookup_lt_is_Some_2 rb e ltac:(lia)) as [xb Hxb].
  unfold mget. cbn [tzip tensor]. rewrite lookup_zip_with, Hra, Hrb. simpl.
  rewrite lookup_zip_with, Hxa, Hxb. done.
Qed.

Lemma foldl_tzip_mget (V E : nat) (a : tensor R 2) (l : list (tensor R 2)) (v e : nat) :
  has_shape 2 [V; E] a → Forall (has_shape 2 [V; E]) l → v < V → e < E →
  mget v e (foldl (tzip 2 radd) a l)
  = foldl radd (mget v e a) ((λ g : tensor R 2, mget v e g) <$> l).
Proof.
  intros Ha Hl Hv He. revert a Ha.
  induction Hl as [|b l Hb _ IH]; intros a Ha; [done |].
  cbn [foldl fmap list_fmap]. rewrite IH by (by apply tzip_has_shape).
  by rewrite (tzip_mget radd V E).
Qed.

Lemma mget_Some (V E : nat) (g : list (list R)) (v e : nat) (a : R) :
  has_shape 2 [V; E] (g : tensor R 2) → v < V → e < E →
  mget v e g = a → g !! v ≫= (.!! e) = Some a.
Proof.
  intros [Hlg Hgr]%has_shape_2 Hv He <-. unfold mget.
  destruct (lookup_lt_is_Some_2 g v ltac:(lia)) as [row Hrow].
  pose proof (Forall_lookup_1 _ _ _ _ Hgr Hrow) as Hlrow. simpl in Hlrow.
  destruct (lookup_lt_is_Some_2 row e ltac:(lia)) as [a Ha].
  rewrite Hrow. simpl. by rewrite Ha.
Qed.

(** The products for all the rows of a two-axis index. *)
Lemma traverse_matmul_one_hot_T (V E Tn : nat) (idx : list (list Z)) (dy : list (tensor R 2)) :
  0 < Tn → length idx = length dy →
  Forall (λ r, length r = Tn) idx → Forall (has_shape 2 [Tn; E]) dy →
  ∃ prods : list (tensor R 2),
    traverse (λ ab : tensor R 2 * tensor R 2, matmul ab.1 ab.2)
      (zip ((λ r, transpose (unit_vector V <$> r)) <$> idx) dy) = Ok prods
    ∧ length prods = length idx
    ∧ Forall (has_shape 2 [V; E]) prods
    ∧ ∀ v e, v < V → e < E →
        (λ g : tensor R 2, mget v e g) <$> prods
        = (λ rm : list Z * tensor R 2, scatter_sum v e rm.1 rm.2) <$> zip idx dy.
Proof.
  intros HT Hlen Hidx. revert dy Hlen.
  induction Hidx as [|r idx Hr _ IH]; intros [|m dy] Hlen Hdy; try done.
  { exists []. by repeat split. }
  apply Forall_cons in Hdy as [Hm Hdy].
  destruct (matmul_one_hot_T V E Tn r m HT Hr Hm) as (g & Hg & Hsg & Hget).
  destruct (IH dy (Nat.succ_inj _ _ Hlen) Hdy) as (prods & Hp & Hlp & Hsp & Hgets).
  exists (g :: prods). split; [|split; [|split]].
  - rewrite fmap_cons. cbn [zip zip_with traverse fst snd].
    rewrite Hg, bind_ret.
    exact (f_equal (λ t, let* bs := t in Ok (g :: bs)) Hp).
  - exact (f_equal S Hlp).
  - by constructor.
  - intros v e Hv He. cbn [fmap list_fmap zip zip_with fst snd].
    rewrite Hget by done. f_equal. by apply Hgets.
Qed.
End scatter.

(** For a two-axis index tensor of shape (B, T) with indices inside the
    table and a gradient of shape (B, T, E), the backward function of
    [EmbeddingFn] and the backward function [lookup_embedding] returns give
    the same table gradient [g] of shape (V, E): its element (v, e) is the
    sum, over the batch rows, of the sums of [dy[b][t][e]] over the positions
    [t] with [x[b][t] = v]; a table row no index selects receives sums of
    zeros only. The element type satisfies [0 * a = 0] and [1 * a = a]. *)
Theorem embedding_backward_scatter_add {R} `{Num R} (x : IndexTensor (1 + 1))
    (table : tensor R 2) (dy : tensor R (1 + 2)) (B Tn V E : nat)
    (c : EmbeddingFuncs.FunctionCache (IndexTensor (1 + 1) * list nat)) :
  (∀ a : R, rmul rzero a = rzero) → (∀ a : R, rmul rone a = a) →
  EmbeddingFuncs.pseudo c = false →
  index_dtype x ∈ [int32; int64] →
  0 < B → 0 < Tn →
  has_shape 2 [B; Tn] (indices x) →
  all_rows 1 (in_table V) (indices x) →
  has_shape 2 [V; E] table →
  has_shape 3 [B; Tn; E] dy →
  ∃ g : tensor R 2,
    (∃ c1 y, EmbeddingFuncs.EmbeddingFn.forward 1 c x table = Ok (c1, y)
             ∧ EmbeddingFuncs.EmbeddingFn.backward 1 c1 dy = Ok (c, g))
    ∧ (∃ y backward,
         Functional.lookup_embedding 1 x (mkTensor table true) true = Ok (y, Some backward)
         ∧ backward dy = Ok (Some g))
    ∧ has_shape 2 [V; E] g
    ∧ ∀ v e, v < V → e < E →
        g !! v ≫= (.!! e)
        = Some (sum_list ((λ rm : list Z * tensor R 2, scatter_sum v e rm.1 rm.2)
                            <$> zip (indices x) dy)).
Proof.
  intros Hm0 Hm1 Hc Hdt HB HT Hx Hidx Ht Hdy.
  assert (is_integer (index_dtype x) = true) as Hint.
  { pose proof Hdt as Hdt'.
    apply elem_of_cons in Hdt' as [-> | Hdt']; [done |].
    apply elem_of_cons in Hdt' as [-> | Hdt']; [done |].
    by apply elem_of_nil in Hdt'. }
  assert (length table = V) as HV by (by apply has_shape_2 in Ht as [? _]).
  apply has_shape_2 in Hx as [Hlx Hxr].
  assert (0 < V) as HVpos.
  { destruct (indices x) as [|r0 rest] eqn:Eidx; [simpl in Hlx; lia |].
    apply Forall_cons in Hxr as [Hr0 _]. simpl in Hidx.
    apply Forall_cons in Hidx as [Hin _].
    destruct r0 as [|i r0]; [simpl in Hr0; lia |].
    apply Forall_cons in Hin as [Hi _]. lia. }
  destruct Hdy as [Hldy Hdyr].
  change (Forall (has_shape 2 [Tn; E]) dy) in Hdyr.
  destruct (traverse_matmul_one_hot_T Hm0 Hm1 V E Tn (indices x) dy HT)
    as (prods & Hp & Hlp & Hsp & Hgets);
    [exact (eq_trans Hlx (eq_sym Hldy)) | done | done |].
  assert (lift2M 1 (i := 2) (j := 2) (k := 2) matmul
            (T_ 1 (lift 1 (j := 1) (k := 2)
                     (fmap (unit_vector V) : tensor Z 1 → tensor R 2) (indices x))) dy
          = Ok (prods : tensor R (1 + 2))) as Hprod.
  { unfold T_. cbn [lift lift2M]. rewrite <- list_fmap_compose.
    rewrite decide_True by (rewrite length_fmap; exact (eq_trans Hlx (eq_sym Hldy))).
    exact Hp. }
  destruct prods as [|p1 prods];
    [pose proof (eq_trans Hlp Hlx) as Hbad; simpl in Hbad; lia |].
  apply Forall_cons in Hsp as [Hsp1 Hsp].
  set (g := foldl (tzip 2 radd) p1 prods).
  assert (has_shape 2 [V; E] g) as Hsg.
  { destruct (reduce0_has_shape radd (Some rzero) 2 (S (length prods)) [V; E]
                (p1 :: prods : tensor R 3)) as (g' & Hg' & Hsg'); [lia | | ].
    - split; [done | by constructor].
    - injection Hg' as <-. exact Hsg'. }
  assert (∃ y, liftM 1 (j := 1) (k := 2)
                 (traverse (getitem_int table) : tensor Z 1 → _) (indices x) = Ok y)
    as [y Hy].
  { eexists. apply (liftM_all_rows 1 2 _
                      (fmap (λ i, default [] (table !! Z.to_nat i))
                       : tensor Z 1 → tensor R 2) (in_table V)); [|done].
    intros r Hr. apply traverse_getitem_int. by rewrite HV. }
  exists g. split; [|split; [|split; [done |]]].
  - exists (EmbeddingFuncs.push c (x, shape 2 table)), y. split.
    + unfold EmbeddingFuncs.EmbeddingFn.forward. rewrite Hint. cbn [negb]. by rewrite Hy.
    + unfold EmbeddingFuncs.EmbeddingFn.backward, EmbeddingFuncs.push, EmbeddingFuncs.pop.
      rewrite Hc. cbn [EmbeddingFuncs.items bind EmbeddingFuncs.pseudo].
      cbn [shape head default]. rewrite HV.
      rewrite all_rows_in_table_one_hot by done. rewrite bind_ret.
      unfold id. rewrite Hprod, bind_ret. cbn [sum_leading reduce0 bind].
      destruct c as [ps its]. simpl in Hc. by subst ps.
  - destruct (liftM_has_shape 1 2 2 (λ m, matmul m table) [B] [Tn; V] [Tn; E]
                (lift 1 (j := 1) (k := 2)
                   (fmap (unit_vector V) : tensor Z 1 → tensor R 2) (indices x)))
      as (y' & Hy' & _); [done | | |].
    { intros m Hm. by apply (matmul_has_shape Tn V E). }
    { apply (lift_has_shape 1 1 2 _ [B] [Tn] [Tn; V]); [done | |].
      - intros r Hr%has_shape_1. apply has_shape_2. split; [by rewrite length_fmap |].
        apply Forall_fmap, Forall_forall. intros i _. simpl.
        unfold unit_vector. by rewrite length_fmap, length_seq.
      - apply has_shape_2. by split. }
    eexists y', _. split.
    + unfold Functional.lookup_embedding.
      rewrite bool_decide_eq_true_2 by done. cbn [negb data].
      rewrite HV. rewrite all_rows_in_table_one_hot by done. rewrite bind_ret.
      rewrite Hy', bind_ret. reflexivity.
    + unfold Functional.lookup_embedding_backward. cbn [requires_grad].
      rewrite Hprod, bind_ret. done.
  - intros v e Hv He.
    specialize (Hgets v e Hv He).
    assert (mget v e g
            = sum_list ((λ rm : list Z * tensor R 2, scatter_sum v e rm.1 rm.2)
                          <$> zip (indices x) dy)) as Hval.
    { unfold g. rewrite (foldl_tzip_mget V E) by done.
      etrans; [|exact (f_equal sum_list Hgets)]. done. }
    by apply (mget_Some V E).
Qed.

Lemma embedding_backward_scatter_add_witness :
  ∃ g : tensor Z 2,
    (∃ c1 y, EmbeddingFuncs.EmbeddingFn.forward (R := Z) 1 (EmbeddingFuncs.new_cache _)
               (mkIndex (n := 2) int64 [[0; 0; 1]; [2; 0; 0]]%Z)
               [[10; 11]; [20; 21]; [30; 31]]%Z = Ok (c1, y)
             ∧ EmbeddingFuncs.EmbeddingFn.backward (R := Z) 1 c1
                 [[[1; 2]; [3; 4]; [5; 6]]; [[1; 1]; [1; 1]; [1; 1]]]%Z
               = Ok (EmbeddingFuncs.new_cache _, g))
    ∧ g !! 0 ≫= (.!! 1) = Some 8%Z.
Proof.
  destruct (embedding_backward_scatter_add (R := Z)
              (mkIndex (n := 2) int64 [[0; 0; 1]; [2; 0; 0]]%Z)
              ([[10; 11]; [20; 21]; [30; 31]]%Z : tensor Z 2)
              ([[[1; 2]; [3; 4]; [5; 6]]; [[1; 1]; [1; 1]; [1; 1]]]%Z : tensor Z (1 + 2))
              2 3 3 2 (EmbeddingFuncs.new_cache _))
    as (g & Hfn & _ & _ & Hval).
  - intros a. reflexivity.
  - intros a. simpl. lia.
  - reflexivity.
  - simpl. apply list_elem_of_In. simpl. tauto.
  - lia.
  - lia.
  - simpl. repeat constructor.
  - simpl. unfold in_table. repeat constructor; lia.
  - simpl. repeat constructor.
  - simpl. repeat constructor.
  - exists g. split; [exact Hfn |]. exact (Hval 0 1 ltac:(lia) ltac:(lia)).
Defined.

(** ** The module tree *)

Section module_tree.
Context {A P F : Type}.
Local Abbreviation Mod := (NN.Module A P F).

(** Induction on a module with the property for all of its sub-modules. *)
Lemma Module_tree_ind (Q : Mod → Prop) :
  (∀ nm y g bw subs ps tr ko,
     Forall Q subs → Q (NN.mkModule nm y g bw subs ps tr ko)) →
  ∀ m, Q m.
Proof.
  intros HQ. fix IH 1. intros [nm y g bw subs ps tr ko]. apply HQ.
  induction subs as [|s subs IHs]; constructor; [apply IH | apply IHs].
Qed.

Lemma Forall_modules_foldr (Q : Mod → Prop) (subs : list Mod) :
  Forall (λ s, Forall Q (modules s)) subs →
  Forall Q (foldr (λ s l, modules s ++ l) [] subs).
Proof.
  induction 1 as [|s subs Hs _ IH]; [constructor |].
  simpl. apply Forall_app. by split.
Qed.

Lemma fmap_modules_foldr {B} (g : Mod → B) (f : Mod → Mod) (subs : list Mod) :
  Forall (λ s, g <$> modules (f s) = g <$> modules s) subs →
  g <$> foldr (λ s l, modules s ++ l) [] (f <$> subs)
  = g <$> foldr (λ s l, modules s ++ l) [] subs.
Proof.
  induction 1 as [|s subs Hs _ IH]; [done |].
  rewrite fmap_cons. cbn [foldr]. by rewrite !fmap_app, Hs, IH.
Qed.

Lemma parameters_foldr (f : Mod → Mod) (subs : list Mod) :
  Forall (λ s, NN.parameters (f s) = NN.parameters s) subs →
  foldr (λ m p, NN.parameters m ++ p) [] (f <$> subs)
  = foldr (λ m p, NN.parameters m ++ p) [] subs.
Proof.
  induction 1 as [|s subs Hs _ IH]; [done |].
  rewrite fmap_cons. cbn [foldr]. by rewrite Hs, IH.
Qed.

(** A tree map that keeps a field of every module keeps the list of that
    field over the tree. *)
Lemma fmap_modules_tree_map {B} (g : Mod → B) (f : Mod → Mod) :
  (∀ m, g (f m) = g m) →
  (∀ m, NN._sub_modules (f m) = f <$> NN._sub_modules m) →
  ∀ m, g <$> modules (f m) = g <$> modules m.
Proof.
  intros Hg Hsub. induction m as [nm y gr bw subs ps tr ko IH] using Module_tree_ind.
  destruct (f (NN.mkModule nm y gr bw subs ps tr ko)) as [nm' y' gr' bw' subs' ps' tr' ko'] eqn:E.
  pose proof (Hsub (NN.mkModule nm y gr bw subs ps tr ko)) as Hs. rewrite E in Hs.
  pose proof (Hg (NN.mkModule nm y gr bw subs ps tr ko)) as Hg0. rewrite E in Hg0.
  cbn [NN._sub_modules] in Hs. subst subs'.
  cbn [modules NN._sub_modules]. rewrite !fmap_cons, Hg0. f_equal.
  by apply fmap_modules_foldr.
Qed.

(** Setting the training mode, or the mode of keeping outputs, on a module
    sets it on every module of its tree, whatever the modes were before;
    it changes neither the parameters nor the other mode of any module. *)
Theorem module_modes_reach_every_module (m : Mod) (value : bool) :
  Forall (λ m', NN._training m' = value) (modules (NN.set_training value m))
  ∧ Forall (λ m', NN._keep_output m' = value) (modules (NN.set_keep_output value m))
  ∧ NN.parameters (NN.set_training value m) = NN.parameters m
  ∧ NN.parameters (NN.set_keep_output value m) = NN.parameters m
  ∧ NN._keep_output <$> modules (NN.set_training value m) = NN._keep_output <$> modules m
  ∧ NN._training <$> modules (NN.set_keep_output value m) = NN._training <$> modules m.
Proof.
  split; [|split; [|split; [|split; [|split]]]].
  - induction m as [nm y g bw subs ps tr ko IH] using Module_tree_ind.
    cbn [NN.set_training modules NN._sub_modules]. constructor; [done |].
    apply Forall_modules_foldr. by apply Forall_fmap.
  - induction m as [nm y g bw subs ps tr ko IH] using Module_tree_ind.
    cbn [NN.set_keep_output modules NN._sub_modules]. constructor; [done |].
    apply Forall_modules_foldr. by apply Forall_fmap.
  - induction m as [nm y g bw subs ps tr ko IH] using Module_tree_ind.
    cbn [NN.set_training NN.parameters NN._sub_modules NN._parameters]. f_equal.
    by apply parameters_foldr.
  - induction m as [nm y g bw subs ps tr ko IH] using Module_tree_ind.
    cbn [NN.set_keep_output NN.parameters NN._sub_modules NN._parameters]. f_equal.
    by apply parameters_foldr.
  - apply fmap_modules_tree_map; by intros [].
  - apply fmap_modules_tree_map; by intros [].
Qed.

(** The parameters of a module are the own parameters of the modules of
    its tree, the module first and its sub-modules in their order; their
    number is the sum of the numbers of own parameters. *)
Theorem module_parameters_of_tree (m : Mod) :
  NN.parameters m = modules m ≫= NN._parameters
  ∧ length (NN.parameters m) = sum_list_with (λ m', length (NN._parameters m')) (modules m).
Proof.
  assert (NN.parameters m = modules m ≫= NN._parameters) as Hp.
  { induction m as [nm y g bw subs ps tr ko IH] using Module_tree_ind.
    cbn [NN.parameters modules NN._sub_modules NN._parameters].
    rewrite bind_cons. cbn [NN._parameters]. f_equal.
    induction IH as [|s subs Hs _ IHs]; [done |].
    cbn [foldr]. by rewrite bind_app, Hs, IHs. }
  split; [done |]. rewrite Hp. clear Hp.
  induction (modules m) as [|m' l IH]; [done |].
  rewrite bind_cons, length_app, IH. done.
Qed.

(** [clean] resets the output, its gradient and the backward function of
    every module of the tree; it keeps the parameters, the two modes and
    the printed form, forgets an output or a gradient that was saved, and
    cleaning twice is cleaning once. *)
Theorem module_clean_resets_tree (empty : A) (m : Mod) (y g : A) :
  Forall (λ m', NN.y_data m' = empty ∧ NN.y_grad m' = None ∧ NN.backward m' = None)
    (modules (NN.clean empty m))
  ∧ NN.parameters (NN.clean empty m) = NN.parameters m
  ∧ NN._training <$> modules (NN.clean empty m) = NN._training <$> modules m
  ∧ NN._keep_output <$> modules (NN.clean empty m) = NN._keep_output <$> modules m
  ∧ NN.__repr__ (NN.clean empty m) = NN.__repr__ m
  ∧ NN.clean empty (NN.set_y m y) = NN.clean empty m
  ∧ NN.clean empty (NN.set_y_grad m g) = NN.clean empty m
  ∧ NN.clean empty (NN.clean empty m) = NN.clean empty m.
Proof.
  split; [|split; [|split; [|split; [|split; [|split; [|split]]]]]].
  - induction m as [nm y0 g0 bw subs ps tr ko IH] using Module_tree_ind.
    cbn [NN.clean modules NN._sub_modules]. constructor; [done |].
    apply Forall_modules_foldr. by apply Forall_fmap.
  - induction m as [nm y0 g0 bw subs ps tr ko IH] using Module_tree_ind.
    cbn [NN.clean NN.parameters NN._sub_modules NN._parameters]. f_equal.
    by apply parameters_foldr.
  - apply fmap_modules_tree_map; by intros [].
  - apply fmap_modules_tree_map; by intros [].
  - induction m as [nm y0 g0 bw subs ps tr ko IH] using Module_tree_ind.
    cbn [NN.clean NN.__repr__ NN._sub_modules NN.class_name].
    generalize (nm +:+ "()")%string.
    induction IH as [|s subs Hs _ IHs]; intros acc; [done |].
    rewrite fmap_cons. cbn [foldl]. rewrite Hs. apply IHs.
  - unfold NN.set_y. by destruct m as [? ? ? ? ? ? ? []].
  - unfold NN.set_y_grad. by destruct m as [? ? ? ? ? ? ? []].
  - induction m as [nm y0 g0 bw subs ps tr ko IH] using Module_tree_ind.
    cbn [NN.clean NN._sub_modules NN._parameters NN.class_name NN._training NN._keep_output].
    f_equal. rewrite <- list_fmap_compose. apply Forall_fmap_ext.
    eapply Forall_impl; [exact IH |]. done.
Qed.
End module_tree.

(** ** Pooling: the values of the output *)

Lemma reshape_replicate_lookup {A} (d size : nat) (l : list A) (i : nat) :
  i < d → reshape (replicate d size) l !! i = Some (take size (drop (i * size) l)).
Proof.
  revert l i. induction d as [|d IH]; intros l i Hi; [lia |].
  cbn [replicate reshape]. destruct i as [|i]; [done |].
  cbn [lookup list_lookup]. rewrite IH by lia. by rewrite drop_drop.
Qed.

Lemma join_reshape_replicate {A} (d size : nat) (l : list A) :
  length l = d * size → mjoin (reshape (replicate d size) l) = l.
Proof.
  intros Hl. apply join_reshape. rewrite sum_list_replicate. lia.
Qed.

Lemma reshape_bind {A B} (f : A → list B) (size : nat) (t : list A) :
  Forall (λ a, length (f a) = size) t →
  reshape (replicate (length t) size) (t ≫= f) = f <$> t.
Proof.
  induction 1 as [|a t Ha _ IH]; [done |].
  cbn [length replicate reshape]. rewrite bind_cons, fmap_cons.
  rewrite take_app_length' by done. rewrite drop_app_length' by done. by rewrite IH.
Qed.

(** Reshaping the row-major data of a tensor to the shape it has gives the
    tensor back. *)
Lemma unflatten_flatten {R} (n : nat) (s : list nat) (t : tensor R n) :
  length s = n → has_shape n s t → unflatten n s (flatten n t) = Ok t.
Proof.
  revert s t. induction n as [|n IH]; intros s t Hlen Ht.
  - by destruct s.
  - destruct s as [|d s]; [done |]. destruct Ht as [Hd Ht].
    assert (length s = n) as Hlen' by (simpl in Hlen; lia).
    cbn [unflatten flatten].
    rewrite decide_True.
    2: { exact (flatten_length (S n) (d :: s) t Hlen (conj Hd Ht)). }
    rewrite <- Hd. rewrite (reshape_bind (flatten n)).
    2: { eapply Forall_impl; [exact Ht |]. intros a Ha. simpl. by apply flatten_length. }
    clear Hd. induction Ht as [|a t Ha _ IHt]; [done |].
    rewrite fmap_cons. cbn [traverse]. by rewrite (IH s a Hlen' Ha), bind_ret, IHt.
Qed.

Lemma flatten_lift {A} (n j k : nat) (g : tensor A j → tensor A k) (s sj : list nat)
    (x : tensor A (n + j)) :
  length s = n →
  (∀ m, has_shape j sj m → flatten k (g m) = flatten j m) →
  has_shape (n + j) (s ++ sj) x →
  flatten (n + k) (lift n g x) = flatten (n + j) x.
Proof.
  intros Hlen Hg. revert s Hlen x. induction n as [|n IH]; intros s Hlen x Hx.
  - destruct s; [|done]. by apply Hg.
  - destruct s as [|d s]; [done |]. apply has_shape_app_inv in Hx as [_ Hx].
    cbn [flatten lift Nat.add].
    induction Hx as [|a x Ha _ IHx]; [done |].
    rewrite fmap_cons, !bind_cons, IHx. f_equal. apply (IH s); [simpl in Hlen; lia | done].
Qed.

Lemma flatten_1 {R} (r : tensor R 1) : flatten 1 r = r.
Proof.
  cbn [flatten]. induction r as [|a r IH]; [done |]. rewrite bind_cons, IH. done.
Qed.

Lemma bind_id_join {A} (l : list (list A)) : l ≫= (λ r, r) = mjoin l.
Proof. induction l as [|r l IH]; [done |]. by rewrite bind_cons, IH. Qed.

Lemma flatten_2 {R} (m : tensor R 2) : flatten 2 m = mjoin m.
Proof.
  cbn [flatten]. rewrite <- bind_id_join.
  induction m as [|r m IH]; [done |].
  rewrite !bind_cons, IH. f_equal. apply (flatten_1 r).
Qed.

Lemma split_matrix_spec {R} (Kh Kw qy qx : nat) (m : tensor R 2) :
  has_shape 2 [qy * Kh; qx * Kw] m →
  has_shape 4 [qy; Kh; qx; Kw] (split_matrix Kh Kw qy qx m)
  ∧ flatten 4 (split_matrix Kh Kw qy qx m) = flatten 2 m.
Proof.
  intros [Hlen Hrows]%has_shape_2.
  destruct (reshape_replicate_chunks qy Kh m Hlen) as [Hq Hchunks].
  assert (Forall (Forall (λ r : list R, length r = qx * Kw)) (reshape (replicate qy Kh) m))
    as Hrows'.
  { apply Forall_forall. intros c Hc. apply Forall_forall. intros r Hr.
    apply (proj1 (Forall_forall _ _) Hrows).
    rewrite <- (join_reshape_replicate qy Kh m Hlen).
    apply list_elem_of_join. by exists c. }
  split.
  - unfold split_matrix. split; [by rewrite length_fmap |].
    apply Forall_fmap.
    apply Forall_forall. intros c Hc.
    pose proof (proj1 (Forall_forall _ _) Hchunks c Hc) as Hlc.
    pose proof (proj1 (Forall_forall _ _) Hrows' c Hc) as Hrc.
    simpl in Hlc. cbn [compose].
    split; [by rewrite length_fmap |].
    apply Forall_fmap. eapply Forall_impl; [exact Hrc |].
    intros r Hr. cbn [compose]. simpl in Hr.
    destruct (reshape_replicate_chunks qx Kw r Hr) as [Hq' Hchunks'].
    apply has_shape_2. by split.
  - rewrite flatten_2. rewrite <- (join_reshape_replicate qy Kh m Hlen) at 2.
    unfold split_matrix. cbn [flatten]. clear Hq Hchunks.
    induction Hrows' as [|c cs Hc _ IH]; [done |].
    rewrite fmap_cons, bind_cons, IH. cbn [mjoin list_join]. rewrite join_app. f_equal.
    clear IH. induction Hc as [|r rs Hr _ IH]; [done |].
    rewrite fmap_cons, bind_cons, IH. cbn [mjoin list_join]. f_equal.
    change (reshape (replicate qx Kw) r ≫= (λ t : tensor R 1, t ≫= (λ a : R, [a])) = r).
    rewrite <- (join_reshape_replicate qx Kw r Hr) at 2.
    generalize (reshape (replicate qx Kw) r). intros l.
    induction l as [|c' l IHl]; [done |].
    rewrite bind_cons, IHl. cbn [mjoin list_join]. f_equal. apply (flatten_1 c').
Qed.

Lemma take_drop_take {A} (K N i : nat) (l : list A) :
  i * K + K ≤ N → take K (drop (i * K) (take N l)) = take K (drop (i * K) l).
Proof.
  intros Hi. rewrite !take_drop_commute, take_take. by rewrite Nat.min_l by lia.
Qed.

Lemma has_shape_all_rows {R} (n : nat) (s : list nat) (q : nat) (x : tensor R (n + 1)) :
  length s = n → has_shape (n + 1) (s ++ [q]) x → all_rows n (λ r, length r = q) x.
Proof.
  revert s x. induction n as [|n IH]; intros s x Hlen Hx.
  - destruct s; [|done]. cbn [all_rows]. exact (proj1 Hx).
  - destruct s as [|d s]; [done |]. apply has_shape_app_inv in Hx as [_ Hx].
    cbn [all_rows]. eapply Forall_impl; [exact Hx |].
    intros a Ha. apply (IH s); [simpl in Hlen; lia | done].
Qed.

(** The reduction of the rows of a matrix into one row, column by
    column. *)
Lemma fold1_zip_with_lookup {R} (op : R → R → R) (d : R) (q : nat) (rows : list (list R))
    (j : nat) :
  rows ≠ [] → Forall (λ r, length r = q) rows → j < q →
  fold1 (zip_with op) [] rows !! j
  = Some (fold1 op d ((λ r, default d (r !! j)) <$> rows)).
Proof.
  intros Hne Hrows Hj. destruct rows as [|r0 rows]; [done |]. clear Hne.
  apply Forall_cons in Hrows as [Hr0 Hrows]. cbn [fold1 fmap list_fmap].
  revert r0 Hr0. induction Hrows as [|r rows Hr _ IH]; intros r0 Hr0.
  - cbn [foldl]. destruct (lookup_lt_is_Some_2 r0 j ltac:(lia)) as [a Ha].
    by rewrite Ha.
  - cbn [foldl fmap list_fmap]. rewrite IH by (rewrite length_zip_with; lia).
    do 2 f_equal. rewrite lookup_zip_with.
    destruct (lookup_lt_is_Some_2 r0 j ltac:(lia)) as [a Ha].
    destruct (lookup_lt_is_Some_2 r j ltac:(lia)) as [b Hb].
    by rewrite Ha, Hb.
Qed.

(** The two reductions over the windows of a cropped matrix, written on
    lists. *)
Lemma pool_rows_eq {R} (op : R → R → R) (d : R) (Kh Kw qy qx Hn Wn : nat)
    (m : list (list R)) :
  0 < Kh → 0 < Kw → qy * Kh ≤ Hn → qx * Kw ≤ Wn →
  length m = Hn → Forall (λ r, length r = Wn) m →
  (λ u : list (list R), fold1 (zip_with op) [] u)
    <$> ((λ rows : list (list R),
            (λ r, fold1 op d <$> reshape (replicate qx Kw) r) <$> rows)
           <$> reshape (replicate qy Kh) (take (qx * Kw) <$> take (qy * Kh) m))
  = pool_matrix op d Kh Kw qy qx m.
Proof.
  intros HKh HKw Hqy Hqx Hlen Hrows. unfold pool_matrix.
  set (mc := take (qx * Kw) <$> take (qy * Kh) m).
  assert (length mc = qy * Kh) as Hlmc
    by (unfold mc; rewrite length_fmap, length_take; lia).
  apply list_eq. intros i. rewrite !list_lookup_fmap.
  destruct (decide (i < qy)) as [Hi|Hi].
  2: { rewrite (lookup_ge_None_2 (seq 0 qy)) by (rewrite length_seq; lia).
       rewrite lookup_ge_None_2; [done |].
       destruct (reshape_replicate_chunks qy Kh mc Hlmc) as [-> _]. lia. }
  rewrite reshape_replicate_lookup by done.
  rewrite lookup_seq_lt by done. cbn [fmap option_fmap option_map Nat.add].
  f_equal.
  assert (take Kh (drop (i * Kh) mc) = take (qx * Kw) <$> take Kh (drop (i * Kh) m)) as ->.
  { unfold mc. rewrite <- fmap_drop, <- fmap_take. f_equal.
    apply take_drop_take. nia. }
  set (chunk := take Kh (drop (i * Kh) m)).
  assert (length chunk = Kh) as Hlchunk.
  { unfold chunk. rewrite length_take, length_drop. nia. }
  assert (Forall (λ r, length r = Wn) chunk) as Hchunk.
  { unfold chunk. apply Forall_take, Forall_drop. done. }
  apply list_eq. intros j. rewrite list_lookup_fmap.
  destruct (decide (j < qx)) as [Hj|Hj].
  2: { rewrite (lookup_ge_None_2 (seq 0 qx)) by (rewrite length_seq; lia).
       destruct chunk as [|r0 chunk]; [simpl in Hlchunk; lia |].
       apply lookup_ge_None_2. cbn [fmap list_fmap fold1].
       assert (∀ (l : list (list R)) (a : list R), length a = qx →
                 Forall (λ r, length r = qx) l → length (foldl (zip_with op) a l) = qx)
         as Hfold.
       { intros l. induction l as [|b l IH]; intros a Ha Hl; [done |].
         apply Forall_cons in Hl as [Hb Hl]. cbn [foldl]. apply IH; [|done].
         rewrite length_zip_with. lia. }
       apply Forall_cons in Hchunk as [Hr0 Hchunk].
       rewrite Hfold; [lia | |].
       - rewrite length_fmap.
         apply (reshape_replicate_chunks qx Kw). rewrite length_take. lia.
       - apply Forall_fmap, Forall_fmap. eapply Forall_impl; [exact Hchunk |].
         intros r Hr. simpl in *. rewrite length_fmap.
         apply (reshape_replicate_chunks qx Kw). rewrite length_take. lia. }
  rewrite lookup_seq_lt by done. cbn [fmap option_fmap option_map Nat.add].
  rewrite (fold1_zip_with_lookup op d qx).
  - f_equal. f_equal. unfold window. fold chunk.
    rewrite <- !list_fmap_compose. apply Forall_fmap_ext.
    eapply Forall_impl; [exact Hchunk |]. intros r Hr. simpl in Hr. cbn [compose].
    rewrite list_lookup_fmap, reshape_replicate_lookup by done.
    cbn [fmap option_fmap option_map default id]. f_equal.
    apply take_drop_take. nia.
  - destruct chunk; [simpl in Hlchunk; lia | done].
  - apply Forall_fmap, Forall_fmap. eapply Forall_impl; [exact Hchunk |].
    intros r Hr. simpl in *. rewrite length_fmap.
    apply (reshape_replicate_chunks qx Kw). rewrite length_take. lia.
  - done.
Qed.

Lemma liftM_pure_shape {A B} (n j k : nat) (f : tensor A j → result (tensor B k))
    (g : tensor A j → tensor B k) (s sj : list nat) (x : tensor A (n + j)) :
  length s = n →
  (∀ m, has_shape j sj m → f m = Ok (g m)) →
  has_shape (n + j) (s ++ sj) x →
  liftM n f x = Ok (lift n g x).
Proof.
  intros Hlen Hfg. revert s Hlen x. induction n as [|n IH]; intros s Hlen x Hx.
  - destruct s; [|done]. by apply Hfg.
  - destruct s as [|d s]; [done |]. apply has_shape_app_inv in Hx as [_ Hx].
    cbn [liftM lift]. induction Hx as [|a x Ha _ IHx]; [done |].
    rewrite fmap_cons. cbn [traverse].
    by rewrite (IH s ltac:(simpl in Hlen; lia) a Ha), bind_ret, IHx.
Qed.

(** The reduction over the windows of a cropped matrix. *)
Lemma reduce_window_split {R} (op : R → R → R) (init : option R) (d : R)
    (Kh Kw qy qx Hn Wn : nat) (m : tensor R 2) :
  0 < Kh → 0 < Kw → qy * Kh ≤ Hn → qx * Kw ≤ Wn →
  has_shape 2 [Hn; Wn] m →
  reduce_window op init
    (split_matrix Kh Kw qy qx (take (qx * Kw) <$> take (qy * Kh) m : tensor R 2))
  = Ok (pool_matrix op d Kh Kw qy qx m).
Proof.
  intros HKh HKw Hqy Hqx Hm.
  pose proof (crop_has_shape Hn Wn (qy * Kh) (qx * Kw) m Hqy Hqx Hm) as Hcrop.
  destruct (split_matrix_spec Kh Kw qy qx _ Hcrop) as [Hsplit _].
  apply has_shape_2 in Hm as [Hlen Hrows].
  rewrite <- (pool_rows_eq op d Kh Kw qy qx Hn Wn m) by done.
  unfold reduce_window.
  rewrite (liftM_all_rows 3 0 (reduce0 op init 0) (fold1 op d : tensor R 1 → tensor R 0)
             (λ r, length r = Kw)).
  2: { intros r Hr. destruct r; [simpl in Hr; lia | done]. }
  2: { by apply (has_shape_all_rows 3 [qy; Kh; qx] Kw). }
  rewrite bind_ret. cbn [liftM].
  set (t3 := lift 3 (j := 1) (k := 0) (fold1 op d : tensor R 1 → tensor R 0)
               (split_matrix Kh Kw qy qx (take (qx * Kw) <$> take (qy * Kh) m))).
  assert (has_shape 3 [qy; Kh; qx] (t3 : tensor R 3)) as Ht3.
  { apply (lift_has_shape 3 1 0 _ [qy; Kh; qx] [Kw] [] _ eq_refl); [done | exact Hsplit]. }
  rewrite (traverse_ext _ (λ u : tensor R 2, Ok (fold1 (zip_with op) [] u : tensor R 1))).
  2: { destruct Ht3 as [_ Ht3]. eapply Forall_impl; [exact Ht3 |].
       intros u [Hu _]. destruct u; [simpl in Hu; lia | done]. }
  rewrite (traverse_Ok_fmap (λ u : list (list R), fold1 (zip_with op) [] u)).
  f_equal. f_equal. unfold t3, split_matrix. cbn [lift].
  rewrite <- list_fmap_compose. apply list_fmap_ext. intros ? rows _. cbn [compose].
  rewrite <- list_fmap_compose. done.
Qed.

(** The steps of the two pooling functions on a tensor of shape
    (s..., H, W): the crop to whole windows, the reshape to windows, and
    the two reductions over the windows. *)
Lemma pool_windows_values {R} `{Num R} (n : nat) (x : tensor R (n + 2)) (s : list nat)
    (Hn Wn Kh Kw : nat) (d : R) :
  length s = n → Forall (λ e, 0 < e) s → 0 < Kh → 0 < Kw → Kh ≤ Hn → Kw ≤ Wn →
  has_shape (n + 2) (s ++ [Hn; Wn]) x →
  ∃ x_trunc blocks,
    liftM n (j := 2) (k := 2)
      (λ m, getitem_slice2 m
              (Slice None (Some (Z.of_nat (Hn / Kh) * Z.of_nat Kh)%Z) None)
              (Slice None (Some (Z.of_nat (Wn / Kw) * Z.of_nat Kw)%Z) None)) x
    = Ok x_trunc
    ∧ to_shape (n + 2) (n + 4) x_trunc
        ((Z.of_nat <$> s)
           ++ [Z.of_nat (Hn / Kh); Z.of_nat Kh; Z.of_nat (Wn / Kw); Z.of_nat Kw])
      = Ok blocks
    ∧ cp_max_window n blocks
      = Ok (lift n (j := 2) (k := 2) (pool_matrix rmax d Kh Kw (Hn / Kh) (Wn / Kw)) x)
    ∧ mean_window n blocks
      = Ok (lift n (j := 2) (k := 2)
              (λ m, tmap 2 (λ v, rdiv v (rofZ (Z.of_nat Kh * Z.of_nat Kw)))
                      (pool_matrix radd d Kh Kw (Hn / Kh) (Wn / Kw) m)) x).
Proof.
  intros Hlen Hpos HKh HKw HKhH HKwW Hx.
  set (qy := Hn / Kh). set (qx := Wn / Kw).
  assert (0 < qy) as Hqy0 by (apply Nat.div_str_pos; lia).
  assert (0 < qx) as Hqx0 by (apply Nat.div_str_pos; lia).
  assert (qy * Kh ≤ Hn) as Hty by (unfold qy; rewrite Nat.mul_comm; by apply Nat.Div0.mul_div_le).
  assert (qx * Kw ≤ Wn) as Htx by (unfold qx; rewrite Nat.mul_comm; by apply Nat.Div0.mul_div_le).
  set (crop := λ m : tensor R 2, (take (qx * Kw) <$> take (qy * Kh) m : tensor R 2)).
  assert (liftM n (j := 2) (k := 2)
            (λ m, getitem_slice2 m
                    (Slice None (Some (Z.of_nat qy * Z.of_nat Kh)%Z) None)
                    (Slice None (Some (Z.of_nat qx * Z.of_nat Kw)%Z) None)) x
          = Ok (lift n (j := 2) (k := 2) crop x)) as Hcut.
  { apply liftM_pure. intros m. rewrite getitem_slice2_prefix by lia.
    unfold crop. do 3 f_equal; lia. }
  assert (has_shape (n + 2) (s ++ [qy * Kh; qx * Kw]) (lift n (j := 2) (k := 2) crop x))
    as Hcrop.
  { apply (lift_has_shape n 2 2 _ s [Hn; Wn]); [done | | done].
    intros m Hm. by apply (crop_has_shape Hn Wn). }
  set (blocks := lift n (j := 2) (k := 4) (split_matrix Kh Kw qy qx)
                   (lift n (j := 2) (k := 2) crop x)).
  assert (has_shape (n + 4) (s ++ [qy; Kh; qx; Kw]) blocks) as Hsb.
  { apply (lift_has_shape n 2 4 _ s [qy * Kh; qx * Kw]); [done | | done].
    intros m Hm. by apply split_matrix_spec. }
  assert (to_shape (n + 2) (n + 4) (lift n (j := 2) (k := 2) crop x)
            ((Z.of_nat <$> s) ++ [Z.of_nat qy; Z.of_nat Kh; Z.of_nat qx; Z.of_nat Kw])
          = Ok blocks) as Hblocks.
  { unfold to_shape. rewrite decide_True.
    2: { apply Forall_app. split; [apply Forall_fmap, Forall_forall; intros; simpl; lia |].
         repeat constructor; lia. }
    rewrite fmap_app, to_nat_of_nat_list. cbn [fmap list_fmap]. rewrite !Nat2Z.id.
    rewrite <- (flatten_lift n 2 4 (split_matrix Kh Kw qy qx) s [qy * Kh; qx * Kw] _ Hlen);
      [| |done].
    - apply unflatten_flatten; [rewrite length_app; simpl; lia | done].
    - intros m Hm. by apply split_matrix_spec. }
  exists (lift n (j := 2) (k := 2) crop x), blocks.
  split; [exact Hcut |]. split; [exact Hblocks |]. split.
  - unfold cp_max_window, blocks. rewrite !liftM_lift_compose.
    apply (liftM_pure_shape n 2 2 _ _ s [Hn; Wn]); [done | | done].
    intros m Hm. by apply (reduce_window_split rmax None d Kh Kw qy qx Hn Wn).
  - unfold mean_window, blocks. rewrite !liftM_lift_compose.
    apply (liftM_pure_shape n 2 2 _ _ s [Hn; Wn]); [done | | done].
    intros m Hm. cbv beta. unfold crop.
    rewrite (reduce_window_split radd (Some rzero) d Kh Kw qy qx Hn Wn) by done.
    rewrite bind_ret.
    pose proof (crop_has_shape Hn Wn (qy * Kh) (qx * Kw) m Hty Htx Hm) as Hcm.
    destruct (split_matrix_spec Kh Kw qy qx _ Hcm) as [Hsplit _].
    assert (shape 4 (split_matrix Kh Kw qy qx
                       (take (qx * Kw) <$> take (qy * Kh) m : tensor R 2))
            = [qy; Kh; qx; Kw]) as Hshape
      by (apply shape_has_shape; [done | repeat constructor; lia | done]).
    unfold dim_from_end. rewrite Hshape. done.
Qed.

(** The values of max and average pooling, for a tensor of shape
    (s..., H, W) and a kernel (Kh, Kw) with [1 ≤ Kh ≤ H] and [1 ≤ Kw ≤ W]:
    the element (i, j) of every output matrix is the reduction of the
    window of [Kh] rows from row [i * Kh] and [Kw] columns from column
    [j * Kw] of the input matrix, the maximum for max pooling and the sum
    divided by [Kh * Kw] for average pooling; rows and columns beyond
    [(H // Kh) * Kh] and [(W // Kw) * Kw] belong to no window. *)
Theorem pooling_forward_values {R} `{Num R} (n : nat) (x : tensor R (n + 2)) (s : list nat)
    (Hn Wn Kh Kw : nat) (d : R) :
  length s = n → Forall (λ e, 0 < e) s → 0 < Kh → 0 < Kw → Kh ≤ Hn → Kw ≤ Wn →
  has_shape (n + 2) (s ++ [Hn; Wn]) x →
  maxpooling2d n x (Z.of_nat Kh, Z.of_nat Kw)
  = Ok (lift n (j := 2) (k := 2) (pool_matrix rmax d Kh Kw (Hn / Kh) (Wn / Kw)) x)
  ∧ avgpooling2d n x (Z.of_nat Kh, Z.of_nat Kw)
    = Ok (lift n (j := 2) (k := 2)
            (λ m, tmap 2 (λ v, rdiv v (rofZ (Z.of_nat Kh * Z.of_nat Kw)))
                    (pool_matrix radd d Kh Kw (Hn / Kh) (Wn / Kw) m)) x).
Proof.
  intros Hlen Hpos HKh HKw HKhH HKwW Hx.
  destruct (dims_from_end_last2 n s Hn Wn x Hlen Hpos ltac:(lia) ltac:(lia) Hx)
    as (_ & HdW & HdH & Hlead).
  destruct (pool_windows_values n x s Hn Wn Kh Kw d Hlen Hpos HKh HKw HKhH HKwW Hx)
    as (x_trunc & blocks & Hcut & Hblocks & Hmax & Havg).
  split.
  - unfold maxpooling2d, FMaxPooling2D.forward, floordiv.
    rewrite HdW, HdH, Hlead, <- !Nat2Z.inj_div.
    rewrite !(proj2 (Z.eqb_neq _ 0)) by lia. rewrite !bind_ret.
    rewrite Hcut, bind_ret, Hblocks, bind_ret, Hmax. done.
  - unfold avgpooling2d, FAvgPooling2D.forward, floordiv.
    rewrite HdW, HdH, Hlead, <- !Nat2Z.inj_div.
    rewrite !(proj2 (Z.eqb_neq _ 0)) by lia. rewrite !bind_ret.
    rewrite Hcut, bind_ret, Hblocks, bind_ret, Havg. done.
Qed.

Lemma pooling_forward_values_witness :
  maxpooling2d (R := Z) 0
    ([[1; 2; 3]; [4; 5; 6]; [9; 9; 7]; [1; 1; 1]; [2; 2; 2]]%Z : tensor Z (0 + 2)) (2, 2)%Z
  = Ok [[5]; [9]]%Z
  ∧ avgpooling2d (R := Z) 0
      ([[1; 2; 3]; [4; 5; 6]; [9; 9; 7]; [1; 1; 1]; [2; 2; 2]]%Z : tensor Z (0 + 2)) (2, 2)%Z
    = Ok [[3]; [5]]%Z.
Proof.
  destruct (pooling_forward_values (R := Z) 0
              ([[1; 2; 3]; [4; 5; 6]; [9; 9; 7]; [1; 1; 1]; [2; 2; 2]]%Z : tensor Z (0 + 2))
              [] 5 3 2 2 0%Z) as [Hmax Havg].
  - reflexivity.
  - constructor.
  - lia.
  - lia.
  - lia.
  - lia.
  - simpl. repeat constructor.
  - split; [exact Hmax | exact Havg].
Defined.

(** ** Pooling in [functional.py] *)

Lemma fmap_bind_replicate {A B} (f : A → B) (K : nat) (l : list A) :
  f <$> (l ≫= replicate K) = (f <$> l) ≫= replicate K.
Proof.
  induction l as [|a l IH]; [done |].
  rewrite fmap_cons, !bind_cons, fmap_app, fmap_replicate, IH. done.
Qed.

Lemma repeat_matrix_has_shape {R} (Kh Kw h w : nat) (m : tensor R 2) :
  has_shape 2 [h; w] m → has_shape 2 [h * Kh; w * Kw] (repeat_matrix Kh Kw m).
Proof.
  intros [Hh Hw]%has_shape_2. apply has_shape_2. unfold repeat_matrix. split.
  - by rewrite length_bind_replicate, length_fmap, Hh.
  - apply Forall_forall. intros r Hr.
    apply list_elem_of_lookup in Hr as [i Hi].
    destruct (decide (Kh = 0)) as [->|HK].
    { rewrite lookup_ge_None_2 in Hi; [done |]. rewrite length_bind_replicate. lia. }
    rewrite lookup_bind_replicate, list_lookup_fmap in Hi by lia.
    apply fmap_Some in Hi as (r0 & Hr0 & ->).
    rewrite length_bind_replicate. f_equal.
    by apply (Forall_lookup_1 _ _ _ _ Hw Hr0).
Qed.

Lemma pad_matrix_has_shape {R} `{Num R} (a b c d p q : nat) (m : tensor R 2) :
  0 < p → has_shape 2 [p; q] m → has_shape 2 [a + p + b; c + q + d] (pad_matrix a b c d m).
Proof.
  intros Hp [Hlen Hrows]%has_shape_2. apply has_shape_2. unfold pad_matrix.
  destruct m as [|r0 m]; [simpl in Hlen; lia |].
  apply Forall_cons in Hrows as [Hr0 Hrows].
  rewrite fmap_cons. split.
  - rewrite !length_app, !length_replicate. cbn [length]. rewrite length_fmap.
    cbn [length] in Hlen. lia.
  - assert (length (replicate c rzero ++ r0 ++ replicate d rzero) = c + q + d) as Hl0
      by (rewrite !length_app, !length_replicate; lia).
    rewrite Hl0. apply Forall_app. split; [|apply Forall_app; split].
    + apply Forall_replicate. apply length_replicate.
    + constructor; [done |]. apply Forall_fmap. eapply Forall_impl; [exact Hrows |].
      intros r Hr. simpl in Hr. unfold compose.
      rewrite !length_app, !length_replicate, Hr. lia.
    + apply Forall_replicate. apply length_replicate.
Qed.

Lemma pad_matrix_zero {R} `{Num R} (m : tensor R 2) : pad_matrix 0 0 0 0 m = m.
Proof.
  unfold pad_matrix. cbn [replicate app]. rewrite app_nil_r.
  induction m as [|r m IH]; [done |]. rewrite fmap_cons, IH. by rewrite app_nil_r.
Qed.

Lemma lift_ext {A B} (n j k : nat) (f g : tensor A j → tensor B k) (x : tensor A (n + j)) :
  (∀ m, f m = g m) → lift n f x = lift n g x.
Proof.
  intros Hfg. induction n as [|n IH]; [apply Hfg |].
  cbn [lift]. apply list_fmap_ext. intros ? t _. apply IH.
Qed.

(** [upsample2d] of [functional.py] with the default axes (-2, -1), on a
    tensor of shape (B, C, h, w) and for the target shape (B, C, Yi, Xi)
    with [h * Ky ≤ Yi] and [w * Kx ≤ Xi]: every element is repeated [Ky]
    times along the rows and [Kx] times along the columns, and the rows and
    columns that remain up to the target are zero. *)
Lemma functional_upsample2d_eq {R} `{Num R} (t : tensor R 4) (B C h w Ky Kx Yi Xi : nat) :
  0 < B → 0 < C → 0 < h → 0 < w → 0 < Ky → 0 < Kx → h * Ky ≤ Yi → w * Kx ≤ Xi →
  has_shape 4 [B; C; h; w] t →
  Functional.upsample2d 4 t (Z.of_nat Ky, Z.of_nat Kx) [B; C; Yi; Xi] (-2, -1)%Z
  = Ok (lift 2 (j := 2) (k := 2)
          (λ m, pad_matrix 0 (Yi - h * Ky) 0 (Xi - w * Kx) (repeat_matrix Ky Kx m)) t).
Proof.
  intros HB HC Hh Hw HKy HKx HYi HXi Ht. unfold Functional.upsample2d, repeat.
  destruct (normalize_axis_last2 2) as [Hax1 Hax2].
  change (2 + 2) with 4 in Hax1, Hax2. rewrite Hax1, Hax2.
  rewrite !(proj2 (Z.ltb_ge _ 0)) by lia. rewrite !bind_ret, !Nat2Z.id.
  rewrite (repeat_axis_rows 2 Ky t : repeat_axis 4 2 Ky t = _), bind_ret.
  rewrite bind_ret.
  match goal with |- context [repeat_axis 4 (2 + 1) Kx ?u] =>
    rewrite (repeat_axis_last 2 Kx u : repeat_axis 4 (2 + 1) Kx u = _)
  end.
  rewrite bind_ret, lift_lift.
  assert (lift 2 (j := 2) (k := 2)
            (λ m : tensor R 2, (fmap (λ r : list R, r ≫= replicate Kx) (m ≫= replicate Ky)
                                : tensor R 2)) t
          = lift 2 (j := 2) (k := 2) (repeat_matrix Ky Kx) t) as ->.
  { apply (lift_ext 2 2 2). intros m. apply fmap_bind_replicate. }
  assert (has_shape 4 [B; C; h * Ky; w * Kx]
            (lift 2 (j := 2) (k := 2) (repeat_matrix Ky Kx) t)) as Hups.
  { apply (lift_has_shape 2 2 2 _ [B; C] [h; w]); [done | | done].
    intros m. apply repeat_matrix_has_shape. }
  assert (shape 4 (lift 2 (j := 2) (k := 2) (repeat_matrix Ky Kx) t)
          = [B; C; h * Ky; w * Kx]) as Hshape.
  { apply shape_has_shape; [done | | done]. repeat constructor; nia. }
  rewrite Hshape. case_decide as Heq.
  - injection Heq as <- <-. rewrite !Nat.sub_diag. f_equal.
    apply (lift_ext 2 2 2). intros m. symmetry. apply pad_matrix_zero.
  - unfold pad_to_shape. rewrite decide_True by done. rewrite Hshape.
    cbn [zip_with]. rewrite !Z.sub_diag.
    rewrite (pad_last2_axes 2 _ 0 (Z.of_nat Yi - Z.of_nat (h * Ky))
               0 (Z.of_nat Xi - Z.of_nat (w * Kx))) by lia.
    rewrite lift_lift. f_equal. apply (lift_ext 2 2 2). intros m.
    f_equal; lia.
Qed.

(** The forward pass of the two pooling functions of [functional.py] on a
    tensor of shape (B, C, Yi, Xi), with a kernel (Ky, Kx) of positive
    sizes that fits the tensor. *)
Lemma functional_pool_forward {R} `{Num R} (x : tensor R 4) (B C Yi Xi Ky Kx : nat) (d : R) :
  0 < B → 0 < C → 0 < Ky → 0 < Kx → Ky ≤ Yi → Kx ≤ Xi →
  has_shape 4 [B; C; Yi; Xi] x →
  ∃ blocks,
    Functional.crop_and_split x (Z.of_nat Ky, Z.of_nat Kx) = Ok blocks
    ∧ cp_max_window 2 blocks
      = Ok (lift 2 (j := 2) (k := 2) (pool_matrix rmax d Ky Kx (Yi / Ky) (Xi / Kx)) x)
    ∧ mean_window 2 blocks
      = Ok (lift 2 (j := 2) (k := 2)
              (λ m, tmap 2 (λ v, rdiv v (rofZ (Z.of_nat Ky * Z.of_nat Kx)))
                      (pool_matrix radd d Ky Kx (Yi / Ky) (Xi / Kx) m)) x).
Proof.
  intros HB HC HKy HKx HYi HXi Hx.
  destruct (pool_windows_values 2 x [B; C] Yi Xi Ky Kx d)
    as (x_trunc & blocks & Hcut & Hblocks & Hmax & Havg);
    [done | by repeat constructor | done..|].
  exists blocks. split; [|by split].
  unfold Functional.crop_and_split.
  assert (shape 4 x = [B; C; Yi; Xi]) as ->
    by (apply shape_has_shape; [done | repeat constructor; lia | done]).
  unfold floordiv. rewrite !(proj2 (Z.eqb_neq _ 0)) by lia. rewrite !bind_ret.
  rewrite <- !Nat2Z.inj_div.
  assert (liftM 2 (j := 2) (k := 2)
            (λ m, getitem_slice2 m
                    (Slice None (Some (Z.of_nat (Yi / Ky) * Z.of_nat Ky)%Z) None)
                    (Slice None (Some (Z.of_nat (Xi / Kx) * Z.of_nat Kx)%Z) None)) x
          = Ok x_trunc) as -> by exact Hcut.
  rewrite bind_ret. exact Hblocks.
Qed.

Lemma pool_matrix_has_shape {R} (op : R → R → R) (d : R) (Kh Kw qy qx : nat)
    (m : tensor R 2) :
  has_shape 2 [qy; qx] (pool_matrix op d Kh Kw qy qx m).
Proof.
  apply has_shape_2. unfold pool_matrix. split; [by rewrite length_fmap, length_seq |].
  apply Forall_fmap, Forall_forall. intros i _. simpl. by rewrite length_fmap, length_seq.
Qed.

(** [avgpooling2d] of [functional.py] on a tensor of shape (B, C, Yi, Xi),
    with a kernel (Ky, Kx) that need not be square and need not divide the
    sizes ([Ky ≤ Yi], [Kx ≤ Xi]): the output holds the averages of the
    windows and has the shape (B, C, Yi // Ky, Xi // Kx), and the backward
    function repeats every element of the incoming gradient [Ky] times
    along the rows and [Kx] times along the columns, sets the rows and
    columns of the truncated remainder to zero, and divides everything by
    the window area [Ky * Kx]. *)
Theorem functional_avgpool_backward {R} `{Num R} (x dy : tensor R 4)
    (B C Yi Xi Ky Kx : nat) :
  0 < B → 0 < C → 0 < Ky → 0 < Kx → Ky ≤ Yi → Kx ≤ Xi →
  has_shape 4 [B; C; Yi; Xi] x →
  has_shape 4 [B; C; Yi / Ky; Xi / Kx] dy →
  ∃ y backward,
    Functional.avgpooling2d x (Z.of_nat Ky, Z.of_nat Kx) true = Ok (y, Some backward)
    ∧ y = lift 2 (j := 2) (k := 2)
            (λ m, tmap 2 (λ v, rdiv v (rofZ (Z.of_nat Ky * Z.of_nat Kx)))
                    (pool_matrix radd rzero Ky Kx (Yi / Ky) (Xi / Kx) m)) x
    ∧ has_shape 4 [B; C; Yi / Ky; Xi / Kx] y
    ∧ backward dy
      = Ok (tmap 4 (λ v, rdiv v (rofZ (Z.of_nat Ky * Z.of_nat Kx)))
              (lift 2 (j := 2) (k := 2)
                 (λ m, pad_matrix 0 (Yi - Yi / Ky * Ky) 0 (Xi - Xi / Kx * Kx)
                         (repeat_matrix Ky Kx m)) dy)).
Proof.
  intros HB HC HKy HKx HYi HXi Hx Hdy.
  assert (0 < Yi / Ky) as Hqy by (apply Nat.div_str_pos; lia).
  assert (0 < Xi / Kx) as Hqx by (apply Nat.div_str_pos; lia).
  destruct (functional_pool_forward x B C Yi Xi Ky Kx rzero)
    as (blocks & Hblocks & _ & Havg); [done.. |].
  eexists _, _. split; [|split; [reflexivity |split]].
  - unfold Functional.avgpooling2d. rewrite Hblocks, bind_ret, Havg, bind_ret. reflexivity.
  - apply (lift_has_shape 2 2 2 _ [B; C] [Yi; Xi]); [done | | done].
    intros m _. apply tmap_has_shape, pool_matrix_has_shape.
  - unfold Functional.avgpooling2d_backward.
    assert (shape 4 x = [B; C; Yi; Xi]) as ->
      by (apply shape_has_shape; [done | repeat constructor; lia | done]).
    rewrite (functional_upsample2d_eq dy B C (Yi / Ky) (Xi / Kx) Ky Kx Yi Xi); try done.
    + rewrite Nat.mul_comm. by apply Nat.Div0.mul_div_le.
    + rewrite Nat.mul_comm. by apply Nat.Div0.mul_div_le.
Qed.

Lemma functional_avgpool_backward_witness :
  ∃ y backward,
    Functional.avgpooling2d (R := Z) [[[[1; 1; 1]; [1; 1; 1]; [1; 1; 1]; [1; 1; 1]; [1; 1; 1]]]]%Z
      (3, 2)%Z true = Ok (y, Some backward)
    ∧ has_shape 4 [1; 1; 1; 1] y
    ∧ backward [[[[12]]]]%Z
      = Ok [[[[2; 2; 0]; [2; 2; 0]; [2; 2; 0]; [0; 0; 0]; [0; 0; 0]]]]%Z.
Proof.
  destruct (functional_avgpool_backward (R := Z)
              ([[[[1; 1; 1]; [1; 1; 1]; [1; 1; 1]; [1; 1; 1]; [1; 1; 1]]]]%Z : tensor Z 4)
              ([[[[12]]]]%Z : tensor Z 4) 1 1 5 3 3 2)
    as (y & backward & Hfw & _ & Hsy & Hbw); [lia.. | | |].
  - simpl. repeat constructor.
  - simpl. repeat constructor.
  - exists y, backward. split; [exact Hfw |]. split; [exact Hsy |].
    rewrite Hbw. reflexivity.
Defined.

(** [maxpooling2d] of [functional.py] on a tensor of shape (B, C, Yi, Xi),
    with a kernel (Ky, Kx) that need not be square and need not divide the
    sizes: the output [y] holds the maxima of the windows, and the backward
    function multiplies the gradient of every window, repeated over the
    window and zero on the truncated remainder, by 1 at every position
    whose input equals the maximum of its window and by 0 at the others;
    several positions of one window holding the maximum all receive the
    window's gradient. *)
Theorem functional_maxpool_backward {R} `{Num R} (x dy : tensor R 4)
    (B C Yi Xi Ky Kx : nat) :
  0 < B → 0 < C → 0 < Ky → 0 < Kx → Ky ≤ Yi → Kx ≤ Xi →
  has_shape 4 [B; C; Yi; Xi] x →
  has_shape 4 [B; C; Yi / Ky; Xi / Kx] dy →
  ∃ y backward,
    Functional.maxpooling2d x (Z.of_nat Ky, Z.of_nat Kx) true = Ok (y, Some backward)
    ∧ y = lift 2 (j := 2) (k := 2) (pool_matrix rmax rzero Ky Kx (Yi / Ky) (Xi / Kx)) x
    ∧ has_shape 4 [B; C; Yi / Ky; Xi / Kx] y
    ∧ backward dy
      = Ok (tzip 4 rmul
              (lift 2 (j := 2) (k := 2)
                 (λ m, pad_matrix 0 (Yi - Yi / Ky * Ky) 0 (Xi - Xi / Kx * Kx)
                         (repeat_matrix Ky Kx m)) dy)
              (tzip 4 (λ a b, of_bool (reqb a b)) x
                 (lift 2 (j := 2) (k := 2)
                    (λ m, pad_matrix 0 (Yi - Yi / Ky * Ky) 0 (Xi - Xi / Kx * Kx)
                            (repeat_matrix Ky Kx m)) y))).
Proof.
  intros HB HC HKy HKx HYi HXi Hx Hdy.
  assert (0 < Yi / Ky) as Hqy by (apply Nat.div_str_pos; lia).
  assert (0 < Xi / Kx) as Hqx by (apply Nat.div_str_pos; lia).
  assert (Yi / Ky * Ky ≤ Yi) as Hty by (rewrite Nat.mul_comm; by apply Nat.Div0.mul_div_le).
  assert (Xi / Kx * Kx ≤ Xi) as Htx by (rewrite Nat.mul_comm; by apply Nat.Div0.mul_div_le).
  destruct (functional_pool_forward x B C Yi Xi Ky Kx rzero)
    as (blocks & Hblocks & Hmax & _); [done.. |].
  set (y := lift 2 (j := 2) (k := 2) (pool_matrix rmax rzero Ky Kx (Yi / Ky) (Xi / Kx)) x)
    in *.
  assert (has_shape 4 [B; C; Yi / Ky; Xi / Kx] y) as Hsy.
  { apply (lift_has_shape 2 2 2 _ [B; C] [Yi; Xi]); [done | | done].
    intros m _. apply pool_matrix_has_shape. }
  assert (shape 4 x = [B; C; Yi; Xi]) as Hshape
    by (apply shape_has_shape; [done | repeat constructor; lia | done]).
  assert (∀ t : tensor R 4, has_shape 4 [B; C; Yi / Ky; Xi / Kx] t →
            has_shape 4 [B; C; Yi; Xi]
              (lift 2 (j := 2) (k := 2)
                 (λ m, pad_matrix 0 (Yi - Yi / Ky * Ky) 0 (Xi - Xi / Kx * Kx)
                         (repeat_matrix Ky Kx m)) t)) as Hups.
  { intros t Ht.
    apply (lift_has_shape 2 2 2 _ [B; C] [Yi / Ky; Xi / Kx] [Yi; Xi]); [done | | done].
    intros m Hm%(repeat_matrix_has_shape Ky Kx).
    apply (pad_matrix_has_shape 0 (Yi - Yi / Ky * Ky) 0 (Xi - Xi / Kx * Kx)) in Hm; [|nia].
    replace (0 + Yi / Ky * Ky + (Yi - Yi / Ky * Ky)) with Yi in Hm by lia.
    by replace (0 + Xi / Kx * Kx + (Xi - Xi / Kx * Kx)) with Xi in Hm by lia. }
  eexists y, _. split; [|split; [reflexivity |split; [exact Hsy |]]].
  - unfold Functional.maxpooling2d. rewrite Hblocks, bind_ret, Hmax, bind_ret.
    rewrite Hshape.
    rewrite (functional_upsample2d_eq y B C (Yi / Ky) (Xi / Kx) Ky Kx Yi Xi) by done.
    rewrite bind_ret. reflexivity.
  - unfold Functional.maxpooling2d_backward. rewrite Hshape.
    rewrite (functional_upsample2d_eq dy B C (Yi / Ky) (Xi / Kx) Ky Kx Yi Xi) by done.
    rewrite bind_ret.
    rewrite (broadcast_op_same_shape 4 _ [B; C; Yi; Xi]), bind_ret by auto.
    apply (broadcast_op_same_shape 4 _ [B; C; Yi; Xi]); [auto |].
    apply tzip_has_shape; auto.
Qed.

Lemma functional_maxpool_backward_witness :
  ∃ y backward,
    Functional.maxpooling2d (R := Z)
      [[[[1; 2; 3]; [4; 5; 6]; [9; 9; 7]; [1; 1; 1]; [2; 2; 2]]]]%Z (3, 2)%Z true
    = Ok (y, Some backward)
    ∧ has_shape 4 [1; 1; 1; 1] y
    ∧ backward [[[[5]]]]%Z
      = Ok [[[[0; 0; 0]; [0; 0; 0]; [5; 5; 0]; [0; 0; 0]; [0; 0; 0]]]]%Z.
Proof.
  destruct (functional_maxpool_backward (R := Z)
              ([[[[1; 2; 3]; [4; 5; 6]; [9; 9; 7]; [1; 1; 1]; [2; 2; 2]]]]%Z : tensor Z 4)
              ([[[[5]]]]%Z : tensor Z 4) 1 1 5 3 3 2)
    as (y & backward & Hfw & Hy & Hsy & Hbw); [lia.. | | |].
  - simpl. repeat constructor.
  - simpl. repeat constructor.
  - exists y, backward. split; [exact Hfw |]. split; [exact Hsy |].
    rewrite Hbw, Hy. reflexivity.
Defined.

(** ** The values of [linear] *)

(** Transposing a matrix of positive extents twice gives it back. *)
Lemma transpose_involutive {R} `{Num R} (p q : nat) (m : list (list R)) :
  0 < p → 0 < q → length m = p → Forall (λ r, length r = q) m →
  transpose (transpose m) = m.
Proof.
  intros Hp Hq Hlen Hrows.
  assert (m ≠ []) as Hne by (intros ->; simpl in Hlen; lia).
  destruct (transpose_shape q m Hne Hrows) as [HlT HrT].
  assert (transpose m ≠ []) as HneT by (intros E; rewrite E in HlT; simpl in HlT; lia).
  destruct (transpose_shape (length m) (transpose m) HneT HrT) as [HlTT _].
  apply list_eq. intros i. destruct (decide (i < p)) as [Hi|Hi].
  - rewrite (transpose_lookup rzero (length m)) by (done || lia).
    rewrite (transpose_column q m i) by (done || lia).
    destruct (lookup_lt_is_Some_2 m i ltac:(lia)) as [r Hr]. by rewrite Hr.
  - rewrite !lookup_ge_None_2; [done | lia..].
Qed.

(** [linear] on an input of shape (bs..., N, Cin), with a weight of shape
    (Cout, Cin) and an optional bias of shape (Cout,), all extents
    positive: element [o] of every output row is the product of the input
    row with row [o] of the weight, summed over the input features, plus
    element [o] of the bias when a bias is given. *)
Theorem linear_forward_values {R} `{Num R} (n : nat) (x : tensor R (n + 2))
    (w : Tensor R 2) (b : option (Tensor R 1)) (bs : list nat) (N Cin Cout : nat) :
  length bs = n → 0 < N → 0 < Cin → 0 < Cout →
  has_shape (n + 2) (bs ++ [N; Cin]) x →
  has_shape 2 [Cout; Cin] (data w) →
  (∀ b', b = Some b' → has_shape 1 [Cout] (data b')) →
  Functional.linear n x w b false
  = Ok (lift n (j := 2) (k := 2)
          (fmap (λ r : list R,
                   match b with
                   | Some b' => zip_with radd ((λ wrow, dot r wrow) <$> data w) (data b')
                   | None => (λ wrow, dot r wrow) <$> data w
                   end) : tensor R 2 → tensor R 2) x, None).
Proof.
  intros Hlen HN HCin HCout Hx Hw Hb.
  pose proof Hw as [Hlw Hwr]%has_shape_2.
  pose proof (transpose_has_shape Cout Cin (data w) HCout Hw) as [HlT _]%has_shape_2.
  unfold Functional.linear.
  rewrite (liftM_pure_shape n 2 2 _
             (fmap (λ r : list R, (λ wrow, dot r wrow) <$> data w) : tensor R 2 → tensor R 2)
             bs [N; Cin]); [|done| |done].
  2: { intros m [_ Hm]%has_shape_2. unfold matmul.
       rewrite decide_True by (by rewrite HlT).
       by rewrite (transpose_involutive Cout Cin). }
  rewrite bind_ret. destruct b as [b'|]; [|done].
  specialize (Hb b' eq_refl). apply has_shape_1 in Hb.
  rewrite liftM_lift_compose.
  rewrite (liftM_pure n 2 2 _
             (fmap (λ r : list R, zip_with radd ((λ wrow, dot r wrow) <$> data w) (data b'))
              : tensor R 2 → tensor R 2)); [done |].
  intros m. induction m as [|r m IH]; [done |].
  rewrite !fmap_cons. cbn [traverse].
  rewrite broadcast_op_rows by (by rewrite length_fmap, Hlw, Hb).
  rewrite bind_ret, IH. done.
Qed.

Lemma linear_forward_values_witness :
  Functional.linear (R := Z) 0 ([[1; 2]; [3; 4]]%Z : tensor Z (0 + 2))
    (mkTensor (n := 2) [[1; 0]; [0; 1]; [1; 1]]%Z false)
    (Some (mkTensor (n := 1) [10; 20; 30]%Z false)) false
  = Ok ([[11; 22; 33]; [13; 24; 37]]%Z, None).
Proof.
  exact (linear_forward_values (R := Z) 0 ([[1; 2]; [3; 4]]%Z : tensor Z (0 + 2))
           (mkTensor (n := 2) [[1; 0]; [0; 1]; [1; 1]]%Z false)
    (Some (mkTensor (n := 1) [10; 20; 30]%Z false))
           [] 2 2 3 eq_refl ltac:(lia) ltac:(lia) ltac:(lia)
           ltac:(simpl; repeat constructor) ltac:(simpl; repeat constructor)
           ltac:(intros b' [= <-]; simpl; repeat constructor)).
Defined.

(** ** Softmax over the last axis *)

Lemma normalize_axis_last (n : nat) : normalize_axis (n + 1) (-1) = Ok n.
Proof.
  unfold normalize_axis. cbn [Z.ltb Z.compare].
  rewrite (proj2 (Z.ltb_ge _ 0)), (proj2 (Z.leb_gt _ _)) by lia.
  cbn [orb]. f_equal. lia.
Qed.

Lemma normalize_axis_out_of_range (n : nat) (axis : Z) :
  (axis < - Z.of_nat n ∨ Z.of_nat n ≤ axis)%Z → normalize_axis n axis = Err AxisError.
Proof.
  intros Hax. unfold normalize_axis.
  destruct (Z.ltb_spec axis 0).
  - destruct (Z.ltb_spec (axis + Z.of_nat n) 0); [done | lia].
  - destruct (Z.ltb_spec axis 0); [lia |].
    destruct (Z.leb_spec (Z.of_nat n) axis); [done | lia].
Qed.

(** A reduction over the last axis that keeps the axis reduces every
    row to one element. *)
Lemma reduce_keep_last {R} (op : R → R → R) (init : option R) (d : R) (n : nat)
    (x : tensor R (n + 1)) :
  all_rows n (λ r, r ≠ []) x →
  reduce_keep op init (n + 1) n x
  = Ok (lift n (j := 1) (k := 1) (λ r : tensor R 1, ([fold1 op d r] : tensor R 1)) x).
Proof.
  induction n as [|n IH]; intros Hx.
  - cbn [all_rows] in Hx. destruct x as [|a x]; [done |]. done.
  - cbn [Nat.add reduce_keep lift all_rows] in *.
    induction Hx as [|a x Ha _ IHx]; [done |].
    rewrite fmap_cons. cbn [traverse]. by rewrite (IH a Ha), bind_ret, IHx.
Qed.

Lemma broadcast_op_row_scalar {A B C} (op : A → B → C) (r : list A) (b : B) :
  broadcast_op 1 op (r : tensor A 1) ([b] : tensor B 1)
  = Ok ((λ v, op v b) <$> r : tensor C 1).
Proof.
  cbn [broadcast_op]. case_decide as Hl.
  - destruct r as [|a [|a' r]]; simpl in Hl; try lia. done.
  - assert (traverse (λ a0 : tensor A 0, broadcast_op 0 op a0 (b : tensor B 0)) r
            = Ok ((λ v, op v b) <$> r)) as Ht.
    { clear Hl. induction r as [|a r IH]; [done |].
      cbn [traverse]. cbn [broadcast_op] in *. by rewrite IH. }
    destruct r as [|a [|a' r]]; [done | simpl in Hl; lia | exact Ht].
Qed.

(** An operation between a tensor and a tensor of one element for each of
    its rows. *)
Lemma broadcast_op_rows_scalar {A B C} (op : A → B → C) (g : list A → B) (n : nat)
    (x : tensor A (n + 1)) :
  broadcast_op (n + 1) op x
    (lift n (j := 1) (k := 1) (λ r : tensor A 1, ([g r] : tensor B 1)) x)
  = Ok (lift n (j := 1) (k := 1)
          (λ r : tensor A 1, ((λ v, op v (g r)) <$> r : tensor C 1)) x).
Proof.
  induction n as [|n IH]; [apply broadcast_op_row_scalar |].
  cbn [Nat.add broadcast_op lift].
  rewrite decide_True by (by rewrite length_fmap).
  induction x as [|a x IHx]; [done |].
  rewrite !fmap_cons. cbn [zip zip_with traverse fst snd].
  rewrite (IH a), bind_ret.
  exact (f_equal (λ t, let* bs := t in Ok (_ :: bs)) IHx).
Qed.

Lemma tmap_lift {A B} (f : A → B) (g : list A → list A) (n : nat) (x : tensor A (n + 1)) :
  tmap (n + 1) f (lift n (j := 1) (k := 1) (g : tensor A 1 → tensor A 1) x)
  = lift n (j := 1) (k := 1) (λ r : tensor A 1, (f <$> g r : tensor B 1)) x.
Proof.
  induction n as [|n IH]; [done |].
  cbn [Nat.add tmap lift]. rewrite <- list_fmap_compose.
  apply list_fmap_ext. intros ? a _. apply IH.
Qed.

Lemma all_rows_impl {A} (n : nat) (P Q : list A → Prop) (x : tensor A (n + 1)) :
  (∀ r, P r → Q r) → all_rows n P x → all_rows n Q x.
Proof.
  intros HPQ. induction n as [|n IH]; [apply HPQ |].
  cbn [all_rows]. intros Hx. eapply Forall_impl; [exact Hx |]. apply IH.
Qed.

Lemma all_rows_lift {A B} (n : nat) (P : list A → Prop) (Q : list B → Prop)
    (g : list A → list B) (x : tensor A (n + 1)) :
  (∀ r, P r → Q (g r)) → all_rows n P x →
  all_rows n Q (lift n (j := 1) (k := 1) (g : tensor A 1 → tensor B 1) x).
Proof.
  intros HPQ. induction n as [|n IH]; [apply HPQ |].
  cbn [all_rows lift]. intros Hx. apply Forall_fmap.
  eapply Forall_impl; [exact Hx |]. apply IH.
Qed.

(** [softmax] over the last axis of a tensor of shape (s..., q) with
    [q ≥ 1]: every row is treated on its own; its elements are the
    exponentials of the differences to the row's maximum, divided by the
    sum of these exponentials, and the result has the shape of the input.
    An axis outside the tensor's axes is an [AxisError]. *)
Theorem softmax_last_axis {R} `{Num R} (n : nat) (x : tensor R (n + 1)) (s : list nat)
    (q : nat) :
  length s = n → 0 < q → has_shape (n + 1) (s ++ [q]) x →
  Functional.softmax (n + 1) x (-1)
  = Ok (lift n (j := 1) (k := 1) (softmax_row : tensor R 1 → tensor R 1) x)
  ∧ has_shape (n + 1) (s ++ [q])
      (lift n (j := 1) (k := 1) (softmax_row : tensor R 1 → tensor R 1) x)
  ∧ ∀ axis, (axis < - Z.of_nat (n + 1) ∨ Z.of_nat (n + 1) ≤ axis)%Z →
      Functional.softmax (n + 1) x axis = Err AxisError.
Proof.
  intros Hlen Hq Hx.
  pose proof (has_shape_all_rows n s q x Hlen Hx) as Hrows.
  assert (all_rows n (λ r : list R, r ≠ []) x) as Hne.
  { eapply all_rows_impl; [|exact Hrows]. intros r Hr ->. simpl in Hr. lia. }
  split; [|split].
  - unfold Functional.softmax. rewrite normalize_axis_last, bind_ret.
    rewrite (reduce_keep_last rmax None rzero n x Hne), bind_ret.
    rewrite (broadcast_op_rows_scalar rsub (fold1 rmax rzero) n x), bind_ret.
    rewrite (tmap_lift rexp (λ r, (λ v, rsub v (fold1 rmax rzero r)) <$> r) n x).
    set (e := lift n (j := 1) (k := 1)
                (λ r : tensor R 1,
                   (rexp <$> ((λ v, rsub v (fold1 rmax rzero r)) <$> r) : tensor R 1)) x).
    assert (all_rows n (λ r : list R, r ≠ []) e) as Hee.
    { unfold e. apply (all_rows_lift n (λ r : list R, r ≠ []) (λ r : list R, r ≠ [])
                         (λ r, rexp <$> ((λ v, rsub v (fold1 rmax rzero r)) <$> r))); [|done].
      intros r Hr. by destruct r. }
    rewrite (reduce_keep_last radd (Some rzero) rzero n e Hee), bind_ret.
    rewrite (broadcast_op_rows_scalar rdiv (fold1 radd rzero) n e).
    f_equal. unfold e. rewrite lift_lift. apply (lift_ext n 1 1). intros r.
    unfold softmax_row. by rewrite <- !list_fmap_compose.
  - apply (lift_has_shape n 1 1 _ s [q] [q]); [done | | done].
    intros r Hr%has_shape_1. apply has_shape_1. unfold softmax_row.
    by rewrite !length_fmap.
  - intros axis Hax. unfold Functional.softmax.
    by rewrite normalize_axis_out_of_range.
Qed.

Lemma softmax_last_axis_witness :
  Functional.softmax (R := Z) 2 ([[1; 3]; [2; 2]]%Z : tensor Z (1 + 1)) (-1)
  = Ok (lift 1 (j := 1) (k := 1) (softmax_row : tensor Z 1 → tensor Z 1)
          ([[1; 3]; [2; 2]]%Z : tensor Z (1 + 1)))
  ∧ Functional.softmax (R := Z) 2 ([[1; 3]; [2; 2]]%Z : tensor Z (1 + 1)) 2 = Err AxisError.
Proof.
  destruct (softmax_last_axis (R := Z) 1 ([[1; 3]; [2; 2]]%Z : tensor Z (1 + 1)) [2] 2)
    as (Hval & _ & Herr).
  - reflexivity.
  - lia.
  - simpl. repeat constructor.
  - split; [exact Hval |]. apply Herr. lia.
Defined.

(** ** Shuffling along the first axis *)

Lemma getitem_int_nat {A} (x : list A) (i : nat) (a : A) :
  x !! i = Some a → getitem_int x (Z.of_nat i) = Ok a.
Proof.
  intros Hi. unfold getitem_int.
  rewrite (proj2 (Z.ltb_ge (Z.of_nat i) 0)) by lia. cbv zeta.
  rewrite (proj2 (Z.ltb_ge (Z.of_nat i) 0)) by lia. by rewrite Nat2Z.id, Hi.
Qed.

(** Indexing with indices inside the list returns the elements at the
    indices. *)
Lemma getitem_indices_in_range {A} (x : list A) (index : list nat) :
  Forall (λ i, i < length x) index →
  TensorUtils.getitem_indices x index = Ok (omap (λ i, x !! i) index)
  ∧ length (omap (λ i, x !! i) index) = length index
  ∧ ∀ k i, index !! k = Some i → omap (λ i, x !! i) index !! k = x !! i.
Proof.
  unfold TensorUtils.getitem_indices.
  induction 1 as [|i index Hi _ (IH1 & IH2 & IH3)]; [done |].
  destruct (lookup_lt_is_Some_2 x i Hi) as [a Ha].
  cbn [traverse omap list_omap]. rewrite Ha, (getitem_int_nat x i a Ha), bind_ret, IH1.
  split; [done |]. split; [simpl; by rewrite IH2 |].
  intros [|k] j Hk; simpl in Hk.
  - injection Hk as <-. done.
  - by apply IH3.
Qed.

Lemma omap_Permutation' {A B} (f : A → option B) (l k : list A) :
  l ≡ₚ k → omap f l ≡ₚ omap f k.
Proof.
  induction 1 as [|a l k _ IH|a b l|l k k' _ IH1 _ IH2]; simpl.
  - done.
  - destruct (f a); [by constructor | done].
  - destruct (f a), (f b); try done. apply perm_swap.
  - by etrans.
Qed.

Lemma omap_lookup_seq {A} (x : list A) : omap (λ i, x !! i) (seq 0 (length x)) = x.
Proof.
  induction x as [|a x IH] using rev_ind; [done |].
  rewrite length_app. cbn [length]. rewrite Nat.add_1_r, seq_S, omap_app.
  cbn [Nat.add omap list_omap]. rewrite lookup_app_r, Nat.sub_diag by done.
  cbn [lookup list_lookup]. f_equal.
  rewrite <- IH at 2. apply list_omap_ext.
  apply Forall2_same_length_lookup. split; [done |].
  intros k i j Hi Hj. rewrite Hi in Hj. injection Hj as <-.
  apply lookup_seq in Hi as [-> Hk]. by rewrite lookup_app_l.
Qed.

Lemma zip_omap_lookup {A B} (x : list A) (y : list B) (index : list nat) :
  Forall (λ i, i < length x) index → Forall (λ i, i < length y) index →
  zip (omap (λ i, x !! i) index) (omap (λ i, y !! i) index)
  = omap (λ i, zip x y !! i) index.
Proof.
  induction 1 as [|i index Hi _ IH]; intros Hy; [done |].
  apply Forall_cons in Hy as [Hiy Hy].
  destruct (lookup_lt_is_Some_2 x i Hi) as [a Ha].
  destruct (lookup_lt_is_Some_2 y i Hiy) as [b Hb].
  cbn [omap list_omap]. rewrite Ha, Hb.
  rewrite (proj2 (lookup_zip_Some x y i a b) (conj Ha Hb)).
  cbn [zip zip_with]. f_equal. by apply IH.
Qed.

(** [shuffle] of [tensor_utils.py] on two tensors of the same length along
    axis 0, when the index drawn is a permutation of the positions: both
    results hold the elements of the inputs in the order of the index, so
    that the pairs of elements at equal positions are the pairs of the
    inputs, rearranged. Tensors of different lengths are refused with a
    [ShapeError], whatever is drawn. *)
Theorem shuffle_keeps_pairs {A B} (permutation : nat → list nat) (x : list A) (y : list B) :
  permutation (length x) ≡ₚ seq 0 (length x) →
  (length x = length y →
   ∃ x' y',
     TensorUtils.shuffle permutation x y = Ok (x', y')
     ∧ zip x' y' ≡ₚ zip x y
     ∧ length x' = length x ∧ length y' = length y
     ∧ ∀ k i, permutation (length x) !! k = Some i → x' !! k = x !! i ∧ y' !! k = y !! i)
  ∧ (length x ≠ length y → TensorUtils.shuffle permutation x y = Err ShapeError).
Proof.
  intros Hperm. split.
  - intros Hlen.
    assert (Forall (λ i, i < length x) (permutation (length x))) as Hx.
    { rewrite Hperm. apply Forall_forall. intros i Hi%elem_of_seq. lia. }
    assert (Forall (λ i, i < length y) (permutation (length x))) as Hy
      by (by rewrite <- Hlen).
    destruct (getitem_indices_in_range x _ Hx) as (Hx1 & Hx2 & Hx3).
    destruct (getitem_indices_in_range y _ Hy) as (Hy1 & Hy2 & Hy3).
    eexists _, _. unfold TensorUtils.shuffle. rewrite decide_False by (by intros ?).
    rewrite Hx1, bind_ret, Hy1, bind_ret.
    split; [done |]. split; [|split; [|split]].
    + rewrite zip_omap_lookup by done.
      rewrite (omap_Permutation' _ _ _ Hperm).
      assert (length x = length (zip x y)) as -> by (rewrite length_zip; lia).
      by rewrite omap_lookup_seq.
    + by rewrite Hx2, Hperm, length_seq.
    + by rewrite Hy2, Hperm, length_seq.
    + intros k i Hk. split; [by apply Hx3 | by apply Hy3].
  - intros Hlen. unfold TensorUtils.shuffle. by rewrite decide_True.
Qed.

Lemma shuffle_keeps_pairs_witness :
  ∃ x' y',
    TensorUtils.shuffle (λ _, [2; 0; 1]) [10; 20; 30] ["a"; "b"; "c"]%string = Ok (x', y')
    ∧ zip x' y' ≡ₚ zip [10; 20; 30] ["a"; "b"; "c"]%string.
Proof.
  destruct (shuffle_keeps_pairs (λ _, [2; 0; 1]) [10; 20; 30] ["a"; "b"; "c"]%string)
    as [Hsame _].
  - simpl. change [2; 0; 1] with ([2] ++ [0; 1]). by rewrite Permutation_app_comm.
  - destruct (Hsame eq_refl) as (x' & y' & Hs & Hp & _).
    exists x', y'. split; [exact Hs | exact Hp].
Defined.

(** [shuffle] of [random.py], when the index drawn is a permutation of the
    positions: the first result holds the elements of the input in the
    order of the index, a rearrangement of the input, and the second result
    is the index. *)
Theorem random_shuffle_by_index {A} (permutation : nat → list nat) (x : list A) :
  permutation (length x) ≡ₚ seq 0 (length x) →
  ∃ x', Random.shuffle permutation x = Ok (x', permutation (length x))
        ∧ x' ≡ₚ x
        ∧ ∀ k i, permutation (length x) !! k = Some i → x' !! k = x !! i.
Proof.
  intros Hperm.
  assert (Forall (λ i, i < length x) (permutation (length x))) as Hx.
  { rewrite Hperm. apply Forall_forall. intros i Hi%elem_of_seq. lia. }
  destruct (getitem_indices_in_range x _ Hx) as (Hx1 & Hx2 & Hx3).
  eexists. unfold Random.shuffle. rewrite Hx1, bind_ret.
  split; [done |]. split; [|done].
  rewrite (omap_Permutation' _ _ _ Hperm). by rewrite omap_lookup_seq.
Qed.

Lemma random_shuffle_by_index_witness :
  ∃ x', Random.shuffle (λ _, [2; 0; 1]) [10; 20; 30] = Ok (x', [2; 0; 1]) ∧ x' ≡ₚ [10; 20; 30].
Proof.
  destruct (random_shuffle_by_index (λ _, [2; 0; 1]) [10; 20; 30]) as (x' & Hs & Hp & _).
  - simpl. change [2; 0; 1] with ([2] ++ [0; 1]). by rewrite Permutation_app_comm.
  - exists x'. split; [exact Hs | exact Hp].
Defined.

(** ** Matching the number of dims *)

Lemma expand_last_shape {R} (n : nat) (s : list nat) (t : tensor R n) :
  has_shape n s t → has_shape (S n) (s ++ [1]) (TensorUtils.expand_last n t).
Proof.
  revert s t. induction n as [|n IH]; intros s t Ht.
  - simpl in Ht. subst s. simpl. split; [done |]. by constructor.
  - destruct s as [|d s]; [done |]. destruct Ht as [Hd Ht].
    cbn [TensorUtils.expand_last app]. split.
    + exact (eq_trans (length_fmap _ t) Hd).
    + apply Forall_fmap. eapply Forall_impl; [exact Ht |]. intros a. apply IH.
Qed.

Lemma expand_last_flatten {R} (n : nat) (t : tensor R n) :
  flatten (S n) (TensorUtils.expand_last n t) = flatten n t.
Proof.
  induction n as [|n IH]; [done |].
  change (TensorUtils.expand_last (S n) t ≫= flatten (S n) = t ≫= flatten n).
  cbn [TensorUtils.expand_last].
  induction t as [|a t IHt]; [done |].
  rewrite fmap_cons, !bind_cons, IHt. f_equal. apply IH.
Qed.

(** [match_dims] returns a tensor (the loop ends); a tensor that has at
    least [dims] dims is returned as it is, and a tensor of shape [s] with
    fewer dims gets the shape [s] followed by ones up to [dims] dims, with
    the same elements in the same row-major order. *)
Theorem match_dims_appends_unit_axes {R} (x : TensorUtils.Tensor R) (dims : nat)
    (s : list nat) :
  has_shape (TensorUtils.ndim x) s (TensorUtils.data x) →
  ∃ y, TensorUtils.match_dims x dims = Some y
       ∧ TensorUtils.ndim y = Nat.max (TensorUtils.ndim x) dims
       ∧ has_shape (TensorUtils.ndim y) (s ++ replicate (dims - TensorUtils.ndim x) 1)
           (TensorUtils.data y)
       ∧ flatten (TensorUtils.ndim y) (TensorUtils.data y)
         = flatten (TensorUtils.ndim x) (TensorUtils.data x)
       ∧ (dims ≤ TensorUtils.ndim x → y = x).
Proof.
  unfold TensorUtils.match_dims.
  remember (dims - TensorUtils.ndim x) as k eqn:Hk.
  revert x s Hk. induction k as [|k IH]; intros x s Hk Hs.
  - exists x. cbn [TensorUtils.match_dims_loop]. rewrite decide_False by lia.
    split; [done |]. split; [lia |]. split; [by rewrite app_nil_r |]. done.
  - cbn [TensorUtils.match_dims_loop]. rewrite decide_True by lia.
    destruct (IH (TensorUtils.expand_dims_last x) (s ++ [1])) as (y & Hy & Hn & Hsy & Hf & _).
    + cbn [TensorUtils.expand_dims_last TensorUtils.ndim]. lia.
    + by apply expand_last_shape.
    + exists y. split; [exact Hy |].
      cbn [TensorUtils.expand_dims_last TensorUtils.ndim TensorUtils.data] in *.
      split; [lia |]. split; [|split; [|lia]].
      * replace (dims - S (TensorUtils.ndim x)) with k in Hsy by lia.
        by rewrite <- app_assoc in Hsy.
      * rewrite Hf. apply expand_last_flatten.
Qed.

Lemma match_dims_appends_unit_axes_witness :
  ∃ y, TensorUtils.match_dims (TensorUtils.mkTensor 1 ([1; 2; 3]%Z : tensor Z 1)) 3 = Some y
       ∧ TensorUtils.ndim y = 3
       ∧ has_shape (TensorUtils.ndim y) [3; 1; 1] (TensorUtils.data y).
Proof.
  destruct (match_dims_appends_unit_axes
              (TensorUtils.mkTensor 1 ([1; 2; 3]%Z : tensor Z 1)) 3 [3])
    as (y & Hy & Hn & Hs & _).
  - simpl. repeat constructor.
  - exists y. split; [exact Hy |]. split; [exact Hn | exact Hs].
Defined.

(** ** The two implementations of the forward functions *)

Lemma lift_id_ext {A} (n j : nat) (g : tensor A j → tensor A j) (x : tensor A (n + j)) :
  (∀ m, g m = m) → lift n g x = x.
Proof.
  intros Hg. induction n as [|n IH]; [apply Hg |].
  cbn [lift]. rewrite <- (list_fmap_id x) at 2.
  apply list_fmap_ext. intros ? a _. apply IH.
Qed.

Lemma bind_snd {A B} (m : result B) (c : A) :
  (let* cy := (let* y := m in Ok (c, y)) in Ok cy.2) = m.
Proof. by destruct m. Qed.

(** [functional.py] and [functional/convolutions.py] implement the same
    dilation and padding of the last axis: on every tensor and every
    argument, also one that makes them fail, [dilate1d] is [__dilate1d] and
    [pad1d] is [__pad1d]. *)
Theorem pad_dilate_1d_implementations_agree {R} `{Num R} (n : nat) (x : tensor R (n + 1)) :
  (∀ d, dilate1d n x d = Functional.__dilate1d n x d)
  ∧ (∀ p, pad1d n x p = Functional.__pad1d n x p).
Proof.
  split.
  - intros d. unfold dilate1d. destruct (decide (d = 1%Z)) as [->|Hd]; [done |].
    rewrite FDilation1D_forward_eq by done. apply bind_snd.
  - intros p. unfold pad1d, FPad1D.forward, Functional.__pad1d.
    case_bool_decide as Hp.
    + subst p. rewrite pad_last_axis by done. cbn [bind snd]. f_equal. symmetry.
      apply (lift_id_ext n 1). intros r. cbn [Z.to_nat replicate app]. apply app_nil_r.
    + apply bind_snd.
Qed.

(** The same for the last two axes: [pad2d] is [__pad2d] on every tensor
    and all widths, and [dilate2d] is [__dilate2d] for all factors but
    (1, 1), where [dilate2d] returns its input without calling the
    dilation. *)
Theorem pad_dilate_2d_implementations_agree {R} `{Num R} (n : nat) (x : tensor R (n + 2)) :
  (∀ p, pad2d n x p = Functional2D.__pad2d n x p)
  ∧ (∀ d, dilate2d n x d
          = if bool_decide (d = (1, 1)%Z) then Ok x else Functional2D.__dilate2d n x d).
Proof.
  split.
  - intros p. unfold pad2d, FPad2D.forward, Functional2D.__pad2d.
    case_bool_decide as Hp.
    + subst p. cbn [fst snd]. rewrite pad_last2_axes by done. cbn [bind snd]. f_equal.
      symmetry. apply (lift_id_ext n 2). intros m. apply pad_matrix_zero.
    + apply bind_snd.
  - intros d. unfold dilate2d, FDilation2D.forward, Functional2D.__dilate2d.
    case_bool_decide as Hd; [done |].
    destruct (zeros _ _) as [z|e]; [|done]. rewrite !bind_ret.
    by destruct (lift2M _ _ _ _).
Qed.

(** The two [maxpooling2d] and the two [avgpooling2d], of [functional.py]
    and of [functional/convolutions.py], return the same output, or fail
    with the same error, on every tensor of four axes and every kernel. *)
Theorem pooling_implementations_agree {R} `{Num R} (x : tensor R 4) (k : Z * Z) :
  Functional.maxpooling2d x k false = (let* y := maxpooling2d 2 x k in Ok (y, None))
  ∧ Functional.avgpooling2d x k false = (let* y := avgpooling2d 2 x k in Ok (y, None)).
Proof.
  split.
  - unfold Functional.maxpooling2d, maxpooling2d, FMaxPooling2D.forward,
      Functional.crop_and_split, dim_from_end, shape_but_last.
    change (2 + 2) with 4. pose proof (shape_length 4 x) as Hl.
    destruct (shape 4 x) as [|B [|C [|Yi [|Xi [|? ?]]]]]; try done.
    destruct k as [Ky Kx].
    change (reverse [B; C; Yi; Xi]) with [Xi; Yi; C; B].
    cbn [lookup list_lookup default from_option id Nat.add Nat.sub take fmap list_fmap app].
    destruct (floordiv (Z.of_nat Yi) Ky) as [qy|e]; [|done]. rewrite !bind_ret.
    destruct (floordiv (Z.of_nat Xi) Kx) as [qx|e]; [|done]. rewrite !bind_ret.
    destruct (liftM 2 _ x) as [x_crop|e]; [|done]. rewrite !bind_ret.
    destruct (to_shape 4 6 x_crop _) as [blocks|e]; [|done]. rewrite !bind_ret.
    by destruct (cp_max_window 2 blocks).
  - unfold Functional.avgpooling2d, avgpooling2d, FAvgPooling2D.forward,
      Functional.crop_and_split, dim_from_end, shape_but_last.
    change (2 + 2) with 4. pose proof (shape_length 4 x) as Hl.
    destruct (shape 4 x) as [|B [|C [|Yi [|Xi [|? ?]]]]]; try done.
    destruct k as [Ky Kx].
    change (reverse [B; C; Yi; Xi]) with [Xi; Yi; C; B].
    cbn [lookup list_lookup default from_option id Nat.add Nat.sub take fmap list_fmap app].
    destruct (floordiv (Z.of_nat Yi) Ky) as [qy|e]; [|done]. rewrite !bind_ret.
    destruct (floordiv (Z.of_nat Xi) Kx) as [qx|e]; [|done]. rewrite !bind_ret.
    destruct (liftM 2 _ x) as [x_crop|e]; [|done]. rewrite !bind_ret.
    destruct (to_shape 4 6 x_crop _) as [blocks|e]; [|done]. rewrite !bind_ret.
    by destruct (mean_window 2 blocks).
Qed.

(** ** Elements of products and of sums over leading axes *)

Lemma sum_range_ext {R} `{Num R} (N : nat) (f g : nat → R) :
  (∀ a, a < N → f a = g a) → sum_range N f = sum_range N g.
Proof.
  intros Hfg. unfold sum_range. f_equal.
  apply list_fmap_ext. intros i a Ha. apply Hfg.
  apply lookup_seq in Ha. lia.
Qed.

Lemma sum_tuples_ext {R} `{Num R} (dims : list nat) (f g : list nat → R) :
  (∀ p, Forall2 lt p dims → f p = g p) → sum_tuples dims f = sum_tuples dims g.
Proof.
  revert f g. induction dims as [|d ds IH]; intros f g Hfg; cbn [sum_tuples].
  - apply Hfg. constructor.
  - apply IH. intros p Hp. f_equal.
    apply list_fmap_ext. intros i b Hb. apply Hfg.
    apply lookup_seq in Hb. constructor; [lia | done].
Qed.

Lemma fmap_lookup_seq {A B} (f : A → B) (d : B) (l : list A) :
  (λ b, from_option f d (l !! b)) <$> seq 0 (length l) = f <$> l.
Proof.
  apply list_eq. intros i. rewrite !list_lookup_fmap.
  destruct (decide (i < length l)) as [Hi|Hi].
  - rewrite lookup_seq_lt by done. simpl.
    destruct (lookup_lt_is_Some_2 l i Hi) as [a Ha]. by rewrite Ha.
  - rewrite lookup_seq_ge by lia. by rewrite lookup_ge_None_2 by lia.
Qed.

Lemma tget_cons {A} (d : A) (n : nat) (b : nat) (p : list nat) (t : list (tensor A n))
    (u : tensor A n) :
  t !! b = Some u → tget d (S n) (b :: p) (t : tensor A (S n)) = tget d n p u.
Proof. intros Hb. cbn [tget]. by rewrite Hb. Qed.

Lemma tget_tzip {A} (d : A) (op : A → A → A) (n : nat) (s : list nat) (p : list nat)
    (a b : tensor A n) :
  has_shape n s a → has_shape n s b → Forall2 lt p s →
  tget d n p (tzip n op a b) = op (tget d n p a) (tget d n p b).
Proof.
  revert s p a b. induction n as [|n IH]; intros s p a b Ha Hb Hp; [done |].
  destruct s as [|e s]; [done |]. destruct Ha as [Hla Ha], Hb as [Hlb Hb].
  inversion Hp as [|i ? p' ? Hi Hp']; subst.
  destruct (lookup_lt_is_Some_2 a i) as [ai Hai]; [lia |].
  destruct (lookup_lt_is_Some_2 b i) as [bi Hbi]; [lia |].
  rewrite (tget_cons d n i p' a ai Hai), (tget_cons d n i p' b bi Hbi).
  change (tzip (S n) op a b) with (zip_with (tzip n op) a b).
  rewrite (tget_cons d n i p' (zip_with (tzip n op) a b) (tzip n op ai bi)).
  - apply (IH s); [| | done].
    + exact (Forall_lookup_1 _ _ _ _ Ha Hai).
    + exact (Forall_lookup_1 _ _ _ _ Hb Hbi).
  - apply lookup_zip_with_Some. eauto.
Qed.

Lemma foldl_tzip_has_shape {A} (op : A → A → A) (n : nat) (s : list nat) (a : tensor A n)
    (l : list (tensor A n)) :
  has_shape n s a → Forall (has_shape n s) l → has_shape n s (foldl (tzip n op) a l).
Proof.
  revert a. induction l as [|b l IH]; intros a Ha Hl; [done |].
  apply Forall_cons in Hl as [Hb Hl]. cbn [foldl]. apply IH; [|done].
  by apply tzip_has_shape.
Qed.

Lemma tget_foldl_tzip {A} (d : A) (op : A → A → A) (n : nat) (s : list nat) (p : list nat)
    (a : tensor A n) (l : list (tensor A n)) :
  has_shape n s a → Forall (has_shape n s) l → Forall2 lt p s →
  tget d n p (foldl (tzip n op) a l) = foldl op (tget d n p a) (tget d n p <$> l).
Proof.
  revert a. induction l as [|b l IH]; intros a Ha Hl Hp; [done |].
  apply Forall_cons in Hl as [Hb Hl]. cbn [foldl fmap list_fmap].
  rewrite IH; [|by apply tzip_has_shape|done..].
  by rewrite (tget_tzip d op n s p a b).
Qed.

(** A sum over the first axis: every element of the result is the sum of the
    elements at its place in the slices, from the first slice on. *)
Lemma reduce0_tget {R} `{Num R} (init : option R) (n : nat) (e : nat) (s : list nat)
    (p : list nat) (t : tensor R (S n)) (r : tensor R n) :
  0 < e → has_shape (S n) (e :: s) t → Forall2 lt p s →
  reduce0 radd init n t = Ok r →
  tget rzero n p r = sum_list ((λ b, tget rzero (S n) (b :: p) t) <$> seq 0 e).
Proof.
  intros He [Hl Ht] Hp Hr.
  destruct t as [|a l]; [simpl in Hl; lia |].
  cbn [reduce0] in Hr. injection Hr as <-.
  apply Forall_cons in Ht as [Ha Ht].
  rewrite (tget_foldl_tzip rzero radd n s p a l Ha Ht Hp).
  rewrite <- Hl.
  change (λ b, tget rzero (S n) (b :: p) (a :: l))
    with (λ b, from_option (tget rzero n p) rzero ((a :: l) !! b)).
  by rewrite (fmap_lookup_seq (tget rzero n p) rzero (a :: l)).
Qed.

(** A sum over the leading axes: every element of the result is the sum of
    the elements at its place over all tuples of leading indices. *)
Lemma sum_leading_tget {R} `{Num R} (n k : nat) (bs s : list nat) (q : list nat)
    (t : tensor R (n + k)) (g : tensor R k) :
  length bs = n → Forall (λ d, 0 < d) bs → has_shape (n + k) (bs ++ s) t →
  Forall2 lt q s → sum_leading n t = Ok g →
  tget rzero k q g = sum_tuples bs (λ p, tget rzero (n + k) (p ++ q) t).
Proof.
  revert bs t g. induction n as [|n IH]; intros bs t g Hlen Hpos Ht Hq Hg.
  - destruct bs; [|done]. cbn [sum_leading] in Hg. by injection Hg as <-.
  - destruct bs as [|e bs]; [done |].
    apply Forall_cons in Hpos as [He Hpos].
    cbn [sum_leading] in Hg. apply bind_Ok in Hg as (r & Hr & Hg).
    destruct (reduce0_has_shape radd (Some rzero) (n + k) e (bs ++ s) t He Ht)
      as (r' & Hr' & Hsr).
    assert (r' = r) as -> by congruence.
    rewrite (IH bs r g ltac:(by injection Hlen) Hpos Hsr Hq Hg).
    cbn [sum_tuples]. apply sum_tuples_ext. intros p Hp.
    apply (reduce0_tget (Some rzero) (n + k) e (bs ++ s) (p ++ q) t r He Ht); [|done].
    by apply Forall2_app.
Qed.
(** An operation on the trailing axes: at every tuple of leading indices
    the result holds the operation's result on the input's slice there. *)
Lemma liftM_tget {A B} (dA : A) (dB : B) (n j k : nat)
    (f : tensor A j → result (tensor B k)) (bs sj : list nat) (p : list nat)
    (t : tensor A (n + j)) (u : tensor B (n + k)) :
  length bs = n → Forall2 lt p bs → has_shape (n + j) (bs ++ sj) t →
  liftM n f t = Ok u →
  ∃ m m', f m = Ok m' ∧ has_shape j sj m
          ∧ (∀ q, tget dA (n + j) (p ++ q) t = tget dA j q m)
          ∧ (∀ q, tget dB (n + k) (p ++ q) u = tget dB k q m').
Proof.
  revert bs p t u. induction n as [|n IH]; intros bs p t u Hlen Hp Ht Hu.
  - destruct bs; [|done]. inversion Hp; subst. by exists t, u.
  - destruct bs as [|e bs]; [done |].
    inversion Hp as [|b ? p' ? Hb Hp']; subst.
    apply has_shape_app_inv in Ht as [Hlt Ht].
    cbn [liftM] in Hu. apply traverse_Ok_Forall2 in Hu.
    destruct (lookup_lt_is_Some_2 t b) as [tb Htb];
      [exact (eq_ind_r (λ k, b < k) Hb Hlt) |].
    destruct (Forall2_lookup_l _ _ _ _ _ Hu Htb) as (ub & Hub & Hfb).
    destruct (IH bs p' tb ub ltac:(by injection Hlen) Hp'
                (Forall_lookup_1 _ _ _ _ Ht Htb) Hfb) as (m & m' & Hf & Hm & Hqt & Hqu).
    exists m, m'. split; [done |]. split; [done |]. split; intros q.
    + rewrite <- Hqt. exact (tget_cons dA (n + j) b (p' ++ q) t tb Htb).
    + rewrite <- Hqu. exact (tget_cons dB (n + k) b (p' ++ q) u ub Hub).
Qed.

Lemma lift2M_tget {A B C} (dA : A) (dB : B) (dC : C) (n i j k : nat)
    (f : tensor A i → tensor B j → result (tensor C k)) (bs si sj : list nat)
    (p : list nat) (a : tensor A (n + i)) (b : tensor B (n + j)) (u : tensor C (n + k)) :
  length bs = n → Forall2 lt p bs →
  has_shape (n + i) (bs ++ si) a → has_shape (n + j) (bs ++ sj) b →
  lift2M n f a b = Ok u →
  ∃ ma mb mu, f ma mb = Ok mu ∧ has_shape i si ma ∧ has_shape j sj mb
              ∧ (∀ q, tget dA (n + i) (p ++ q) a = tget dA i q ma)
              ∧ (∀ q, tget dB (n + j) (p ++ q) b = tget dB j q mb)
              ∧ (∀ q, tget dC (n + k) (p ++ q) u = tget dC k q mu).
Proof.
  revert bs p a b u. induction n as [|n IH]; intros bs p a b u Hlen Hp Ha Hb Hu.
  - destruct bs; [|done]. inversion Hp; subst. by exists a, b, u.
  - destruct bs as [|e bs]; [done |].
    inversion Hp as [|c ? p' ? Hc Hp']; subst.
    apply has_shape_app_inv in Ha as [Hla Ha].
    apply has_shape_app_inv in Hb as [Hlb Hb].
    cbn [lift2M] in Hu.
    rewrite (decide_True (P := length a = length b)) in Hu
      by exact (eq_trans Hla (eq_sym Hlb)).
    apply traverse_Ok_Forall2 in Hu.
    destruct (lookup_lt_is_Some_2 a c) as [ac Hac];
      [exact (eq_ind_r (λ k, c < k) Hc Hla) |].
    destruct (lookup_lt_is_Some_2 b c) as [bc Hbc];
      [exact (eq_ind_r (λ k, c < k) Hc Hlb) |].
    assert (zip a b !! c = Some (ac, bc)) as Hzc.
    { apply lookup_zip_with_Some. eauto. }
    destruct (Forall2_lookup_l _ _ _ _ _ Hu Hzc) as (uc & Huc & Hfc).
    destruct (IH bs p' ac bc uc ltac:(by injection Hlen) Hp'
                (Forall_lookup_1 _ _ _ _ Ha Hac) (Forall_lookup_1 _ _ _ _ Hb Hbc) Hfc)
      as (ma & mb & mu & Hf & Hma & Hmb & Hqa & Hqb & Hqu).
    exists ma, mb, mu. split; [done |]. split; [done |]. split; [done |].
    split; [|split]; intros q.
    + rewrite <- Hqa. exact (tget_cons dA (n + i) c (p' ++ q) a ac Hac).
    + rewrite <- Hqb. exact (tget_cons dB (n + j) c (p' ++ q) b bc Hbc).
    + rewrite <- Hqu. exact (tget_cons dC (n + k) c (p' ++ q) u uc Huc).
Qed.

Lemma tget_matrix {A} (d : A) (m : list (list A)) (i j : nat) (r : list A) (a : A) :
  m !! i = Some r → r !! j = Some a → tget d 2 [i; j] (m : tensor A 2) = a.
Proof.
  intros Hi Hj.
  change (tget d 2 [i; j] (m : tensor A 2))
    with (from_option (λ r : list A, from_option (λ a : A, a) d (r !! j)) d (m !! i)).
  rewrite Hi. cbn [from_option]. by rewrite Hj.
Qed.

(** The elements of a transposed matrix. *)
Lemma transpose_tget {A} (d : A) (P Q : nat) (m : tensor A 2) (i j : nat) :
  has_shape 2 [P; Q] m → i < Q → j < P →
  tget d 2 [i; j] (transpose m : tensor A 2) = tget d 2 [j; i] m.
Proof.
  intros [Hl Hm]%has_shape_2 Hi Hj.
  destruct (lookup_lt_is_Some_2 m j) as [r Hr]; [lia |].
  pose proof (Forall_lookup_1 _ _ _ _ Hm Hr) as Hlr. simpl in Hlr.
  destruct (lookup_lt_is_Some_2 r i) as [a Ha]; [lia |].
  rewrite (tget_matrix d m j i r a Hr Ha).
  apply (tget_matrix d (transpose m) i j ((λ r, default d (r !! i)) <$> m)).
  - apply (transpose_lookup d Q); [|done..]. intros ->. simpl in Hl. lia.
  - by rewrite list_lookup_fmap, Hr; simpl; rewrite Ha.
Qed.

(** The elements of a matrix product: the sums of the products along a row
    of the first and a column of the second matrix. *)
Lemma matmul_tget {R} `{Num R} (P Q T : nat) (a b c : list (list R)) (i j : nat) :
  0 < Q → has_shape 2 [P; Q] (a : tensor R 2) → has_shape 2 [Q; T] (b : tensor R 2) →
  matmul a b = Ok c → i < P → j < T →
  tget rzero 2 [i; j] (c : tensor R 2)
  = sum_range Q (λ q, rmul (tget rzero 2 [i; q] (a : tensor R 2))
                           (tget rzero 2 [q; j] (b : tensor R 2))).
Proof.
  intros HQ [Hla Ha]%has_shape_2 [Hlb Hb]%has_shape_2 Hc Hi Hj.
  unfold matmul in Hc. case_decide as Hd; [|done]. injection Hc as <-.
  destruct (lookup_lt_is_Some_2 a i) as [r Hr]; [lia |].
  pose proof (Forall_lookup_1 _ _ _ _ Ha Hr) as Hlr. simpl in Hlr.
  assert (transpose b !! j = Some ((λ r : list R, default rzero (r !! j)) <$> b)) as Hcol.
  { apply (transpose_lookup rzero T); [|done..]. intros ->. simpl in Hlb. lia. }
  rewrite (tget_matrix rzero ((λ r : list R, (λ c, dot r c) <$> transpose b) <$> a) i j
             ((λ c, dot r c) <$> transpose b)
             (dot r ((λ r : list R, default rzero (r !! j)) <$> b))).
  - unfold dot, sum_range. f_equal.
    apply list_eq. intros q. rewrite list_lookup_fmap.
    destruct (decide (q < Q)) as [Hq|Hq].
    + rewrite lookup_seq_lt by done. cbn -[tget].
      destruct (lookup_lt_is_Some_2 r q) as [x Hx]; [lia |].
      destruct (lookup_lt_is_Some_2 b q) as [rb Hrb]; [lia |].
      pose proof (Forall_lookup_1 _ _ _ _ Hb Hrb) as Hlrb. simpl in Hlrb.
      destruct (lookup_lt_is_Some_2 rb j) as [y Hy]; [lia |].
      rewrite (tget_matrix rzero a i q r x Hr Hx), (tget_matrix rzero b q j rb y Hrb Hy).
      apply lookup_zip_with_Some. exists x, y. split; [done |]. split; [done |].
      by rewrite list_lookup_fmap, Hrb; simpl; rewrite Hy.
    + rewrite lookup_seq_ge by lia. simpl.
      apply lookup_ge_None_2. rewrite length_zip_with, length_fmap. lia.
  - by rewrite list_lookup_fmap, Hr.
  - by rewrite list_lookup_fmap, Hcol.
Qed.
(** ** The gradients of [linear] (C5) *)

(** C5. For [linear] with an input [x] of rank greater than 2, of shape
    (bs..., N, Cin), a weight of shape (Cout, Cin), an optional bias of shape
    (Cout,) and an incoming gradient [dy] of shape (bs..., N, Cout), all
    extents positive: the call returns a backward function, and that
    function returns
    - [dx = dy @ w], of the shape of [x]: its element (p..., a, i) is the
      sum over [o] of [dy[p..., a, o] * w[o, i]];
    - as [dw], when the weight has [requires_grad] set, the product
      [dy.T @ x] summed over all leading axes, of shape (Cout, Cin): its
      element (o, i) is the sum, over all tuples [p] of leading indices, of
      the sums over [a] of [dy[p..., a, o] * x[p..., a, i]]; and [None]
      otherwise;
    - as [db], when a bias is given and has [requires_grad] set, [dy]
      summed over all axes but the last, of shape (Cout,): its element [o]
      is the sum over [a] and over all tuples [p] of leading indices of
      [dy[p..., a, o]]; and [None] otherwise. *)
Theorem linear_backward_gradients {R} `{Num R} (n : nat) (x dy : tensor R (S n + 2))
    (w : Tensor R 2) (b : option (Tensor R 1)) (bs : list nat) (N Cin Cout : nat) :
  length bs = S n → Forall (λ d, 0 < d) bs → 0 < N → 0 < Cin → 0 < Cout →
  has_shape (S n + 2) (bs ++ [N; Cin]) x →
  has_shape (S n + 2) (bs ++ [N; Cout]) dy →
  has_shape 2 [Cout; Cin] (data w) →
  (∀ b', b = Some b' → has_shape 1 [Cout] (data b')) →
  ∃ y backward,
    Functional.linear (S n) x w b true = Ok (y, Some backward)
    ∧ has_shape (S n + 2) (bs ++ [N; Cout]) y
    ∧ ∃ dx dw db,
        backward dy = Ok (dx, dw, db)
        ∧ has_shape (S n + 2) (bs ++ [N; Cin]) dx
        ∧ (∀ p a i, Forall2 lt p bs → a < N → i < Cin →
             tget rzero (S n + 2) (p ++ [a; i]) dx
             = sum_range Cout
                 (λ o, rmul (tget rzero (S n + 2) (p ++ [a; o]) dy)
                            (tget rzero 2 [o; i] (data w))))
        ∧ (if requires_grad w
           then ∃ g,
                  dw = Some g
                  ∧ has_shape 2 [Cout; Cin] g
                  ∧ ∀ o i, o < Cout → i < Cin →
                      tget rzero 2 [o; i] g
                      = sum_tuples bs
                          (λ p, sum_range N
                                  (λ a, rmul (tget rzero (S n + 2) (p ++ [a; o]) dy)
                                             (tget rzero (S n + 2) (p ++ [a; i]) x)))
           else dw = None)
        ∧ (match b with
           | Some b' =>
               if requires_grad b'
               then ∃ g,
                      db = Some g
                      ∧ has_shape 1 [Cout] g
                      ∧ ∀ o, o < Cout →
                          tget rzero 1 [o] g
                          = sum_list
                              ((λ a, sum_tuples bs
                                       (λ p, tget rzero (S n + 2) (p ++ [a; o]) dy))
                                 <$> seq 0 N)
               else db = None
           | None => db = None
           end).
Proof.
  intros Hlen Hpos HN HCin HCout Hx Hdy Hw Hb.
  destruct (linear_backward_ok n x dy w b bs N Cin Cout Hlen Hpos HN HCin HCout Hx Hdy Hw Hb)
    as (y & backward & Hfw & Hsy & dx & dw & db & Hbw & Hdx & Hsdx & Hdw & Hdb).
  exists y, backward. split; [done |]. split; [done |].
  exists dx, dw, db. split; [done |]. split; [done |]. split; [|split].
  - intros p a i Hp Ha Hi.
    destruct (liftM_tget rzero rzero (S n) 2 2 _ bs [N; Cout] p dy dx Hlen Hp Hdy Hdx)
      as (m & m' & Hm' & Hsm & Hqm & Hqm').
    rewrite Hqm'.
    rewrite (matmul_tget N Cout Cin m (data w) m' a i HCout Hsm Hw Hm' Ha Hi).
    apply sum_range_ext. intros o _. by rewrite Hqm.
  - destruct (requires_grad w); [|done].
    destruct Hdw as (g & prod & -> & Hprod & Hg & Hsg).
    exists g. split; [done |]. split; [done |]. intros o i Ho Hi.
    assert (has_shape (S n + 2) (bs ++ [Cout; Cin]) prod) as Hsprod.
    { destruct (lift2M_has_shape (S n) 2 2 2 (λ dym xm, matmul (transpose dym) xm)
                  bs [N; Cout] [N; Cin] [Cout; Cin] dy x Hlen) as (prod' & Hprod' & Hs');
        [|done..|congruence].
      intros u v Hu Hv. apply (matmul_has_shape Cout N Cin); [done | | done].
      by apply transpose_has_shape. }
    rewrite (sum_leading_tget (S n) 2 bs [Cout; Cin] [o; i] prod g Hlen Hpos Hsprod
               ltac:(repeat constructor; lia) Hg).
    apply sum_tuples_ext. intros p Hp.
    destruct (lift2M_tget rzero rzero rzero (S n) 2 2 2 _ bs [N; Cout] [N; Cin] p dy x prod
                Hlen Hp Hdy Hx Hprod) as (ma & mb & mu & Hmu & Hsa & Hsb & Hqa & Hqb & Hqu).
    rewrite Hqu.
    rewrite (matmul_tget Cout N Cin (transpose ma) mb mu o i HN
               (transpose_has_shape N Cout ma HN Hsa) Hsb Hmu Ho Hi).
    apply sum_range_ext. intros a Ha.
    by rewrite (transpose_tget rzero N Cout ma o a Hsa Ho Ha), Hqa, Hqb.
  - destruct b as [b'|]; [|done]. destruct (requires_grad b'); [|done].
    destruct Hdb as (g & s & -> & Hs & Hg & Hsg).
    exists g. split; [done |]. split; [done |]. intros o Ho.
    destruct (sum_leading_has_shape (S n) 2 bs [N; Cout] dy Hlen Hpos Hdy)
      as (s' & Hs' & Hss).
    assert (s' = s) as -> by congruence.
    rewrite (reduce0_tget (Some rzero) 1 N [Cout] [o] s g HN Hss
               ltac:(repeat constructor; lia) Hg).
    f_equal. apply list_fmap_ext. intros k a Hk. apply lookup_seq in Hk as [Hak Hk].
    apply (sum_leading_tget (S n) 2 bs [N; Cout] [a; o] dy s Hlen Hpos Hdy); [|done].
    repeat constructor; lia.
Qed.

Lemma linear_backward_gradients_witness :
  ∃ y backward dx g gb,
    Functional.linear (R := Z) 1
      ([[[1; 2]; [3; 4]]; [[5; 6]; [7; 8]]]%Z : tensor Z (1 + 2))
      (mkTensor (n := 2) [[1; 0]; [0; 1]; [1; 1]]%Z true)
      (Some (mkTensor (n := 1) [0; 0; 0]%Z true)) true = Ok (y, Some backward)
    ∧ backward ([[[1; 2; 3]; [4; 5; 6]]; [[7; 8; 9]; [10; 11; 12]]]%Z : tensor Z (1 + 2))
      = Ok (dx, Some g, Some gb)
    ∧ has_shape 3 [2; 2; 2] dx ∧ has_shape 2 [3; 2] g ∧ has_shape 1 [3] gb
    ∧ [tget 0%Z 3 [0; 0; 0] dx; tget 0%Z 3 [0; 0; 1] dx;
       tget 0%Z 3 [0; 1; 0] dx; tget 0%Z 3 [0; 1; 1] dx;
       tget 0%Z 3 [1; 0; 0] dx; tget 0%Z 3 [1; 0; 1] dx;
       tget 0%Z 3 [1; 1; 0] dx; tget 0%Z 3 [1; 1; 1] dx]
      = [4; 5; 10; 11; 16; 17; 22; 23]%Z
    ∧ [tget 0%Z 2 [0; 0] g; tget 0%Z 2 [0; 1] g; tget 0%Z 2 [1; 0] g;
       tget 0%Z 2 [1; 1] g; tget 0%Z 2 [2; 0] g; tget 0%Z 2 [2; 1] g]
      = [118; 140; 134; 160; 150; 180]%Z
    ∧ [tget 0%Z 1 [0] gb; tget 0%Z 1 [1] gb; tget 0%Z 1 [2] gb] = [22; 26; 30]%Z.
Proof.
  destruct (linear_backward_gradients (R := Z) 0
              ([[[1; 2]; [3; 4]]; [[5; 6]; [7; 8]]]%Z : tensor Z (1 + 2))
              ([[[1; 2; 3]; [4; 5; 6]]; [[7; 8; 9]; [10; 11; 12]]]%Z : tensor Z (1 + 2))
              (mkTensor (n := 2) [[1; 0]; [0; 1]; [1; 1]]%Z true)
              (Some (mkTensor (n := 1) [0; 0; 0]%Z true)) [2] 2 2 3)
    as (y & backward & Hfw & _ & dx & dw & db & Hbw & Hsdx & Hdx & Hdw & Hdb).
  - reflexivity.
  - repeat constructor.
  - lia.
  - lia.
  - lia.
  - simpl. repeat constructor.
  - simpl. repeat constructor.
  - simpl. repeat constructor.
  - intros b' [= <-]. simpl. repeat constructor.
  - simpl in Hdw, Hdb.
    destruct Hdw as (g & -> & Hsg & Hg). destruct Hdb as (gb & -> & Hsgb & Hgb).
    exists y, backward, dx, g, gb.
    split; [exact Hfw |]. split; [exact Hbw |]. split; [exact Hsdx |].
    split; [exact Hsg |]. split; [exact Hsgb |].
    split; [|split].
    + repeat (apply (f_equal2 cons);
                [etrans; [apply (Hdx [_] _ _); repeat constructor; lia
                         | vm_compute; reflexivity] |]).
      reflexivity.
    + repeat (apply (f_equal2 cons);
                [etrans; [apply (Hg _ _); lia | vm_compute; reflexivity] |]).
      reflexivity.
    + repeat (apply (f_equal2 cons);
                [etrans; [apply (Hgb _); lia | vm_compute; reflexivity] |]).
      reflexivity.
Defined.
(** ** The table gradient of [EmbeddingFn], for any number of axes *)

(** A function applied to the trailing axes: at every tuple of leading
    indices the result holds the function's value on the input's slice. *)
Lemma lift_tget {A B} (dA : A) (dB : B) (n j k : nat) (g : tensor A j → tensor B k)
    (bs sj : list nat) (p : list nat) (t : tensor A (n + j)) :
  length bs = n → Forall2 lt p bs → has_shape (n + j) (bs ++ sj) t →
  ∃ m, has_shape j sj m
       ∧ (∀ q, tget dA (n + j) (p ++ q) t = tget dA j q m)
       ∧ (∀ q, tget dB (n + k) (p ++ q) (lift n g t) = tget dB k q (g m)).
Proof.
  intros Hlen Hp Ht.
  destruct (liftM_tget dA dB n j k (λ m, Ok (g m)) bs sj p t (lift n g t) Hlen Hp Ht)
    as (m & m' & Hm' & Hsm & Hqt & Hqu); [by apply liftM_pure |].
  injection Hm' as <-. by exists m.
Qed.

(** The elements of the one-hot rows of an index row. *)
Lemma unit_vectors_tget {R} `{Num R} (V Tn : nat) (r : list Z) (t v : nat) :
  has_shape 1 [Tn] (r : tensor Z 1) → t < Tn → v < V →
  tget rzero 2 [t; v] (unit_vector V <$> r : tensor R 2)
  = of_bool (Z.of_nat v =? tget 0%Z 1 [t] (r : tensor Z 1))%Z.
Proof.
  intros Hr%has_shape_1 Ht Hv.
  destruct (lookup_lt_is_Some_2 r t) as [i Hi]; [lia |].
  change (tget 0%Z 1 [t] (r : tensor Z 1)) with (from_option (λ a : Z, a) 0%Z (r !! t)).
  rewrite Hi. cbn [from_option].
  apply (tget_matrix rzero (unit_vector V <$> r) t v (unit_vector V i)).
  - by rewrite list_lookup_fmap, Hi.
  - by apply unit_vector_lookup.
Qed.

(** The backward function of [EmbeddingFn] after its forward function, for
    an index tensor [x] of shape (s..., T) with any number of leading axes,
    indices inside the table, and a gradient [dy] of shape (s..., T, E):
    both calls succeed, the cache is left as it was before the forward
    call, and the result [g] has the table's shape (V, E); its element
    (v, e) is the sum, over all tuples [p] of leading indices, of the sums
    over the positions [t] of [one_hot(x)[p..., t, v] * dy[p..., t, e]],
    where the one-hot element is 1 if [x[p..., t] = v] and 0 otherwise. *)
Theorem embedding_backward_any_rank {R} `{Num R} (n : nat) (x : IndexTensor (n + 1))
    (table : tensor R 2) (dy : tensor R (n + 2)) (s : list nat) (Tn V E : nat)
    (c : EmbeddingFuncs.FunctionCache (IndexTensor (n + 1) * list nat)) :
  EmbeddingFuncs.pseudo c = false →
  is_integer (index_dtype x) = true →
  length s = n → Forall (λ d, 0 < d) s → 0 < Tn →
  has_shape (n + 1) (s ++ [Tn]) (indices x) →
  all_rows n (in_table V) (indices x) →
  has_shape 2 [V; E] table →
  has_shape (n + 2) (s ++ [Tn; E]) dy →
  ∃ c1 y g,
    EmbeddingFuncs.EmbeddingFn.forward n c x table = Ok (c1, y)
    ∧ EmbeddingFuncs.EmbeddingFn.backward n c1 dy = Ok (c, g)
    ∧ has_shape 2 [V; E] g
    ∧ ∀ v e, v < V → e < E →
        tget rzero 2 [v; e] g
        = sum_tuples s
            (λ p, sum_range Tn
                    (λ t, rmul (of_bool (Z.of_nat v
                                         =? tget 0%Z (n + 1) (p ++ [t]) (indices x))%Z)
                               (tget rzero (n + 2) (p ++ [t; e]) dy))).
Proof.
  intros Hc Hint Hlen Hpos HT Hx Hrows Ht Hdy.
  destruct (embedding_backward_ok n x table dy s Tn V E c Hc Hint Hlen Hpos HT Hx Hrows
              Ht Hdy) as (c1 & y & oh & prod & g & Hfw & Hbw & Hoh & Hprod & Hg & Hsg).
  exists c1, y, g. split; [done |]. split; [done |]. split; [done |].
  intros v e Hv He.
  rewrite all_rows_in_table_one_hot in Hoh by done. injection Hoh as <-.
  unfold T_ in Hprod.
  set (oh := lift n (j := 1) (k := 2)
               (fmap (unit_vector V) : tensor Z 1 → tensor R 2) (indices x)) in *.
  assert (has_shape (n + 2) (s ++ [Tn; V]) oh) as Hsoh.
  { apply (lift_has_shape n 1 2 _ s [Tn] [Tn; V]); [done | | done].
    intros r Hr%has_shape_1. apply has_shape_2. split; [by rewrite length_fmap |].
    apply Forall_fmap, Forall_forall. intros i _. simpl.
    unfold unit_vector. by rewrite length_fmap, length_seq. }
  assert (has_shape (n + 2) (s ++ [V; Tn])
            (lift n (j := 2) (k := 2) (transpose : tensor R 2 → tensor R 2) oh)) as HsT.
  { apply (lift_has_shape n 2 2 _ s [Tn; V] [V; Tn]); [done | | done].
    intros m Hm. by apply transpose_has_shape. }
  assert (has_shape (n + 2) (s ++ [V; E]) prod) as Hsprod.
  { destruct (lift2M_has_shape n 2 2 2 matmul s [V; Tn] [Tn; E] [V; E] _ dy Hlen
                ltac:(intros u w Hu Hw; by apply (matmul_has_shape V Tn E)) HsT Hdy)
      as (prod' & Hprod' & Hs'). congruence. }
  rewrite (sum_leading_tget n 2 s [V; E] [v; e] prod g Hlen Hpos Hsprod
             ltac:(repeat constructor; lia) Hg).
  apply sum_tuples_ext. intros p Hp.
  destruct (lift2M_tget rzero rzero rzero n 2 2 2 matmul s [V; Tn] [Tn; E] p _ dy prod
              Hlen Hp HsT Hdy Hprod) as (ma & mb & mu & Hmu & Hsa & Hsb & Hqa & Hqb & Hqu).
  rewrite Hqu.
  rewrite (matmul_tget V Tn E ma mb mu v e HT Hsa Hsb Hmu Hv He).
  apply sum_range_ext. intros t Htt.
  rewrite <- Hqa, <- Hqb. f_equal.
  destruct (lift_tget rzero rzero n 2 2 (transpose : tensor R 2 → tensor R 2)
              s [Tn; V] p oh Hlen Hp Hsoh) as (mo & Hsmo & Hqo & HqT).
  rewrite HqT, (transpose_tget rzero Tn V mo v t Hsmo Hv Htt), <- Hqo.
  destruct (lift_tget 0%Z rzero n 1 2 (fmap (unit_vector V) : tensor Z 1 → tensor R 2)
              s [Tn] p (indices x) Hlen Hp Hx) as (r & Hsr & Hqr & Hqoh).
  fold oh in Hqoh. rewrite Hqoh, Hqr.
  by apply (unit_vectors_tget V Tn).
Qed.

Lemma embedding_backward_any_rank_witness :
  ∃ c1 y g,
    EmbeddingFuncs.EmbeddingFn.forward (R := Z) 1 (EmbeddingFuncs.new_cache _)
      (mkIndex (n := 2) int64 [[0; 0; 1]; [2; 0; 0]]%Z)
      [[10; 11]; [20; 21]; [30; 31]]%Z = Ok (c1, y)
    ∧ EmbeddingFuncs.EmbeddingFn.backward (R := Z) 1 c1
        [[[1; 2]; [3; 4]; [5; 6]]; [[7; 8]; [9; 10]; [11; 12]]]%Z
      = Ok (EmbeddingFuncs.new_cache _, g)
    ∧ has_shape 2 [3; 2] g
    ∧ [tget 0%Z 2 [0; 0] g; tget 0%Z 2 [0; 1] g; tget 0%Z 2 [1; 0] g;
       tget 0%Z 2 [1; 1] g; tget 0%Z 2 [2; 0] g; tget 0%Z 2 [2; 1] g]
      = [24; 28; 5; 6; 7; 8]%Z.
Proof.
  destruct (embedding_backward_any_rank (R := Z) 1
              (mkIndex (n := 2) int64 [[0; 0; 1]; [2; 0; 0]]%Z)
              ([[10; 11]; [20; 21]; [30; 31]]%Z : tensor Z 2)
              ([[[1; 2]; [3; 4]; [5; 6]]; [[7; 8]; [9; 10]; [11; 12]]]%Z
               : tensor Z (1 + 2))
              [2] 3 3 2 (EmbeddingFuncs.new_cache _))
    as (c1 & y & g & Hfw & Hbw & Hsg & Hg).
  - reflexivity.
  - reflexivity.
  - reflexivity.
  - repeat constructor.
  - lia.
  - simpl. repeat constructor.
  - simpl. unfold in_table. repeat constructor; lia.
  - simpl. repeat constructor.
  - simpl. repeat constructor.
  - exists c1, y, g. split; [exact Hfw |]. split; [exact Hbw |]. split; [exact Hsg |].
    repeat (apply (f_equal2 cons);
              [etrans; [apply (Hg _ _); lia | vm_compute; reflexivity] |]).
    reflexivity.
Defined.
